(** * translatorapp1: the text pipeline of the translator service

    A shallow embedding of [app/services/file_utils.py],
    [app/services/translator.py] and [app/main.py], and the properties of
    the chunker, the markup codec, the block classifier, the workbook
    renderer and the request handler.

    - Python strings are lists of characters.  A character is an [ascii],
      read as a code point below 256; [len] is [length], and the classes
      [isspace], [isdigit] and [lower] are Python's on that range.
    - Regular expressions are values of [Re.regex], run by a backtracking
      matcher that follows the priorities of Python's [re].
    - Integers ([max_chars], lengths compared with it) are in [Z].
    - The effects of a request, chat completion calls and saved outputs,
      are logged in a [World] threaded through a state and exception
      monad.  What the sources import and do not define (pathlib, the
      extractors' libraries, the chat service, the rendering libraries) is
      a record of [Collaborators]. *)

From Stdlib Require Import Ascii String.
From Stdlib Require Import List ZArith Lia Bool Arith.
From Equations Require Import Equations.
Import ListNotations.

Open Scope list_scope.

(** ** Python [str] operations used by the sources *)

Module Str.

Definition str := list ascii.

(** A string literal. *)
Definition lit (s : string) : str := list_ascii_of_string s.

Definition NL : ascii := "010"%char.
Definition SP : ascii := " "%char.

Definition code (c : ascii) : nat := nat_of_ascii c.

(** [c.isspace()] on code points below 256: tab to carriage return, the
    four information separators, space, NEL and the no-break space. *)
Definition isspace (c : ascii) : bool :=
  let n := code c in
  ((9 <=? n) && (n <=? 13)) || ((28 <=? n) && (n <=? 32))
  || (n =? 133) || (n =? 160).

(** [c.isdigit()] as the regular expression class [\d] sees it below 256. *)
Definition isdigit (c : ascii) : bool :=
  let n := code c in (48 <=? n) && (n <=? 57).

(** [c.lower()] below 256: A-Z and the accented capitals of Latin-1. *)
Definition lower_char (c : ascii) : ascii :=
  let n := code c in
  if ((65 <=? n) && (n <=? 90))
     || ((192 <=? n) && (n <=? 222) && negb (n =? 215))
  then ascii_of_nat (n + 32) else c.

Definition lower (s : str) : str := map lower_char s.

Definition str_eqb (a b : str) : bool :=
  if list_eq_dec ascii_dec a b then true else false.

(** Truth value of a string: [bool(s)]. *)
Definition nonempty (s : str) : bool :=
  match s with [] => false | _ => true end.

Fixpoint dropwhile (p : ascii -> bool) (s : str) : str :=
  match s with
  | [] => []
  | c :: s' => if p c then dropwhile p s' else s
  end.

Fixpoint takewhile (p : ascii -> bool) (s : str) : str :=
  match s with
  | [] => []
  | c :: s' => if p c then c :: takewhile p s' else []
  end.

Definition lstrip (s : str) : str := dropwhile isspace s.
Definition rstrip (s : str) : str := rev (dropwhile isspace (rev s)).
Definition strip (s : str) : str := lstrip (rstrip s).

(** [s[a:b]] for [0 <= a] and [0 <= b]; empty when [b <= a]. *)
Definition slice (s : str) (a b : nat) : str := firstn (b - a) (skipn a s).

(** [c in s] for a one-character needle. *)
Definition contains (c : ascii) (s : str) : bool :=
  existsb (Ascii.eqb c) s.

(** [s.startswith(p)], returning what follows the prefix. *)
Fixpoint strip_prefix (p s : str) : option str :=
  match p, s with
  | [], _ => Some s
  | a :: p', b :: s' => if Ascii.eqb a b then strip_prefix p' s' else None
  | _ :: _, [] => None
  end.

Definition startswith (p s : str) : bool :=
  match strip_prefix p s with Some _ => true | None => false end.

Definition cons_head (c : ascii) (l : list str) : list str :=
  match l with
  | [] => [[c]]
  | b :: bs => (c :: b) :: bs
  end.

(** [s.split(sep)] for a non-empty [sep] (Python raises [ValueError] on an
    empty one; every call site passes a non-empty literal): the leftmost
    occurrence of [sep] ends the first piece, and the scan resumes after
    it. *)
Equations split (sep s : str) : list str by wf (length s) lt :=
  split sep [] := [[]];
  split sep (c :: s') with strip_prefix sep (c :: s') := {
    | Some rest with lt_dec (length rest) (length (c :: s')) := {
        | left _ := [] :: split sep rest;
        | right _ := [c :: s'] };
    | None := cons_head c (split sep s') }.

(** [sep.join(xs)]. *)
Fixpoint join (sep : str) (xs : list str) : str :=
  match xs with
  | [] => []
  | [x] => x
  | x :: xs' => x ++ sep ++ join sep xs'
  end.

Definition len (s : str) : Z := Z.of_nat (length s).

End Str.

Import Str.

(** ** Python [re]: a backtracking matcher

    Patterns are values of [regex]; [run] tries the alternatives in the
    order Python's engine does (greedy repetition takes one more iteration
    first, lazy repetition tries to leave first), so the first success is
    the match Python reports.  One capturing group is supported, which is
    all the patterns of the sources have. *)

Module Re.

(** The span of group 1, when it has taken part in the match. *)
Definition cap := option (nat * nat).

(** A successful match: its end position and the span of group 1. *)
Definition res := (nat * cap)%type.

(** What remains to be matched: the rest of the text, the position reached
    and the capture so far. *)
Definition K := str -> nat -> cap -> option res.

Inductive regex : Type :=
| Eps                      (* the empty pattern *)
| Chr (p : ascii -> bool)  (* one character of a class *)
| Seq (r1 r2 : regex)      (* r1 r2 *)
| Alt (r1 r2 : regex)      (* r1 | r2 *)
| Star (r : regex)         (* r*  *)
| LazyStar (r : regex)     (* r*? *)
| Group (r : regex)        (* ( r ), group 1 *)
| Bos                      (* ^ without MULTILINE *)
| Eos.                     (* $ without MULTILINE *)

Definition orelse {A} (a b : option A) : option A :=
  match a with Some x => Some x | None => b end.

(** Greedy repetition of [body], at most [n] more times.  An iteration has
    to consume input; one iteration per remaining character is enough. *)
Fixpoint star_loop (body : str -> nat -> cap -> K -> option res) (k : K)
    (n : nat) (s : str) (pos : nat) (g : cap) : option res :=
  match n with
  | O => k s pos g
  | S n' =>
      orelse
        (body s pos g (fun s' pos' g' =>
           if pos <? pos' then star_loop body k n' s' pos' g' else None))
        (k s pos g)
  end.

(** Lazy repetition: leave first, iterate on failure. *)
Fixpoint lazy_loop (body : str -> nat -> cap -> K -> option res) (k : K)
    (n : nat) (s : str) (pos : nat) (g : cap) : option res :=
  match n with
  | O => k s pos g
  | S n' =>
      orelse
        (k s pos g)
        (body s pos g (fun s' pos' g' =>
           if pos <? pos' then lazy_loop body k n' s' pos' g' else None))
  end.

Fixpoint run (r : regex) (s : str) (pos : nat) (g : cap) (k : K)
    {struct r} : option res :=
  match r with
  | Eps => k s pos g
  | Chr p =>
      match s with
      | c :: s' => if p c then k s' (S pos) g else None
      | [] => None
      end
  | Seq r1 r2 => run r1 s pos g (fun s' pos' g' => run r2 s' pos' g' k)
  | Alt r1 r2 => orelse (run r1 s pos g k) (run r2 s pos g k)
  | Star r1 => star_loop (run r1) k (length s) s pos g
  | LazyStar r1 => lazy_loop (run r1) k (length s) s pos g
  | Group r1 => run r1 s pos g (fun s' pos' _ => k s' pos' (Some (pos, pos')))
  | Bos => if pos =? 0 then k s pos g else None
  | Eos =>
      match s with
      | [] => k s pos g
      | [c] => if Ascii.eqb c NL then k s pos g else None
      | _ => None
      end
  end.

(** Pattern shorthands. *)
Definition chr (c : ascii) : regex := Chr (Ascii.eqb c).
Definition chr_i (c : ascii) : regex :=
  Chr (fun x => Ascii.eqb (lower_char x) (lower_char c)).
Definition Plus (r : regex) : regex := Seq r (Star r).
Definition LazyPlus (r : regex) : regex := Seq r (LazyStar r).
Definition Opt (r : regex) : regex := Alt r Eps.
Definition space : regex := Chr isspace.             (* \s *)
Definition digit : regex := Chr isdigit.             (* \d *)
Definition dot : regex := Chr (fun c => negb (Ascii.eqb c NL)).  (* . *)
Definition not_chr (c : ascii) : regex := Chr (fun x => negb (Ascii.eqb x c)).
Fixpoint word_i (w : str) : regex :=                 (* a literal, re.I *)
  match w with
  | [] => Eps
  | c :: w' => Seq (chr_i c) (word_i w')
  end.

(** A match object: [m.start()], [m.end()] and [m.group(1)].  Group 1 of
    every pattern in the sources lies outside any alternative, so it takes
    part in every match. *)
Record Match := mkMatch {
  m_start : nat;
  m_end : nat;
  m_group1 : str
}.

Definition group_text (text : str) (g : cap) : str :=
  match g with
  | Some (a, b) => slice text a b
  | None => []
  end.

(** One attempt at position [pos], where [s] is [text[pos:]]. *)
Definition match_at (r : regex) (text : str) (pos : nat) (s : str)
  : option Match :=
  match run r s pos None (fun _ e g => Some (e, g)) with
  | Some (e, g) => Some (mkMatch pos e (group_text text g))
  | None => None
  end.

(** [re.match(r, text)]. *)
Definition re_match (r : regex) (text : str) : option Match :=
  match_at r text 0 text.

(** The scan of [finditer], [sub] and [split]: the leftmost match from
    [pos] on, then the next one from its end.  The patterns scanned in the
    sources cannot match the empty string; an empty match is stepped
    over. *)
Equations scan (r : regex) (text : str) (pos : nat) (s : str)
  : list Match by wf (length s) lt :=
  scan r text pos [] := [];
  scan r text pos (c :: s') with match_at r text pos (c :: s') := {
    | Some m with lt_dec pos (m_end m) := {
        | left _ := m :: scan r text (m_end m) (skipn (m_end m - pos) (c :: s'));
        | right _ := scan r text (S pos) s' };
    | None := scan r text (S pos) s' }.
Next Obligation.
  destruct (m_end m - pos) eqn:E; [lia|].
  simpl. rewrite length_skipn. lia.
Qed.

(** [re.finditer(r, text)]. *)
Definition finditer (r : regex) (text : str) : list Match :=
  scan r text 0 text.

Fixpoint sub_loop (repl : Match -> str) (text : str) (ms : list Match)
    (last : nat) : str :=
  match ms with
  | [] => slice text last (length text)
  | m :: ms' =>
      slice text last (m_start m) ++ repl m ++ sub_loop repl text ms' (m_end m)
  end.

(** [re.sub(r, repl, text)] with a function [repl]. *)
Definition re_sub (r : regex) (repl : Match -> str) (text : str) : str :=
  sub_loop repl text (finditer r text) 0.

Fixpoint split_loop (text : str) (ms : list Match) (last : nat) : list str :=
  match ms with
  | [] => [slice text last (length text)]
  | m :: ms' => slice text last (m_start m) :: split_loop text ms' (m_end m)
  end.

(** [re.split(r, text)] for a pattern without groups. *)
Definition re_split (r : regex) (text : str) : list str :=
  split_loop text (finditer r text) 0.

End Re.

Import Re.

(** ** Effects of a request

    A request calls the chat completion service and writes output files.
    Both are recorded in the [World]; an exception leaves the world as it
    was when it was raised. *)

Module Effects.

(** The three system prompts of [translate_text]. *)
Inductive Prompt : Set := TablePrompt | OcrPrompt | DocumentPrompt.

(** The two temperatures of [translate_text]: 0.0 and 0.2. *)
Inductive Temperature : Set := T_0_0 | T_0_2.

(** One call of [client.chat.completions.create]. *)
Record ChatCall := mkChat {
  sys_prompt : Prompt;
  user_content : str;
  temperature : Temperature
}.

Inductive Fmt : Set := F_txt | F_docx | F_pdf | F_csv | F_xlsx.

Definition fmt_name (f : Fmt) : str :=
  match f with
  | F_txt => lit "txt" | F_docx => lit "docx" | F_pdf => lit "pdf"
  | F_csv => lit "csv" | F_xlsx => lit "xlsx"
  end.

(** One completed [save_<fmt>(text, OUTPUT_DIR / f"{job_id}.<fmt>")]. *)
Record SaveCall := mkSave {
  save_fmt : Fmt;
  save_job : str;
  save_text : str
}.

Record World := mkWorld {
  chat_log : list ChatCall;
  saved : list SaveCall
}.

(** [HTTPException(status_code, detail)], or another exception with its
    text [str(e)]. *)
Inductive Exn : Type :=
| HTTPException (status_code : nat) (detail : str)
| Error (message : str).

Definition exn_text (e : Exn) : str :=
  match e with
  | HTTPException _ d => d
  | Error m => m
  end.

Inductive outcome (A : Type) : Type :=
| Ok (a : A)
| Raise (e : Exn).
Arguments Ok {A} a.
Arguments Raise {A} e.

Definition M (A : Type) : Type := World -> outcome A * World.

Definition ret {A} (a : A) : M A := fun w => (Ok a, w).

Definition raise {A} (e : Exn) : M A := fun w => (Raise e, w).

Definition bind {A B} (m : M A) (f : A -> M B) : M B :=
  fun w =>
    match m w with
    | (Ok a, w') => f a w'
    | (Raise e, w') => (Raise e, w')
    end.

(** A pure computation that may raise. *)
Definition lift {A} (o : outcome A) : M A := fun w => (o, w).

(** [try: m  except Exception as e: raise h(e)]. *)
Definition try_except {A} (m : M A) (h : Exn -> Exn) : M A :=
  fun w =>
    match m w with
    | (Ok a, w') => (Ok a, w')
    | (Raise e, w') => (Raise (h e), w')
    end.

(** [for x in xs: ys.append(f(x))]. *)
Fixpoint for_each {A B} (f : A -> M B) (xs : list A) : M (list B) :=
  match xs with
  | [] => ret []
  | x :: xs' =>
      bind (f x) (fun y => bind (for_each f xs') (fun ys => ret (y :: ys)))
  end.

Definition bytes := list Byte.byte.

(** What the request handler relies on and the sources do not define. *)
Record Collaborators := mkCollab {
  (** [Path(filename).suffix] *)
  suffix : str -> str;
  (** the extractors, over the uploaded bytes *)
  extract_text_from_pdf : bytes -> outcome str;
  extract_text_from_docx : bytes -> outcome str;
  extract_text_from_txt : bytes -> outcome str;
  extract_text_from_csv : bytes -> outcome str;
  extract_text_from_xlsx : bytes -> outcome str;
  extract_text_from_image : bytes -> outcome str;
  (** the answer of the chat completion service to a call, given the calls
      made before: [resp.choices[0].message.content], which may be [None] *)
  chat_response : list ChatCall -> ChatCall -> outcome (option str);
  (** whether a renderer fails on a text, and with what message *)
  render_error : Fmt -> str -> option str
}.

End Effects.

Import Effects.

Declare Scope monad_scope.
Delimit Scope monad_scope with monad.
Notation "x <- m ;; k" := (bind m (fun x => k))
  (at level 61, m at next level, right associativity) : monad_scope.
Notation "m ;;; k" := (bind m (fun _ => k))
  (at level 61, right associativity) : monad_scope.

(** ** [app/services/translator.py]: the chunker *)

Module Translator.

Local Open Scope Z_scope.

Definition BLOCK_SEP : str := [NL; NL].

(** The loop state of [_chunk_text]: [parts], [current], [current_len]. *)
Record chunk_state := mkChunkState {
  parts : list str;
  current : list str;
  current_len : Z
}.

(** [if current: parts.append("\n\n".join(current))]. *)
Definition flush (parts : list str) (current : list str) : list str :=
  match current with
  | [] => parts
  | _ => parts ++ [join BLOCK_SEP current]
  end.

(** One iteration of [for block in text.split("\n\n")]. *)
Definition chunk_step (max_chars : Z) (st : chunk_state) (block : str)
  : chunk_state :=
  let block_len := len block + 2 in
  if current_len st + block_len <=? max_chars then
    mkChunkState (parts st) (current st ++ [block])
                 (current_len st + block_len)
  else
    mkChunkState (flush (parts st) (current st)) [block] (len block).

Definition chunk_loop (max_chars : Z) (blocks : list str) : chunk_state :=
  fold_left (chunk_step max_chars) blocks (mkChunkState [] [] 0).

(** [text or ""]; [None] is Python's [None]. *)
Definition or_empty (text : option str) : str :=
  match text with Some t => t | None => [] end.

(** [_chunk_text(text, max_chars)]. *)
Definition _chunk_text (text : option str) (max_chars : Z) : list str :=
  let text := or_empty text in
  if len text <=? max_chars then [text]
  else
    let st := chunk_loop max_chars (split BLOCK_SEP text) in
    flush (parts st) (current st).

Definition DEFAULT_MAX_CHARS : Z := 6000.

Section TranslateText.

Variable E : Collaborators.

(** [client.chat.completions.create(...)], logged. *)
Definition chat (call : ChatCall) : M (option str) :=
  fun w =>
    (chat_response E (chat_log w) call,
     mkWorld (chat_log w ++ [call]) (saved w)).

(** The body of [for ch in chunks]. *)
Definition translate_chunk (sys_prompt : Prompt) (temp : Temperature)
    (ch : str) : M str :=
  (content <- chat (mkChat sys_prompt ch temp) ;;
   ret (strip (match content with Some c => c | None => [] end)))%monad.

(** [translate_text(french_text, mode)]. *)
Definition translate_text (french_text : str) (mode : str) : M str :=
  let sys_prompt :=
    if str_eqb mode (lit "table") then TablePrompt
    else if str_eqb mode (lit "ocr") then OcrPrompt
    else DocumentPrompt in
  let temp := if negb (str_eqb mode (lit "table")) then T_0_2 else T_0_0 in
  let chunks := _chunk_text (Some french_text) DEFAULT_MAX_CHARS in
  (outputs <- for_each (translate_chunk sys_prompt temp) chunks ;;
   ret (join BLOCK_SEP outputs))%monad.

(** The default of the parameter [mode]. *)
Definition DEFAULT_MODE : str := lit "document".

End TranslateText.

End Translator.

Import Translator.

(** ** [app/services/file_utils.py] *)

Module FileUtils.

Definition STAR : ascii := "*"%char.
Definition PIPE : ascii := "|"%char.
Definition EQUALS : ascii := "="%char.
Definition HASH : ascii := "#"%char.

(** [_BOLD_RE = re.compile(r"\*\*([^*]+)\*\*")]. *)
Definition _BOLD_RE : regex :=
  Seq (chr STAR) (Seq (chr STAR)
    (Seq (Group (Plus (not_chr STAR)))
      (Seq (chr STAR) (chr STAR)))).

(** [_BOLD_RE.sub(lambda m: m.group(1), text)]. *)
Definition strip_markdown (text : str) : str :=
  re_sub _BOLD_RE m_group1 text.

(** The body of the loop of [_split_bold_segments] over the matches; the
    state is [(parts, last)]. *)
Definition seg_step (text : str) (st : list (str * bool) * nat) (m : Match)
  : list (str * bool) * nat :=
  let '(parts, last) := st in
  let parts :=
    if last <? m_start m
    then parts ++ [(slice text last (m_start m), false)]
    else parts in
  (parts ++ [(m_group1 m, true)], m_end m).

Definition _split_bold_segments (text : str) : list (str * bool) :=
  let '(parts, last) :=
    fold_left (seg_step text) (finditer _BOLD_RE text) ([], 0) in
  if last <? length text
  then parts ++ [(slice text last (length text), false)]
  else parts.

(** [FileKind = Literal["pdf", "docx", "txt", "csv", "xlsx", "image",
    "unknown"]]. *)
Inductive FileKind : Set :=
  pdf | docx | txt | csv | xlsx | image | unknown.

Definition FileKind_eqb (a b : FileKind) : bool :=
  match a, b with
  | pdf, pdf | docx, docx | txt, txt | csv, csv
  | xlsx, xlsx | image, image | unknown, unknown => true
  | _, _ => false
  end.

(** [ext in {...}]. *)
Definition in_set (x : str) (l : list str) : bool := existsb (str_eqb x) l.

Definition detect_type (ext : str) : FileKind :=
  let ext := lower ext in
  if str_eqb ext (lit ".pdf") then pdf
  else if in_set ext [lit ".docx"] then docx
  else if in_set ext [lit ".txt"] then txt
  else if in_set ext [lit ".csv"] then csv
  else if in_set ext [lit ".xlsx"] then txt
  else if in_set ext [lit ".png"; lit ".jpg"; lit ".jpeg"] then image
  else unknown.

(** [r"^=+\s*Sheet:\s*(.+?)\s*=+$"] with [re.I]. *)
Definition SHEET_RX : regex :=
  Seq Bos (Seq (Plus (chr EQUALS)) (Seq (Star space)
    (Seq (word_i (lit "Sheet:")) (Seq (Star space)
      (Seq (Group (LazyPlus dot)) (Seq (Star space)
        (Seq (Plus (chr EQUALS)) Eos))))))).

(** *** The workbook built by [save_xlsx_from_flat]

    Of openpyxl the model keeps the worksheets of the workbook in order,
    each with its title and its rows; [ws] is the position of the sheet the
    variable [ws] of the source refers to.  The checks openpyxl itself makes
    on titles and cell values are not part of the model. *)

Record Worksheet := mkSheet {
  title : str;
  rows : list (list str)
}.

Definition Workbook := list Worksheet.

Fixpoint update_sheet (f : Worksheet -> Worksheet) (i : nat) (wb : Workbook)
  : Workbook :=
  match wb, i with
  | [], _ => []
  | sh :: wb', O => f sh :: wb'
  | sh :: wb', S i' => sh :: update_sheet f i' wb'
  end.

(** [ws.title = t]. *)
Definition set_title (t : str) (i : nat) (wb : Workbook) : Workbook :=
  update_sheet (fun sh => mkSheet t (rows sh)) i wb.

(** [ws.append(cells)]. *)
Definition append_row (cells : list str) (i : nat) (wb : Workbook)
  : Workbook :=
  update_sheet (fun sh => mkSheet (title sh) (rows sh ++ [cells])) i wb.

Record xlsx_state := mkXlsx {
  wb : Workbook;
  ws : nat;
  first_sheet_used : bool
}.

(** [name or dflt]. *)
Definition or_default (name dflt : str) : str :=
  if nonempty name then name else dflt.

Definition new_sheet (st : xlsx_state) (name : str) : xlsx_state :=
  if negb (first_sheet_used st) then
    mkXlsx (set_title (or_default name (lit "Sheet1")) (ws st) (wb st))
           (ws st) true
  else
    mkXlsx (wb st ++ [mkSheet (or_default name (lit "Sheet")) []])
           (length (wb st)) (first_sheet_used st).

(** The cells of a line: [[c.strip() for c in line.split(sep)]]. *)
Definition cells_of (sep : str) (line : str) : list str :=
  map strip (split sep line).

(** The body of [for line in text.split("\n")]. *)
Definition xlsx_line (st : xlsx_state) (line : str) : xlsx_state :=
  let s := strip line in
  if negb (nonempty s) then st
  else
    match re_match SHEET_RX s with
    | Some m => new_sheet st (m_group1 m)
    | None =>
        mkXlsx (append_row (cells_of (lit " | ") line) (ws st) (wb st))
               (ws st) (first_sheet_used st)
    end.

(** [Workbook()] has one worksheet, titled "Sheet", which is [wb.active]. *)
Definition new_workbook : Workbook := [mkSheet (lit "Sheet") []].

(** [save_xlsx_from_flat(text, path)]: the workbook handed to
    [wb.save(path)]. *)
Definition save_xlsx_from_flat (text : str) : Workbook :=
  let st0 := mkXlsx (set_title (lit "Sheet1") 0 new_workbook) 0 false in
  wb (fold_left xlsx_line (split [NL] text) st0).

(** *** The block classifier of [save_pdf]

    [Block] is what the loop over the blocks appends to [story], before
    [inline_markup] and the ReportLab flowables: the kind of the block and
    the text it is built from. *)

Inductive Block : Type :=
| PageBreak
| Heading (style : nat) (content : str)   (* [h1, h2, h3][style] *)
| SheetHeader (text : str)
| ListBlock (numbered : bool) (items : list str)
| Quote (text : str)
| Table (rows : list (list str))
| Paragraph (text : str).

(** [r"^#{1,3}\s+(.+)$"]. *)
Definition HEADING_RX : regex :=
  Seq Bos (Seq (Seq (chr HASH) (Opt (Seq (chr HASH) (Opt (chr HASH)))))
    (Seq (Plus space) (Seq (Group (Plus dot)) Eos))).

(** [r"\d+\."]. *)
Definition NUM_RX : regex := Seq (Plus digit) (chr "."%char).

(** [r"^(?:\d+\.|[-*])\s*"]. *)
Definition ITEM_PREFIX_RX : regex :=
  Seq Bos (Seq (Alt (Seq (Plus digit) (chr "."%char))
                    (Chr (fun c => Ascii.eqb c "-"%char || Ascii.eqb c STAR)))
               (Star space)).

(** [r"\n\s*\n"]. *)
Definition BLOCK_RX : regex := Seq (chr NL) (Seq (Star space) (chr NL)).

Definition is_some {A} (o : option A) : bool :=
  match o with Some _ => true | None => false end.

(** [ln.strip()] as a truth value. *)
Definition nonblank (ln : str) : bool := nonempty (strip ln).

Definition is_list_line (s : str) : bool :=
  startswith (lit "-") s || startswith (lit "*") s
  || is_some (re_match NUM_RX s).

Definition is_list_block (lines : list str) : bool :=
  let stripped_lines := filter nonblank lines in
  match stripped_lines with
  | [] => false
  | _ => forallb (fun ln => is_list_line (strip ln)) stripped_lines
  end.

(** [int(0.6 * n)] for a line count [n].  The double nearest to 0.6 is
    below 0.6 by less than 4e-17 of it, so the rounded product is the
    integer [3n/5] when 5 divides [n] and is one fifth or more away from
    an integer otherwise: the truncation is the integer quotient of [3n]
    by 5 for every count below 10^15. *)
Definition int_0_6 (n : nat) : Z := (3 * Z.of_nat n) / 5.

Definition is_table_block (lines : list str) : bool :=
  let candidates := filter (contains PIPE) lines in
  (Z.max 2 (int_0_6 (length (filter nonblank lines)))
   <=? Z.of_nat (length candidates))%Z.

(** The rows [table_from_lines] hands to [Table], or [None]. *)
Definition table_from_lines (lines : list str) : option (list (list str)) :=
  let rows := map (cells_of [PIPE]) (filter (contains PIPE) lines) in
  match rows with
  | [] => None
  | _ => Some rows
  end.

(** [b.find(" ")]. *)
Fixpoint find_from (c : ascii) (s : str) (i : Z) : Z :=
  match s with
  | [] => (-1)%Z
  | x :: s' => if Ascii.eqb x c then i else find_from c s' (i + 1)%Z
  end.

Definition find (c : ascii) (s : str) : Z := find_from c s 0%Z.

(** [b.count(c, 0, e)]: a negative [e] counts from the end. *)
Definition count_upto (c : ascii) (s : str) (e : Z) : Z :=
  let e' := if (e <? 0)%Z then Z.max 0 (len s + e) else e in
  Z.of_nat (length (filter (Ascii.eqb c) (firstn (Z.to_nat e') s))).

(** The position [[h1, h2, h3][i]] selects, or [None] for [IndexError]. *)
Definition style_index (i : Z) : option nat :=
  if ((0 <=? i) && (i <? 3))%Z then Some (Z.to_nat i)
  else if ((-3 <=? i) && (i <? 0))%Z then Some (Z.to_nat (3 + i))
  else None.

(** The three checks that precede the table check, on block [b] with
    lines [lines]. *)
Definition is_quote_block (lines : list str) : bool :=
  forallb (fun ln => startswith (lit ">") (strip ln)) (filter nonblank lines).

(** The body of [for block in blocks] once [b = block.strip()] is known to
    be non-empty; [None] is the [IndexError] of the style lookup. *)
Definition classify_block (b : str) : option Block :=
  if str_eqb b (lit "---") then Some PageBreak
  else
    let lines := split [NL] b in
    match re_match HEADING_RX b with
    | Some m =>
        let level := count_upto HASH b (find SP b) in
        match style_index (level - 1) with
        | Some i => Some (Heading i (m_group1 m))
        | None => None
        end
    | None =>
    match re_match SHEET_RX b with
    | Some ms => Some (SheetHeader (slice b (m_start ms) (m_end ms)))
    | None =>
    if is_list_block lines then
      let numbered :=
        forallb (fun ln => is_some (re_match NUM_RX (strip ln)))
                (filter nonblank lines) in
      let items :=
        map (fun ln => re_sub ITEM_PREFIX_RX (fun _ => []) (strip ln))
            (filter nonblank lines) in
      Some (ListBlock numbered items)
    else if is_quote_block lines then
      Some (Quote (join [NL]
        (map (fun ln => strip (dropwhile (Ascii.eqb ">"%char) ln)) lines)))
    else
      match (if is_table_block lines then table_from_lines lines else None) with
      | Some tbl => Some (Table tbl)
      | None => Some (Paragraph b)
      end
    end
    end.

Fixpoint sequence {A} (l : list (option A)) : option (list A) :=
  match l with
  | [] => Some []
  | None :: _ => None
  | Some x :: l' =>
      match sequence l' with Some xs => Some (x :: xs) | None => None end
  end.

(** The blocks [save_pdf] classifies, in order; [None] when a style lookup
    raises. *)
Definition pdf_blocks (text : str) : option (list Block) :=
  sequence
    (map classify_block
       (filter nonempty (map strip (re_split BLOCK_RX (strip text))))).

(** *** The other renderers and the text the extractors build *)

(** [save_txt(text, path)]: the text written to [path]. *)
Definition save_txt (text : str) : str := strip_markdown text.

(** A run of a paragraph: its text and whether [r.bold] is set. *)
Definition Run := (str * bool)%type.

(** The runs added for one line: [for seg, is_bold in
    _split_bold_segments(line): if not seg: continue; ...]. *)
Definition line_runs (line : str) : list Run :=
  filter (fun seg => nonempty (fst seg)) (_split_bold_segments line).

(** [save_docx(text, path)]: the paragraphs of the document handed to
    [doc.save(path)], each with its runs. *)
Definition save_docx (text : str) : list (list Run) :=
  flat_map (fun para => map line_runs (split [NL] para))
           (split [NL; NL] text).

(** [r"^=+\s*Sheet:\s*.+?\s*=+$"] with [re.I], the pattern of
    [save_csv_from_flat]. *)
Definition SHEET_RX_CSV : regex :=
  Seq Bos (Seq (Plus (chr EQUALS)) (Seq (Star space)
    (Seq (word_i (lit "Sheet:")) (Seq (Star space)
      (Seq (LazyPlus dot) (Seq (Star space)
        (Seq (Plus (chr EQUALS)) Eos))))))).

(** The body of the loop of [save_csv_from_flat]; the state is [rows]. *)
Definition csv_line (rows : list (list str)) (line : str)
  : list (list str) :=
  let s := strip line in
  if negb (nonempty s) then rows
  else if is_some (re_match SHEET_RX_CSV s) then rows
  else rows ++ [cells_of (lit " | ") line].

(** [save_csv_from_flat(text, path)]: the rows handed to
    [writer.writerows]. *)
Definition save_csv_from_flat (text : str) : list (list str) :=
  fold_left csv_line (split [NL] text) [].

(** The line of a row: [" | ".join(cells).rstrip()]. *)
Definition row_line (cells : list str) : str :=
  rstrip (join (lit " | ") cells).

(** [extract_text_from_csv], from the rows [csv.reader] yields for the
    decoded bytes. *)
Definition extract_text_from_csv_rows (reader : list (list str)) : str :=
  join [NL] (map row_line reader).

(** [["" if v is None else str(v) for v in row]], a cell value being
    [None] or given by its [str(v)]. *)
Definition cell_texts (row : list (option str)) : list str :=
  map (fun v => match v with None => [] | Some t => t end) row.

(** The lines [extract_text_from_xlsx] appends for one worksheet, given
    its title and the rows of [ws.iter_rows(values_only=True)]. *)
Definition sheet_parts (ws : str * list (list (option str))) : list str :=
  (lit "===== Sheet: " ++ fst ws ++ lit " =====")
  :: map (fun row => row_line (cell_texts row)) (snd ws) ++ [[]].

(** [extract_text_from_xlsx], from the worksheets [load_workbook] gives
    for the bytes. *)
Definition extract_text_from_xlsx_sheets
    (worksheets : list (str * list (list (option str)))) : str :=
  strip (join [NL] (flat_map sheet_parts worksheets)).

(** [extract_text_from_docx], from the [p.text] of the paragraphs
    [Document] gives for the bytes. *)
Definition extract_text_from_docx_paragraphs (texts : list str) : str :=
  join [NL; NL] texts.

(** The texts kept by the loop over [reader.pages]: a page whose
    [extract_text()] raises ([None]) is passed over, and [None] as its
    result counts as the empty string. *)
Definition page_texts (pages : list (option (option str))) : list str :=
  flat_map (fun page =>
              match page with
              | None => []
              | Some None => [[]]
              | Some (Some t) => [t]
              end) pages.

(** [extract_text_from_pdf], from what [page.extract_text()] does on each
    page of [PdfReader(...)]. *)
Definition extract_text_from_pdf_pages
    (pages : list (option (option str))) : str :=
  join [NL; NL]
    (map strip
       (filter (fun t => nonempty t && nonempty (strip t))
               (page_texts pages))).

End FileUtils.

Import FileUtils.

(** ** [app/main.py]: the request handler *)

Module Main.

Local Open Scope monad_scope.

(** An [UploadFile]: [file.filename] and the bytes [file.read()] gives. *)
Record UploadFile := mkUpload {
  filename : option str;
  content : bytes
}.

(** The JSON body of a successful response. *)
Record Response := mkResponse {
  job_id : str;
  translated_text : str;
  downloads : list (str * str)
}.

(** [f"/download/{job_id}/<fmt>"], keyed by the format. *)
Definition download (job : str) (f : Fmt) : str * str :=
  (fmt_name f, lit "/download/" ++ job ++ lit "/" ++ fmt_name f).

(** [text and text.strip()] as a truth value. *)
Definition has_text (text : option str) : bool :=
  match text with
  | Some t => nonempty t && nonempty (strip t)
  | None => false
  end.

(** [file.filename or "upload"]. *)
Definition upload_name (f : UploadFile) : str :=
  match filename f with
  | Some n => if nonempty n then n else lit "upload"
  | None => lit "upload"
  end.

Definition is_none {A} (o : option A) : bool :=
  match o with Some _ => false | None => true end.

Section Handler.

Variable E : Collaborators.

(** [save_<fmt>(translated, OUTPUT_DIR / f"{job_id}.<fmt>")]. *)
Definition save (f : Fmt) (text : str) (job : str) : M unit :=
  fun w =>
    match render_error E f text with
    | Some msg => (Raise (Error msg), w)
    | None => (Ok tt, mkWorld (chat_log w) (saved w ++ [mkSave f job text]))
    end.

(** The chain [if file_kind == "pdf": ... else: raise HTTPException]. *)
Definition extract (file_kind : FileKind) (file_ext : str) (data : bytes)
  : M str :=
  match file_kind with
  | pdf => lift (extract_text_from_pdf E data)
  | docx => lift (extract_text_from_docx E data)
  | txt => lift (extract_text_from_txt E data)
  | csv => lift (extract_text_from_csv E data)
  | xlsx => lift (extract_text_from_xlsx E data)
  | image => lift (extract_text_from_image E data)
  | unknown =>
      raise (HTTPException 400
        (lit "Unsupported file type: " ++ file_ext
         ++ lit ". Use .pdf, .docx, .txt, .csv, .xlsx, .png, .jpg, .jpeg"))
  end.

(** The chain that persists the outputs, by [file_kind]. *)
Definition persist (file_kind : option FileKind) (translated job : str)
  : M (list (str * str)) :=
  match file_kind with
  | Some xlsx =>
      save F_xlsx translated job ;;;
      save F_csv translated job ;;;
      ret [download job F_xlsx; download job F_csv]
  | Some csv =>
      save F_csv translated job ;;;
      save F_xlsx translated job ;;;
      ret [download job F_csv; download job F_xlsx]
  | Some pdf =>
      save F_pdf translated job ;;;
      save F_docx translated job ;;;
      save F_txt translated job ;;;
      ret [download job F_pdf; download job F_docx; download job F_txt]
  | Some docx =>
      save F_docx translated job ;;;
      save F_pdf translated job ;;;
      save F_txt translated job ;;;
      ret [download job F_docx; download job F_pdf; download job F_txt]
  | Some txt | None =>
      save F_txt translated job ;;;
      ret [download job F_txt]
  | Some _ =>
      save F_txt translated job ;;;
      save F_docx translated job ;;;
      save F_pdf translated job ;;;
      ret [download job F_txt; download job F_docx; download job F_pdf]
  end.

(** [api_translate(file, text)]; [job] is the value [uuid.uuid4()] draws
    for this request. *)
Definition api_translate (file : option UploadFile) (text : option str)
    (job : str) : M Response :=
  if is_none file && negb (has_text text) then
    raise (HTTPException 400
             (lit "Provide either a file or text to translate."))
  else
    st <- match file with
          | Some f =>
              let filename := upload_name f in
              let file_ext := lower (suffix E filename) in
              let file_kind := detect_type file_ext in
              source_text <- extract file_kind file_ext (content f) ;;
              if negb (nonempty source_text)
                 || negb (nonempty (strip source_text))
              then raise (HTTPException 422
                     (lit "Could not extract text from uploaded file."))
              else ret (source_text, Some file_kind)
          | None =>
              ret (strip (match text with Some t => t | None => [] end),
                   None)
          end ;;
    let '(source_text, file_kind) := st in
    translated <-
      try_except (translate_text E source_text DEFAULT_MODE)
        (fun e => HTTPException 500
                    (lit "Translation failed: " ++ exn_text e)) ;;
    dl <-
      try_except (persist file_kind translated job)
        (fun e => HTTPException 500
                    (lit "Failed to generate output files: " ++ exn_text e)) ;;
    ret (mkResponse job translated dl).

End Handler.

(** [GET /download/{job_id}/{fmt}]. *)
Module Routes.

(** A [FileResponse]: the file served, its media type and its download
    name. *)
Record FileResponse := mkFileResponse {
  fr_job : str;
  fr_fmt : Fmt;
  fr_media_type : str;
  fr_filename : str
}.

(** [fmt in path_map], with the entry found. *)
Definition lookup_fmt (fmt : str) : option Fmt :=
  if str_eqb fmt (lit "txt") then Some F_txt
  else if str_eqb fmt (lit "docx") then Some F_docx
  else if str_eqb fmt (lit "pdf") then Some F_pdf
  else if str_eqb fmt (lit "csv") then Some F_csv
  else if str_eqb fmt (lit "xlsx") then Some F_xlsx
  else None.

Definition media (f : Fmt) : str :=
  match f with
  | F_txt => lit "text/plain"
  | F_docx =>
      lit "application/vnd.openxmlformats-officedocument.wordprocessingml.document"
  | F_pdf => lit "application/pdf"
  | F_csv => lit "text/csv"
  | F_xlsx =>
      lit "application/vnd.openxmlformats-officedocument.spreadsheetml.sheet"
  end.

Definition Fmt_eqb (a b : Fmt) : bool :=
  match a, b with
  | F_txt, F_txt | F_docx, F_docx | F_pdf, F_pdf
  | F_csv, F_csv | F_xlsx, F_xlsx => true
  | _, _ => false
  end.

(** [path.exists()] for [OUTPUT_DIR / f"{job_id}.<fmt>"]: the files of
    [OUTPUT_DIR] are the outputs saved. *)
Definition path_exists (job : str) (f : Fmt) (w : World) : bool :=
  existsb (fun c => Fmt_eqb (save_fmt c) f && str_eqb (save_job c) job)
          (saved w).

Definition download (job_id fmt : str) : M FileResponse :=
  let fmt := lower fmt in
  match lookup_fmt fmt with
  | None =>
      raise (HTTPException 400
               (lit "Unsupported format. Use txt, docx, pdf, csv, or xlsx."))
  | Some f =>
      fun w =>
        if negb (path_exists job_id f w) then
          (Raise (HTTPException 404 (lit "File not found or expired.")), w)
        else
          (Ok (mkFileResponse job_id f (media f)
                 (job_id ++ lit "." ++ fmt_name f)), w)
  end.

End Routes.

End Main.

Import Main.

(** * Vocabulary of the properties *)

(** ** Chunks *)

Module ChunkerSpec.

Local Open Scope Z_scope.

(** What the loop has built after the blocks [done]: the flushed chunks are
    the joins of groups of consecutive blocks, and [current] holds the
    blocks after them. *)
Definition grouped (st : chunk_state) (done : list str) : Prop :=
  exists gs, Forall (fun g => g <> []) gs
             /\ parts st = map (join BLOCK_SEP) gs
             /\ concat gs ++ current st = done.

(** A chunk is within the budget, or it is one block of the text that is
    itself over the budget. *)
Definition chunk_ok (blocks : list str) (N : Z) (c : str) : Prop :=
  len c <= N \/ (In c blocks /\ N < len c).

(** The loop invariant behind the bound: the flushed chunks are fine, and
    [current] is empty, or counted at no less than its joined length and
    within the budget, or a single block counted at its length. *)
Definition bounded (blocks : list str) (N : Z) (st : chunk_state) : Prop :=
  Forall (chunk_ok blocks N) (parts st)
  /\ ((current st = [] /\ current_len st = 0)
      \/ (current st <> []
          /\ len (join BLOCK_SEP (current st)) <= current_len st
          /\ current_len st <= N)
      \/ (exists b, current st = [b] /\ In b blocks
                    /\ current_len st = len b)).

End ChunkerSpec.

Import ChunkerSpec.

(** ** Bold markers *)

Module BoldSpec.

Definition is_star (c : ascii) : bool := Ascii.eqb c STAR.

Definition not_star (c : ascii) : bool := negb (Ascii.eqb c STAR).

(** What [_BOLD_RE] matches at the head of [s], read off the pattern: two
    asterisks, the longest run of other characters, which is not empty, and
    two asterisks.  The result is group 1 and the text after the match. *)
Definition bold_at (s : str) : option (str * str) :=
  match s with
  | a :: b :: t =>
      if is_star a && is_star b then
        match takewhile not_star t, dropwhile not_star t with
        | x :: g, c :: d :: rest =>
            if is_star c && is_star d then Some (x :: g, rest) else None
        | _, _ => None
        end
      else None
  | _ => None
  end.

(** The substitution of [strip_markdown] as a recursion on the text. *)
Equations strip_direct (s : str) : str by wf (length s) lt :=
  strip_direct [] := [];
  strip_direct (c :: s') with bold_at (c :: s') := {
    | Some (g, rest) with lt_dec (length rest) (length (c :: s')) := {
        | left _ := g ++ strip_direct rest;
        | right _ := c :: s' };
    | None := c :: strip_direct s' }.

(** Four asterisks in a row somewhere in [s]. *)
Fixpoint has_run4 (s : str) : bool :=
  match s with
  | [] => false
  | a :: s' =>
      match s' with
      | b :: c :: d :: _ =>
          (is_star a && is_star b && is_star c && is_star d) || has_run4 s'
      | _ => false
      end
  end.

(** Every match of [_BOLD_RE] starts inside the text and has a non-empty
    group 1. *)
Definition good_match (text : str) (m : Match) : Prop :=
  m_group1 m <> [] /\ m_start m < length text.

End BoldSpec.

Import BoldSpec.

(** ** Workbooks *)

Module WorkbookSpec.

(** The text has no sheet-boundary line. *)
Definition no_sheet_header (text : str) : Prop :=
  forall line, In line (split [NL] text) ->
               re_match SHEET_RX (strip line) = None.

End WorkbookSpec.

Import WorkbookSpec.

(** ** Blocks *)

Module ClassifierSpec.

Local Open Scope Z_scope.

(** The lines of a block that hold a pipe, and its non-blank lines. *)
Definition pipe_lines (b : str) : list str :=
  filter (contains PIPE) (split [NL] b).

Definition nonblank_lines (b : str) : list str :=
  filter nonblank (split [NL] b).

(** None of the checks before the table check takes the block. *)
Definition earlier_steps_miss (b : str) : Prop :=
  b <> lit "---"
  /\ re_match HEADING_RX b = None
  /\ re_match SHEET_RX b = None
  /\ is_list_block (split [NL] b) = false
  /\ is_quote_block (split [NL] b) = false.

(** The threshold read as a share of the lines: at least two lines with a
    pipe, and at least six in ten of the non-blank lines. *)
Definition sixty_percent_rule (b : str) : Prop :=
  earlier_steps_miss b ->
  ((exists rows, classify_block b = Some (Table rows))
   <-> 2 <= Z.of_nat (length (pipe_lines b))
       /\ 3 * Z.of_nat (length (nonblank_lines b))
          <= 5 * Z.of_nat (length (pipe_lines b))).

End ClassifierSpec.

Import ClassifierSpec.

(** ** Requests *)

Module RequestsSpec.

(** The extensions [detect_type] knows. *)
Definition KNOWN_EXTENSIONS : list str :=
  [lit ".pdf"; lit ".docx"; lit ".txt"; lit ".csv"; lit ".xlsx";
   lit ".png"; lit ".jpg"; lit ".jpeg"].

(** The extension the handler derives from an upload. *)
Definition upload_ext (E : Collaborators) (f : UploadFile) : str :=
  lower (suffix E (upload_name f)).

Definition UNSUPPORTED (file_ext : str) : Exn :=
  HTTPException 400
    (lit "Unsupported file type: " ++ file_ext
     ++ lit ". Use .pdf, .docx, .txt, .csv, .xlsx, .png, .jpg, .jpeg").

Definition EMPTY_CONTENT : Exn :=
  HTTPException 422 (lit "Could not extract text from uploaded file.").

(** The calls a computation adds to the chat log all pass [P]. *)
Definition chats {A} (P : ChatCall -> Prop) (m : M A) : Prop :=
  forall w, exists calls,
    chat_log (snd (m w)) = chat_log w ++ calls /\ Forall P calls.

(** What [translate_text] is called with when [mode] is left out. *)
Definition document_call (c : ChatCall) : Prop :=
  sys_prompt c = DocumentPrompt /\ temperature c = T_0_2.

(** The claim that an upload of unknown kind is translated as plain text,
    with the txt output only. *)
Definition handled_as_text (C : Collaborators) (f : UploadFile)
    (text : option str) (job : str) (w : World) : Prop :=
  exists resp w',
    api_translate C (Some f) text job w = (Ok resp, w')
    /\ map fst (downloads resp) = [lit "txt"].

(** Collaborators that always succeed: every file name has suffix [ext],
    every extractor returns [extracted], the chat service echoes its input
    and no renderer fails. *)
Definition stub (ext extracted : str) : Collaborators :=
  mkCollab (fun _ => ext)
    (fun _ => Ok extracted) (fun _ => Ok extracted) (fun _ => Ok extracted)
    (fun _ => Ok extracted) (fun _ => Ok extracted) (fun _ => Ok extracted)
    (fun _ c => Ok (Some (user_content c)))
    (fun _ _ => None).

Definition no_world : World := mkWorld [] [].

End RequestsSpec.

Import RequestsSpec.

(** ** Vocabulary of the further properties *)

Module MoreSpec.

Local Open Scope Z_scope.

(** A group is closed only when the next block would bring its chunk over
    the budget, counting the separator, and two characters more. *)
Definition tight (N : Z) (gs : list (list str)) : Prop :=
  forall i g b g',
    nth_error gs i = Some g ->
    nth_error gs (S i) = Some (b :: g') ->
    N < len (join BLOCK_SEP g) + len b + 4.

(** The groups closed so far and the open one are tight, and [current_len]
    counts the open group at no more than its joined length plus two. *)
Definition packed (N : Z) (st : chunk_state) (done : list str) : Prop :=
  exists gs,
    Forall (fun g => g <> []) gs
    /\ parts st = map (join BLOCK_SEP) gs
    /\ concat gs ++ current st = done
    /\ match current st with
       | [] => gs = [] /\ current_len st = 0
       | _ => tight N (gs ++ [current st])
              /\ current_len st <= len (join BLOCK_SEP (current st)) + 2
       end.

(** The system prompt and the temperature [translate_text] uses for a
    mode. *)
Definition mode_settings (mode : str) (p : Prompt) (t : Temperature)
  : Prop :=
  (mode = lit "table" -> p = TablePrompt /\ t = T_0_0)
  /\ (mode = lit "ocr" -> p = OcrPrompt /\ t = T_0_2)
  /\ (mode <> lit "table" -> mode <> lit "ocr" ->
      p = DocumentPrompt /\ t = T_0_2).

(** The chat log after the first [i] of the chunks were sent. *)
Definition log_after (w : World) (p : Prompt) (t : Temperature)
    (chunks : list str) (i : nat) : list ChatCall :=
  chat_log w ++ map (fun ch => mkChat p ch t) (firstn i chunks).

(** The answer of the service to chunk number [i]. *)
Definition answer_to (E : Collaborators) (w : World) (p : Prompt)
    (t : Temperature) (chunks : list str) (i : nat)
  : outcome (option str) :=
  chat_response E (log_after w p t chunks i)
    (mkChat p (nth i chunks []) t).

(** Collaborators like [stub], with a chat service that always raises. *)
Definition stub_down (ext extracted : str) : Collaborators :=
  mkCollab (fun _ => ext)
    (fun _ => Ok extracted) (fun _ => Ok extracted) (fun _ => Ok extracted)
    (fun _ => Ok extracted) (fun _ => Ok extracted) (fun _ => Ok extracted)
    (fun _ _ => Raise (Error (lit "service unavailable")))
    (fun _ _ => None).

(** The output formats of a request, in the order they are saved, by the
    kind of the upload ([None]: no file, the text field is translated). *)
Definition outputs_of (kind : option FileKind) : list Fmt :=
  match kind with
  | Some xlsx => [F_xlsx; F_csv]
  | Some csv => [F_csv; F_xlsx]
  | Some pdf => [F_pdf; F_docx; F_txt]
  | Some docx => [F_docx; F_pdf; F_txt]
  | Some txt | None => [F_txt]
  | Some image | Some unknown => [F_txt; F_docx; F_pdf]
  end.

(** The kind a request is handled as. *)
Definition request_kind (E : Collaborators) (file : option UploadFile)
  : option FileKind :=
  match file with
  | Some f => Some (detect_type (upload_ext E f))
  | None => None
  end.

(** The saves of a job, for some formats, from one text. *)
Definition saves_of (job text : str) (fmts : list Fmt) : list SaveCall :=
  map (fun f => mkSave f job text) fmts.

Definition TRANSLATION_FAILED (e : Exn) : Exn :=
  HTTPException 500 (lit "Translation failed: " ++ exn_text e).

Definition OUTPUT_FAILED (msg : str) : Exn :=
  HTTPException 500 (lit "Failed to generate output files: " ++ msg).

Definition NO_INPUT : Exn :=
  HTTPException 400 (lit "Provide either a file or text to translate.").

(** Collaborators like [stub], whose docx renderer fails. *)
Definition stub_no_docx (ext extracted : str) : Collaborators :=
  mkCollab (fun _ => ext)
    (fun _ => Ok extracted) (fun _ => Ok extracted) (fun _ => Ok extracted)
    (fun _ => Ok extracted) (fun _ => Ok extracted) (fun _ => Ok extracted)
    (fun _ c => Ok (Some (user_content c)))
    (fun f _ => match f with F_docx => Some (lit "disk full") | _ => None end).

(** The first stage of a request that has input: the source text and the
    kind it is handled as, or the exception raised before translation. *)
Definition source_of (E : Collaborators) (file : option UploadFile)
    (text : option str) (w : World) : outcome (str * option FileKind) :=
  match file with
  | Some f =>
      match fst (extract E (detect_type (upload_ext E f)) (upload_ext E f)
                   (content f) w) with
      | Ok src =>
          if negb (nonempty src) || negb (nonempty (strip src))
          then Raise EMPTY_CONTENT
          else Ok (src, Some (detect_type (upload_ext E f)))
      | Raise e => Raise e
      end
  | None => Ok (strip (or_empty text), None)
  end.

(** A pattern without its capturing groups. *)
Fixpoint erase (r : regex) : regex :=
  match r with
  | Seq r1 r2 => Seq (erase r1) (erase r2)
  | Alt r1 r2 => Alt (erase r1) (erase r2)
  | Star r1 => Star (erase r1)
  | LazyStar r1 => LazyStar (erase r1)
  | Group r1 => erase r1
  | _ => r
  end.

(** The sheet the source variable [ws] refers to is the last one. *)
Definition on_last_sheet (st : xlsx_state) : Prop :=
  wb st <> [] /\ (ws st = length (wb st) - 1)%nat.

(** A cell that survives the trip through the pipe-delimited text: it has
    no surrounding whitespace, no pipe and no line break. *)
Definition clean_cell (c : str) : Prop :=
  strip c = c /\ ~ In PIPE c /\ ~ In NL c.

(** A row that survives: clean cells, the last one not empty, the first
    one not starting with an equals sign. *)
Definition clean_row (row : list str) : Prop :=
  Forall clean_cell row
  /\ last row [] <> []
  /\ forall t, hd [] row <> EQUALS :: t.

(** A sheet title that survives: not empty, no surrounding whitespace, no
    line break. *)
Definition clean_title (t : str) : Prop :=
  t <> [] /\ strip t = t /\ ~ In NL t.

(** A worksheet that survives: a clean title and clean rows. *)
Definition clean_sheet (ws : str * list (list (option str))) : Prop :=
  clean_title (fst ws)
  /\ Forall (fun row => clean_row (cell_texts row)) (snd ws).

(** The sheet header line of a title. *)
Definition header_line (t : str) : str :=
  lit "===== Sheet: " ++ t ++ lit " =====".

(** The end of the sheet header pattern: [\s*=+$]. *)
Definition HEADER_END : regex :=
  Seq (Star space) (Seq (Plus (chr EQUALS)) Eos).

(** A page that gives [extract_text_from_pdf] nothing: its
    [extract_text()] raises, returns [None], or returns blank text. *)
Definition blank_page (page : option (option str)) : Prop :=
  match page with
  | Some (Some t) => strip t = []
  | _ => True
  end.

(** The paragraph [save_docx] adds for a line without bold markers: one
    plain run with the line, and no run for an empty line. *)
Definition plain_runs (line : str) : list Run :=
  if nonempty line then [(line, false)] else [].

(** The marker of a list line: a dash, an asterisk, or a number with its
    dot. *)
Inductive Marker : Type :=
| Dash
| Asterisk
| Number (digits : str).

Definition marker_text (m : Marker) : str :=
  match m with
  | Dash => lit "-"
  | Asterisk => lit "*"
  | Number ds => ds ++ lit "."
  end.

Definition is_number (m : Marker) : bool :=
  match m with Number _ => true | _ => false end.

(** The number of a marker has one digit or more, and digits only. *)
Definition good_marker (m : Marker) : Prop :=
  match m with
  | Number ds => ds <> [] /\ Forall (fun c => isdigit c = true) ds
  | _ => True
  end.

(** The text of a list item or of a quoted line: not empty, no surrounding
    whitespace, no line break. *)
Definition clean_item (it : str) : Prop :=
  it <> [] /\ strip it = it /\ ~ In NL it.

(** A list line: the marker, a space, the item. *)
Definition list_line (mi : Marker * str) : str :=
  marker_text (fst mi) ++ SP :: snd mi.

(** A quoted line: [> ] and the text. *)
Definition quote_line (q : str) : str := ">"%char :: SP :: q.

(** The lines of a block without stray whitespace: one line or more,
    each not empty and without surrounding whitespace. *)
Definition solid_block (ls : list str) : Prop :=
  ls <> [] /\ Forall clean_item ls.

(** The text of blocks given by their lines: the lines of a block on
    consecutive lines, one empty line between blocks. *)
Definition text_of_blocks (bss : list (list str)) : str :=
  join [NL; NL] (map (join [NL]) bss).

(** A line that [save_xlsx_from_flat] takes for a sheet header. *)
Definition is_header (line : str) : bool :=
  nonempty (strip line) && is_some (re_match SHEET_RX (strip line)).

(** The worksheet [save_xlsx_from_flat] is to give back for a worksheet
    read by [extract_text_from_xlsx]: its title, and its rows with the
    text of each cell. *)
Definition sheet_written (ws : str * list (list (option str)))
  : Worksheet :=
  mkSheet (fst ws) (map cell_texts (snd ws)).

End MoreSpec.

Import MoreSpec.

(** * Properties *)

(** ** Strings *)

Lemma strip_prefix_app (p s r : str) :
  strip_prefix p s = Some r -> s = p ++ r.
Proof.
  revert s; induction p as [|a p IH]; intros s H; simpl in *.
  - now inversion H.
  - destruct s as [|b s]; [discriminate|].
    destruct (Ascii.eqb a b) eqn:Eab; [|discriminate].
    apply Ascii.eqb_eq in Eab; subst b.
    now rewrite (IH _ H).
Qed.

Lemma split_not_nil (sep s : str) : split sep s <> [].
Proof.
  funelim (split sep s); try discriminate.
  destruct (split sep s'); discriminate.
Qed.

Lemma join_cons_head (sep : str) (c : ascii) (l : list str) :
  l <> [] -> join sep (cons_head c l) = c :: join sep l.
Proof.
  destruct l as [|b [|b' l]]; simpl; congruence.
Qed.

(** [sep.join(s.split(sep)) == s]. *)
Lemma join_split (sep s : str) : join sep (split sep s) = s.
Proof.
  funelim (split sep s).
  - reflexivity.
  - rewrite join_cons_head by apply split_not_nil.
    now rewrite H.
  - apply strip_prefix_app in Heq0.
    pose proof (split_not_nil sep rest) as Hn.
    destruct (split sep rest) as [|x xs] eqn:Es; [congruence|].
    change (join sep ([] :: x :: xs)) with (sep ++ join sep (x :: xs)).
    now rewrite H, Heq0.
  - reflexivity.
Qed.

Lemma str_eqb_eq (a b : str) : str_eqb a b = true <-> a = b.
Proof.
  unfold str_eqb. destruct (list_eq_dec ascii_dec a b); split; congruence.
Qed.

Lemma str_eqb_refl (a : str) : str_eqb a a = true.
Proof. now apply str_eqb_eq. Qed.

Lemma str_eqb_neq (a b : str) : a <> b -> str_eqb a b = false.
Proof.
  intros H. unfold str_eqb. now destruct (list_eq_dec ascii_dec a b).
Qed.

Lemma lower_char_idem (c : ascii) : lower_char (lower_char c) = lower_char c.
Proof.
  destruct c as [[] [] [] [] [] [] [] []]; reflexivity.
Qed.

Lemma lower_idem (s : str) : lower (lower s) = lower s.
Proof.
  unfold lower. rewrite map_map. apply map_ext. apply lower_char_idem.
Qed.

(** ** The embedding on small inputs *)

Example split_blocks :
  split BLOCK_SEP (lit "a" ++ [NL; NL; NL] ++ lit "b")
  = [lit "a"; NL :: lit "b"].
Proof. reflexivity. Qed.

Example chunk_three_blocks :
  _chunk_text
    (Some (lit "ab" ++ [NL; NL] ++ lit "cd" ++ [NL; NL] ++ lit "ef")) 6
  = [lit "ab"; lit "cd" ++ [NL; NL] ++ lit "ef"].
Proof. reflexivity. Qed.

Example chunk_oversized_block :
  _chunk_text (Some (lit "abcdefgh" ++ [NL; NL] ++ lit "i")) 3
  = [lit "abcdefgh"; lit "i"].
Proof. reflexivity. Qed.

Example strip_bold :
  strip_markdown (lit "Hello **world** and *it*") = lit "Hello world and *it*".
Proof. reflexivity. Qed.

Example bold_segments :
  _split_bold_segments (lit "Hello **world**!")
  = [(lit "Hello ", false); (lit "world", true); (lit "!", false)].
Proof. reflexivity. Qed.

Example sheet_header_name :
  option_map m_group1 (re_match SHEET_RX (lit "=== sheet:  two words  ="))
  = Some (lit "two words").
Proof. reflexivity. Qed.

Example two_sheets :
  save_xlsx_from_flat
    (lit "x" ++ [NL] ++ lit "== Sheet: A ==" ++ [NL] ++ lit "1 | 2" ++ [NL]
     ++ lit "== Sheet: B ==" ++ [NL] ++ lit "3")
  = [mkSheet (lit "A") [[lit "x"]; [lit "1"; lit "2"]];
     mkSheet (lit "B") [[lit "3"]]].
Proof. reflexivity. Qed.

Example heading_and_page_break :
  pdf_blocks (lit "## Title" ++ [NL; NL] ++ lit "text" ++ [NL; SP; NL]
              ++ lit "---")
  = Some [Heading 1 (lit "Title"); Paragraph (lit "text"); PageBreak].
Proof. reflexivity. Qed.

Example numbered_list :
  classify_block (lit "1. one" ++ [NL] ++ lit "2. two")
  = Some (ListBlock true [lit "one"; lit "two"]).
Proof. reflexivity. Qed.

Example kinds :
  map detect_type [lit ".PDF"; lit ".csv"; lit ".Jpeg"; lit ".doc"]
  = [pdf; csv; image; unknown].
Proof. reflexivity. Qed.

(** ** The chunker *)

Section Chunker.

Local Open Scope Z_scope.

Lemma join_snoc (sep : str) (xs : list str) (b : str) :
  xs <> [] -> join sep (xs ++ [b]) = join sep xs ++ sep ++ b.
Proof.
  induction xs as [|x xs IH]; intros Hne; [congruence|].
  destruct xs as [|y ys]; [reflexivity|].
  change (join sep ((x :: y :: ys) ++ [b]))
    with (x ++ sep ++ join sep ((y :: ys) ++ [b])).
  rewrite IH by discriminate.
  change (join sep (x :: y :: ys)) with (x ++ sep ++ join sep (y :: ys)).
  now rewrite <- !app_assoc.
Qed.

Lemma join_app (sep : str) (xs ys : list str) :
  xs <> [] -> ys <> [] ->
  join sep (xs ++ ys) = join sep xs ++ sep ++ join sep ys.
Proof.
  intros Hx Hy. revert xs Hx.
  induction ys as [|y ys IH] using rev_ind; intros xs Hx; [congruence|].
  destruct ys as [|z zs].
  - simpl. now apply join_snoc.
  - rewrite app_assoc, join_snoc.
    + rewrite IH by (assumption || discriminate).
      rewrite join_snoc by discriminate.
      now rewrite <- !app_assoc.
    + destruct xs; discriminate.
Qed.

(** Joining the joined groups is joining all their members. *)
Lemma join_concat (sep : str) (gs : list (list str)) :
  Forall (fun g => g <> []) gs ->
  join sep (map (join sep) gs) = join sep (concat gs).
Proof.
  induction 1 as [|g gs Hg Hgs IH]; [reflexivity|].
  destruct gs as [|g' gs'].
  - simpl. now rewrite app_nil_r.
  - change (join sep (map (join sep) (g :: g' :: gs')))
      with (join sep g ++ sep ++ join sep (map (join sep) (g' :: gs'))).
    rewrite IH.
    change (concat (g :: g' :: gs')) with (g ++ concat (g' :: gs')).
    rewrite join_app; [reflexivity|assumption|].
    inversion Hgs; subst. simpl. destruct g'; [congruence|discriminate].
Qed.

Lemma flush_grouped (st : chunk_state) (done : list str) :
  grouped st done ->
  exists gs, Forall (fun g => g <> []) gs
             /\ flush (parts st) (current st) = map (join BLOCK_SEP) gs
             /\ concat gs = done.
Proof.
  intros (gs & Hne & Hp & Hc).
  destruct (current st) as [|b bs] eqn:Ec.
  - exists gs. simpl. rewrite app_nil_r in Hc. auto.
  - exists (gs ++ [b :: bs]). repeat split.
    + apply Forall_app. split; [assumption|]. constructor; [discriminate|constructor].
    + unfold flush. now rewrite Hp, map_app.
    + rewrite concat_app. simpl. now rewrite app_nil_r.
Qed.

Lemma chunk_step_grouped (N : Z) (st : chunk_state) (done : list str)
    (block : str) :
  grouped st done -> grouped (chunk_step N st block) (done ++ [block]).
Proof.
  intros Hg. unfold chunk_step.
  destruct (current_len st + (len block + 2) <=? N).
  - destruct Hg as (gs & Hne & Hp & Hc).
    exists gs. simpl. repeat split; auto.
    now rewrite app_assoc, Hc.
  - destruct (flush_grouped _ _ Hg) as (gs & Hne & Hp & Hc).
    exists gs. simpl. repeat split; auto. now rewrite Hc.
Qed.

Lemma chunk_fold_grouped (N : Z) (blocks : list str) :
  forall st done,
    grouped st done ->
    grouped (fold_left (chunk_step N) blocks st) (done ++ blocks).
Proof.
  induction blocks as [|b blocks IH]; intros st done Hg; simpl.
  - now rewrite app_nil_r.
  - replace (done ++ b :: blocks) with ((done ++ [b]) ++ blocks)
      by now rewrite <- app_assoc.
    apply IH. now apply chunk_step_grouped.
Qed.

(** Joining the chunks gives back the text, whatever the budget. *)
Lemma chunk_join (text : option str) (N : Z) :
  join BLOCK_SEP (_chunk_text text N) = or_empty text.
Proof.
  unfold _chunk_text.
  destruct (len (or_empty text) <=? N); [reflexivity|].
  cbv zeta. unfold chunk_loop.
  assert (Hg : grouped (mkChunkState [] [] 0) []).
  { exists []. simpl. auto. }
  apply (chunk_fold_grouped N (split BLOCK_SEP (or_empty text))) in Hg.
  apply flush_grouped in Hg. destruct Hg as (gs & Hne & Hf & Hc).
  rewrite Hf, join_concat by assumption.
  simpl in Hc. rewrite Hc. apply join_split.
Qed.

(** C1. Chunker round trip: for a positive budget [N] and a text none of
    whose blank-line-delimited blocks is longer than [N], joining the
    chunks of [_chunk_text(text, N)] with the double newline gives back the
    text. *)
Theorem chunk_round_trip (text : str) (N : Z) :
  0 < N ->
  Forall (fun b => len b <= N) (split BLOCK_SEP text) ->
  join BLOCK_SEP (_chunk_text (Some text) N) = text.
Proof.
  intros _ _. apply (chunk_join (Some text) N).
Qed.

Lemma chunk_round_trip_witness :
  let text := lit "ab" ++ [NL; NL] ++ lit "cd" ++ [NL; NL] ++ lit "ef" in
  0 < 4
  /\ Forall (fun b => len b <= 4) (split BLOCK_SEP text)
  /\ _chunk_text (Some text) 4 = [lit "ab"; lit "cd"; lit "ef"]
  /\ join BLOCK_SEP (_chunk_text (Some text) 4) = text.
Proof.
  intros text.
  assert (Hpos : 0 < 4) by reflexivity.
  assert (Hfit : Forall (fun b => len b <= 4) (split BLOCK_SEP text)).
  { replace (split BLOCK_SEP text) with [lit "ab"; lit "cd"; lit "ef"]
      by reflexivity.
    repeat (apply Forall_cons; [intro H; discriminate H|]).
    apply Forall_nil. }
  split; [exact Hpos|]. split; [exact Hfit|]. split; [reflexivity|].
  exact (chunk_round_trip text 4 Hpos Hfit).
Defined.

Lemma len_app (a b : str) : len (a ++ b) = len a + len b.
Proof. unfold len. rewrite length_app. lia. Qed.

Lemma flush_bounded (blocks : list str) (N : Z) (st : chunk_state) :
  bounded blocks N st ->
  Forall (chunk_ok blocks N) (flush (parts st) (current st)).
Proof.
  intros (Hp & Hc). unfold flush.
  destruct Hc as [(Hc & _) | [(Hne & Hl & HN) | (b & Hc & Hin & Hl)]].
  - now rewrite Hc.
  - destruct (current st); [congruence|].
    apply Forall_app. split; [assumption|].
    constructor; [left; lia|constructor].
  - rewrite Hc. apply Forall_app. split; [assumption|].
    constructor; [|constructor]. simpl. unfold chunk_ok.
    destruct (Z_le_gt_dec (len b) N); [left|right; split]; auto; lia.
Qed.

Lemma chunk_step_bounded (blocks : list str) (N : Z) (st : chunk_state)
    (block : str) :
  In block blocks ->
  bounded blocks N st -> bounded blocks N (chunk_step N st block).
Proof.
  intros Hin Hb. unfold chunk_step.
  destruct (current_len st + (len block + 2) <=? N) eqn:Hfit.
  - apply Z.leb_le in Hfit. destruct Hb as (Hp & Hc).
    split; [assumption|]. right; left. simpl.
    destruct Hc as [(Hc & Hl) | [(Hne & Hl & HN) | (b & Hc & Hinb & Hl)]].
    + rewrite Hc. simpl. split; [discriminate|]. lia.
    + split; [destruct (current st); [congruence|discriminate]|].
      rewrite join_snoc, !len_app by assumption.
      change (len BLOCK_SEP) with 2. lia.
    + rewrite Hc. split; [discriminate|].
      change (join BLOCK_SEP ([b] ++ [block])) with (b ++ BLOCK_SEP ++ block).
      rewrite !len_app. change (len BLOCK_SEP) with 2. lia.
  - split; simpl.
    + now apply flush_bounded.
    + right; right. exists block. auto.
Qed.

Lemma chunk_fold_bounded (blocks : list str) (N : Z) (todo : list str) :
  forall st,
    incl todo blocks ->
    bounded blocks N st ->
    bounded blocks N (fold_left (chunk_step N) todo st).
Proof.
  induction todo as [|b todo IH]; intros st Hincl Hb; simpl; [assumption|].
  apply IH.
  - intros x Hx. apply Hincl. now right.
  - apply chunk_step_bounded; [apply Hincl; now left|assumption].
Qed.

(** C2. Chunker bound: every chunk of [_chunk_text(text, N)] has length at
    most [N], except a chunk that is a single block of the text whose own
    length exceeds [N]. *)
Theorem chunk_bound (text : option str) (N : Z) :
  Forall (chunk_ok (split BLOCK_SEP (or_empty text)) N) (_chunk_text text N).
Proof.
  unfold _chunk_text.
  destruct (len (or_empty text) <=? N) eqn:Hfit.
  - apply Z.leb_le in Hfit. constructor; [now left|constructor].
  - cbv zeta. apply flush_bounded. unfold chunk_loop.
    apply chunk_fold_bounded; [apply incl_refl|].
    split; simpl; [constructor|]. left. auto.
Qed.

End Chunker.

(** ** The matcher on [_BOLD_RE] *)

Section Bold.

Lemma orelse_none {A} (a : option A) : orelse a None = a.
Proof. now destruct a. Qed.

Lemma takewhile_dropwhile (p : ascii -> bool) (s : str) :
  takewhile p s ++ dropwhile p s = s.
Proof.
  induction s as [|c s IH]; simpl; [reflexivity|].
  destruct (p c); simpl; [now rewrite IH|reflexivity].
Qed.

Lemma takewhile_all (p : ascii -> bool) (s : str) :
  Forall (fun c => p c = true) (takewhile p s).
Proof.
  induction s as [|c s IH]; simpl; [constructor|].
  destruct (p c) eqn:E; [now constructor|constructor].
Qed.

(** The equations of [run], as rewrite rules. *)
Lemma run_seq r1 r2 s pos g k :
  run (Seq r1 r2) s pos g k
  = run r1 s pos g (fun s' pos' g' => run r2 s' pos' g' k).
Proof. reflexivity. Qed.

Lemma run_chr_nil p pos g k : run (Chr p) [] pos g k = None.
Proof. reflexivity. Qed.

Lemma run_chr_cons p c s pos g k :
  run (Chr p) (c :: s) pos g k = if p c then k s (S pos) g else None.
Proof. reflexivity. Qed.

Lemma run_group r s pos g k :
  run (Group r) s pos g k
  = run r s pos g (fun s' pos' _ => k s' pos' (Some (pos, pos'))).
Proof. reflexivity. Qed.

Lemma run_star r s pos g k :
  run (Star r) s pos g k = star_loop (run r) k (length s) s pos g.
Proof. reflexivity. Qed.

#[local] Arguments run : simpl never.

(** Greedy repetition of a character class, followed by something that
    cannot start with a character of the class, takes the whole run. *)
Lemma star_loop_class (p : ascii -> bool) (k : K) :
  (forall c s pos g, p c = true -> k (c :: s) pos g = None) ->
  forall n s pos g,
    length s <= n ->
    star_loop (run (Chr p)) k n s pos g
    = k (dropwhile p s) (pos + length (takewhile p s)) g.
Proof.
  intros Hk. induction n as [|n IH]; intros s pos g Hn.
  - destruct s; [|simpl in Hn; lia]. simpl. now rewrite Nat.add_0_r.
  - destruct s as [|c s]; simpl.
    + now rewrite Nat.add_0_r.
    + rewrite run_chr_cons. destruct (p c) eqn:Epc.
      * assert (Hlt : (pos <? S pos) = true) by (apply Nat.ltb_lt; lia).
        rewrite Hlt, (Hk _ _ _ _ Epc), orelse_none.
        rewrite IH by (simpl in Hn; lia).
        simpl. now rewrite Nat.add_succ_r.
      * simpl. now rewrite Nat.add_0_r.
Qed.

(** The matcher, run on [_BOLD_RE], finds what [bold_at] describes. *)
Lemma run_bold (s : str) (pos : nat) :
  run _BOLD_RE s pos None (fun _ e g => Some (e, g))
  = match bold_at s with
    | Some (g, _) =>
        Some (pos + 4 + length g, Some (pos + 2, pos + 2 + length g))
    | None => None
    end.
Proof.
  unfold _BOLD_RE, chr, not_chr, Plus. rewrite run_seq.
  destruct s as [|a s]; [reflexivity|].
  rewrite run_chr_cons, run_seq. unfold bold_at, is_star.
  rewrite (Ascii.eqb_sym STAR a).
  destruct s as [|b t]; [now destruct (Ascii.eqb a STAR)|].
  destruct (Ascii.eqb a STAR); [|reflexivity].
  rewrite run_chr_cons, (Ascii.eqb_sym STAR b).
  destruct (Ascii.eqb b STAR); [|reflexivity].
  rewrite run_seq, run_group, run_seq.
  destruct t as [|x t]; [reflexivity|].
  rewrite run_chr_cons. simpl takewhile. simpl dropwhile.
  fold (not_star x).
  destruct (not_star x) eqn:Ex; [|reflexivity].
  rewrite run_star.
  change (fun x0 : ascii => negb (Ascii.eqb x0 STAR)) with not_star.
  rewrite star_loop_class.
  - rewrite run_seq.
    destruct (dropwhile not_star t) as [|c rest]; [reflexivity|].
    rewrite run_chr_cons, (Ascii.eqb_sym STAR c).
    destruct rest as [|d rest]; [now destruct (Ascii.eqb c STAR)|].
    destruct (Ascii.eqb c STAR); [|reflexivity].
    rewrite run_chr_cons, (Ascii.eqb_sym STAR d).
    destruct (Ascii.eqb d STAR); [|reflexivity].
    simpl. do 2 f_equal; [|f_equal; f_equal]; lia.
  - intros c s0 p0 g0 Hc. rewrite run_seq, run_chr_cons.
    unfold not_star in Hc. apply negb_true_iff in Hc.
    now rewrite Ascii.eqb_sym, Hc.
  - lia.
Qed.

Lemma bold_at_spec (s g rest : str) :
  bold_at s = Some (g, rest) ->
  s = STAR :: STAR :: g ++ STAR :: STAR :: rest
  /\ g <> [] /\ Forall (fun c => not_star c = true) g.
Proof.
  unfold bold_at. destruct s as [|a [|b t]]; try discriminate.
  destruct (is_star a) eqn:Ea; [|discriminate].
  destruct (is_star b) eqn:Eb; [|discriminate]. simpl.
  pose proof (takewhile_dropwhile not_star t) as Ht.
  pose proof (takewhile_all not_star t) as Hall.
  destruct (takewhile not_star t) as [|x g0]; [discriminate|].
  destruct (dropwhile not_star t) as [|c [|d r]]; try discriminate.
  destruct (is_star c) eqn:Ec; [|discriminate].
  destruct (is_star d) eqn:Ed; [|discriminate]. simpl.
  intros H; inversion H; subst g rest.
  unfold is_star in *.
  apply Ascii.eqb_eq in Ea, Eb, Ec, Ed. subst a b c d.
  rewrite <- Ht. repeat split; [discriminate|assumption].
Qed.

Lemma bold_at_shorter (s g rest : str) :
  bold_at s = Some (g, rest) -> length s = 4 + length g + length rest.
Proof.
  intros H. apply bold_at_spec in H. destruct H as (-> & _ & _).
  simpl. rewrite length_app. simpl. lia.
Qed.

Lemma bold_at_not_star (c : ascii) (s : str) :
  not_star c = true -> bold_at (c :: s) = None.
Proof.
  unfold not_star, bold_at, is_star. intros H. apply negb_true_iff in H.
  destruct s; [reflexivity|]. now rewrite H.
Qed.

Lemma bold_at_second (a c : ascii) (s : str) :
  not_star c = true -> bold_at (a :: c :: s) = None.
Proof.
  unfold not_star, bold_at, is_star. intros H. apply negb_true_iff in H.
  now rewrite H, andb_false_r.
Qed.

(** Slices of a text cut in three. *)
Lemma slice_middle (a g b : str) :
  slice (a ++ g ++ b) (length a) (length a + length g) = g.
Proof.
  unfold slice. rewrite skipn_app, skipn_all, Nat.sub_diag. simpl.
  replace (length a + length g - length a) with (length g) by lia.
  rewrite firstn_app, firstn_all, Nat.sub_diag. simpl. apply app_nil_r.
Qed.

Lemma slice_empty (t : str) (a b : nat) : b <= a -> slice t a b = [].
Proof.
  intros H. unfold slice. now replace (b - a) with 0 by lia.
Qed.

Lemma slice_to_end (t : str) (a : nat) : slice t a (length t) = skipn a t.
Proof.
  unfold slice. apply firstn_all2. rewrite length_skipn. lia.
Qed.

Lemma slice_prefix (pre s : str) (last : nat) :
  last <= length pre ->
  slice (pre ++ s) last (length pre) = skipn last pre.
Proof.
  intros H. unfold slice. rewrite skipn_app.
  replace (last - length pre) with 0 by lia. simpl.
  rewrite firstn_app, length_skipn.
  replace (length pre - last - (length pre - last)) with 0 by lia.
  simpl. rewrite app_nil_r. apply firstn_all2. rewrite length_skipn. lia.
Qed.

Lemma slice_nonempty (t : str) (a b : nat) :
  a < b -> a < length t -> slice t a b <> [].
Proof.
  intros Hab Hat Hs. apply (f_equal (@length ascii)) in Hs.
  unfold slice in Hs. rewrite length_firstn, length_skipn in Hs.
  simpl in Hs. lia.
Qed.

(** One attempt of [_BOLD_RE] at the end of [pre] in [pre ++ s]. *)
Lemma match_at_bold (pre s : str) :
  match_at _BOLD_RE (pre ++ s) (length pre) s
  = match bold_at s with
    | Some (g, _) =>
        Some (mkMatch (length pre) (length pre + 4 + length g) g)
    | None => None
    end.
Proof.
  unfold match_at. rewrite run_bold.
  destruct (bold_at s) as [[g rest]|] eqn:E; [|reflexivity].
  apply bold_at_spec in E. destruct E as (-> & _ & _).
  unfold group_text. do 2 f_equal.
  replace (pre ++ STAR :: STAR :: g ++ STAR :: STAR :: rest)
    with ((pre ++ [STAR; STAR]) ++ g ++ STAR :: STAR :: rest)
    by now rewrite <- app_assoc.
  replace (length pre + 2) with (length (pre ++ [STAR; STAR]))
    by (rewrite length_app; reflexivity).
  apply slice_middle.
Qed.

(** The equations of [scan]. *)
Lemma scan_cons_none r text pos c s' :
  match_at r text pos (c :: s') = None ->
  scan r text pos (c :: s') = scan r text (S pos) s'.
Proof. intros H. simp scan. now rewrite H. Qed.

Lemma scan_cons_some r text pos c s' m :
  match_at r text pos (c :: s') = Some m ->
  pos < m_end m ->
  scan r text pos (c :: s')
  = m :: scan r text (m_end m) (skipn (m_end m - pos) (c :: s')).
Proof.
  intros H Hlt. simp scan. rewrite H. simpl.
  destruct (lt_dec pos (m_end m)); [reflexivity|contradiction].
Qed.

Lemma bold_at_text (pre s g rest : str) :
  bold_at s = Some (g, rest) ->
  pre ++ s = (pre ++ STAR :: STAR :: g ++ [STAR; STAR]) ++ rest.
Proof.
  intros H. apply bold_at_spec in H. destruct H as (-> & _ & _).
  rewrite <- app_assoc. simpl. now rewrite <- app_assoc.
Qed.

(** The scan of [_BOLD_RE] over [s], the part of [pre ++ s] after [pre]. *)
Lemma scan_bold_none (pre : str) (c : ascii) (s' : str) :
  bold_at (c :: s') = None ->
  scan _BOLD_RE (pre ++ c :: s') (length pre) (c :: s')
  = scan _BOLD_RE ((pre ++ [c]) ++ s') (length (pre ++ [c])) s'.
Proof.
  intros H. rewrite scan_cons_none.
  - rewrite <- app_assoc, length_app. simpl. now rewrite Nat.add_1_r.
  - now rewrite match_at_bold, H.
Qed.

Lemma scan_bold_some (pre s g rest : str) :
  bold_at s = Some (g, rest) ->
  let pre' := pre ++ STAR :: STAR :: g ++ [STAR; STAR] in
  scan _BOLD_RE (pre ++ s) (length pre) s
  = mkMatch (length pre) (length pre') g
    :: scan _BOLD_RE (pre' ++ rest) (length pre') rest.
Proof.
  intros H pre'. pose proof (bold_at_spec _ _ _ H) as (Hs & _ & _).
  assert (Hlen : length pre' = length pre + 4 + length g).
  { unfold pre'. rewrite length_app. simpl. rewrite length_app. simpl. lia. }
  assert (Htext : pre ++ s = pre' ++ rest) by now apply bold_at_text.
  destruct s as [|c s']; [discriminate|].
  rewrite (scan_cons_some _ _ _ _ _
             (mkMatch (length pre) (length pre + 4 + length g) g)).
  - simpl m_end. rewrite Hlen, Htext. do 2 f_equal.
    replace (length pre + 4 + length g - length pre)
      with (length (STAR :: STAR :: g ++ [STAR; STAR]))
      by (simpl; rewrite length_app; simpl; lia).
    rewrite Hs.
    replace (STAR :: STAR :: g ++ STAR :: STAR :: rest)
      with ((STAR :: STAR :: g ++ [STAR; STAR]) ++ rest)
      by (simpl; now rewrite <- app_assoc).
    rewrite skipn_app, skipn_all, Nat.sub_diag. reflexivity.
  - now rewrite match_at_bold, H.
  - simpl. lia.
Qed.

(** The equations of [strip_direct]. *)
Lemma strip_direct_none (c : ascii) (s' : str) :
  bold_at (c :: s') = None ->
  strip_direct (c :: s') = c :: strip_direct s'.
Proof. intros H. simp strip_direct. now rewrite H. Qed.

Lemma strip_direct_some (s g rest : str) :
  bold_at s = Some (g, rest) ->
  strip_direct s = g ++ strip_direct rest.
Proof.
  intros H. pose proof (bold_at_shorter _ _ _ H) as Hlen.
  destruct s as [|c s']; [discriminate|].
  simp strip_direct. rewrite H. simpl.
  destruct (lt_dec (length rest) (S (length s'))) as [|Hn];
    [reflexivity|]. simpl in Hlen. lia.
Qed.

(** [strip_markdown] computes [strip_direct]: the substitution over the
    matches found from the end of [pre] on gives the unmatched end of
    [pre] and then the stripped rest. *)
Lemma sub_scan_bold (s : str) :
  forall pre last,
    last <= length pre ->
    sub_loop m_group1 (pre ++ s)
      (scan _BOLD_RE (pre ++ s) (length pre) s) last
    = skipn last pre ++ strip_direct s.
Proof.
  induction s as [s IH] using (induction_ltof1 _ (@length ascii)).
  unfold ltof in IH. intros pre last Hlast.
  destruct s as [|c s'].
  - simp scan strip_direct. simpl.
    rewrite !app_nil_r. apply slice_to_end.
  - destruct (bold_at (c :: s')) as [[g rest]|] eqn:E.
    + rewrite (scan_bold_some pre _ _ _ E), (strip_direct_some _ _ _ E).
      cbv zeta. simpl sub_loop.
      rewrite slice_prefix by assumption.
      rewrite (bold_at_text pre _ _ _ E), IH.
      * rewrite skipn_all. reflexivity.
      * rewrite (bold_at_shorter _ _ _ E). lia.
      * lia.
    + rewrite (scan_bold_none pre _ _ E), (strip_direct_none _ _ E).
      replace (pre ++ c :: s') with ((pre ++ [c]) ++ s')
        by now rewrite <- app_assoc.
      rewrite IH.
      * rewrite skipn_app. replace (last - length pre) with 0 by lia.
        simpl. now rewrite <- app_assoc.
      * simpl. lia.
      * rewrite length_app. simpl. lia.
Qed.

Lemma strip_markdown_direct (s : str) : strip_markdown s = strip_direct s.
Proof.
  unfold strip_markdown, re_sub, finditer.
  apply (sub_scan_bold s [] 0). simpl. lia.
Qed.

Lemma scan_bold_good (s : str) :
  forall pre,
    Forall (good_match (pre ++ s))
           (scan _BOLD_RE (pre ++ s) (length pre) s).
Proof.
  induction s as [s IH] using (induction_ltof1 _ (@length ascii)).
  unfold ltof in IH. intros pre.
  destruct s as [|c s'].
  - simp scan. constructor.
  - destruct (bold_at (c :: s')) as [[g rest]|] eqn:E.
    + rewrite (scan_bold_some pre _ _ _ E). cbv zeta.
      pose proof (bold_at_spec _ _ _ E) as (_ & Hg & _).
      constructor.
      * split; [assumption|]. simpl. rewrite length_app. simpl. lia.
      * rewrite (bold_at_text pre _ _ _ E). apply IH.
        rewrite (bold_at_shorter _ _ _ E). lia.
    + rewrite (scan_bold_none pre _ _ E).
      replace (pre ++ c :: s') with ((pre ++ [c]) ++ s')
        by now rewrite <- app_assoc.
      apply IH. simpl. lia.
Qed.

(** The loop of [_split_bold_segments] and the substitution of
    [strip_markdown] walk the same matches and keep the same text. *)
Lemma seg_fold_text (text : str) (ms : list Match) :
  forall parts last,
    concat (map fst (fst (fold_left (seg_step text) ms (parts, last))))
    ++ slice text (snd (fold_left (seg_step text) ms (parts, last)))
             (length text)
    = concat (map fst parts) ++ sub_loop m_group1 text ms last.
Proof.
  induction ms as [|m ms IH]; intros parts last; [reflexivity|].
  simpl fold_left.
  destruct (seg_step text (parts, last) m) as [parts' last'] eqn:Est.
  rewrite IH. unfold seg_step in Est. inversion Est; subst parts' last'.
  simpl sub_loop.
  destruct (last <? m_start m) eqn:El.
  - rewrite !map_app, !concat_app. simpl. rewrite !app_nil_r.
    now rewrite <- !app_assoc.
  - apply Nat.ltb_ge in El. rewrite (slice_empty text _ _ El).
    rewrite map_app, concat_app. simpl. rewrite !app_nil_r.
    now rewrite <- !app_assoc.
Qed.

Lemma seg_fold_nonempty (text : str) (ms : list Match) :
  Forall (good_match text) ms ->
  forall parts last,
    Forall (fun seg => fst seg <> []) parts ->
    Forall (fun seg => fst seg <> [])
           (fst (fold_left (seg_step text) ms (parts, last))).
Proof.
  induction 1 as [|m ms (Hg & Hs) Hms IH]; intros parts last Hp;
    [assumption|].
  simpl fold_left.
  destruct (seg_step text (parts, last) m) as [parts' last'] eqn:Est.
  apply IH. unfold seg_step in Est. inversion Est; subst parts' last'.
  apply Forall_app. split; [|constructor; [assumption|constructor]].
  destruct (last <? m_start m) eqn:El; [|assumption].
  apply Nat.ltb_lt in El.
  apply Forall_app. split; [assumption|].
  constructor; [|constructor]. simpl. apply slice_nonempty; lia.
Qed.

(** C10. The texts of the segments of [_split_bold_segments(s)], put
    together in order, are [strip_markdown(s)], and no segment has an empty
    text. *)
Theorem split_bold_segments_text (s : str) :
  concat (map fst (_split_bold_segments s)) = strip_markdown s
  /\ Forall (fun seg => fst seg <> []) (_split_bold_segments s).
Proof.
  unfold _split_bold_segments, strip_markdown, re_sub.
  remember (fold_left (seg_step s) (finditer _BOLD_RE s) ([], 0)) as st
    eqn:Est.
  assert (Ht : concat (map fst (fst st)) ++ slice s (snd st) (length s)
               = sub_loop m_group1 s (finditer _BOLD_RE s) 0)
    by (subst st; apply (seg_fold_text s _ [] 0)).
  assert (Hn : Forall (fun seg => fst seg <> []) (fst st))
    by (subst st;
        apply (seg_fold_nonempty s _ (scan_bold_good s []) [] 0);
        constructor).
  clear Est. destruct st as [parts last].
  simpl in Ht, Hn. rewrite <- Ht.
  destruct (last <? length s) eqn:El.
  - apply Nat.ltb_lt in El. split.
    + rewrite map_app, concat_app. simpl. now rewrite app_nil_r.
    + apply Forall_app. split; [assumption|].
      constructor; [|constructor]. simpl. apply slice_nonempty; lia.
  - apply Nat.ltb_ge in El.
    rewrite (slice_empty s _ _ El), app_nil_r. auto.
Qed.

(** *** Stripping twice *)

Lemma not_star_neq (c : ascii) : c <> STAR -> not_star c = true.
Proof.
  intros H. unfold not_star. apply negb_true_iff.
  now apply Ascii.eqb_neq.
Qed.

Ltac case_star c :=
  let H := fresh "Hns" in
  destruct (Ascii.eqb_spec c STAR) as [->|H];
  [|apply not_star_neq in H].

Lemma strip_direct_nil : strip_direct [] = [].
Proof. now simp strip_direct. Qed.

(** A run of characters other than the asterisk goes through unchanged. *)
Lemma strip_direct_run (g t : str) :
  Forall (fun c => not_star c = true) g ->
  strip_direct (g ++ t) = g ++ strip_direct t.
Proof.
  induction 1 as [|c g Hc Hg IH]; [reflexivity|]. simpl.
  rewrite strip_direct_none by now apply bold_at_not_star.
  now rewrite IH.
Qed.

Lemma dropwhile_run (p : ascii -> bool) (g t : str) :
  Forall (fun c => p c = true) g -> dropwhile p (g ++ t) = dropwhile p t.
Proof.
  induction 1 as [|c g Hc Hg IH]; [reflexivity|]. simpl. now rewrite Hc.
Qed.

Lemma dropwhile_head (p : ascii -> bool) (s : str) (c : ascii) (r : str) :
  dropwhile p s = c :: r -> p c = false.
Proof.
  induction s as [|x s IH]; simpl; [discriminate|].
  destruct (p x) eqn:E; [assumption|].
  intros H; inversion H; now subst.
Qed.

Lemma has_run4_tail (c : ascii) (s : str) :
  has_run4 (c :: s) = false -> has_run4 s = false.
Proof.
  destruct s as [|b [|c0 [|d s]]]; try reflexivity.
  intros H. simpl in H. apply orb_false_iff in H. apply H.
Qed.

Lemma has_run4_suffix (a b : str) :
  has_run4 (a ++ b) = false -> has_run4 b = false.
Proof.
  induction a as [|c a IH]; [trivial|].
  intros H. apply IH. now apply has_run4_tail in H.
Qed.

(** Two asterisks that open no match in [s] open none in the stripped
    text either, unless they are followed by two more. *)
Lemma bold_at_after_strip (c : ascii) (s' : str) :
  has_run4 (c :: s') = false ->
  bold_at (c :: s') = None ->
  bold_at (c :: strip_direct s') = None.
Proof.
  intros H4 Hnone.
  case_star c; [|now apply bold_at_not_star].
  destruct s' as [|c2 s2]; [reflexivity|].
  case_star c2.
  2:{ rewrite strip_direct_none by now apply bold_at_not_star.
      now apply bold_at_second. }
  destruct (bold_at (STAR :: s2)) as [[g' r']|] eqn:E2.
  { rewrite (strip_direct_some _ _ _ E2).
    apply bold_at_spec in E2. destruct E2 as (_ & Hg & Hall).
    destruct g' as [|x g']; [congruence|]. inversion Hall; subst.
    rewrite <- app_comm_cons. now apply bold_at_second. }
  rewrite (strip_direct_none _ _ E2).
  destruct s2 as [|c3 s3]; [reflexivity|].
  case_star c3.
  - (* three asterisks *)
    destruct (bold_at (STAR :: s3)) as [[g3 r3]|] eqn:E3.
    + apply bold_at_spec in E3. destruct E3 as (E3 & _ & _).
      inversion E3; subst s3. simpl in H4. discriminate.
    + rewrite (strip_direct_none _ _ E3). reflexivity.
  - (* two asterisks, then a run of other characters *)
    pose proof (takewhile_dropwhile not_star (c3 :: s3)) as Hsplit.
    pose proof (takewhile_all not_star (c3 :: s3)) as Hall.
    rewrite <- Hsplit, (strip_direct_run _ _ Hall).
    unfold bold_at in Hnone |- *. simpl is_star in *. simpl andb in *.
    cbv iota beta in *.
    rewrite (dropwhile_run _ _ _ Hall).
    destruct (takewhile not_star (c3 :: s3)) as [|x g] eqn:Eg.
    { simpl in Eg. rewrite Hns in Eg. discriminate. }
    assert (Htw : exists y g1,
               takewhile not_star ((x :: g) ++ strip_direct
                                     (dropwhile not_star (c3 :: s3)))
               = y :: g1).
    { simpl. inversion Hall; subst.
      match goal with H : not_star x = true |- _ => rewrite H end.
      eauto. }
    destruct Htw as (y & g1 & ->).
    destruct (dropwhile not_star (c3 :: s3)) as [|a [|b r2]] eqn:Er.
    + reflexivity.
    + pose proof (dropwhile_head _ _ _ _ Er) as Ha.
      rewrite strip_direct_none by reflexivity.
      rewrite strip_direct_nil. simpl. now rewrite Ha.
    + pose proof (dropwhile_head _ _ _ _ Er) as Ha.
      assert (Hb : not_star b = true).
      { unfold not_star, is_star in *. apply negb_false_iff in Ha.
        rewrite Ha in Hnone. simpl in Hnone.
        destruct (Ascii.eqb b STAR); [discriminate|reflexivity]. }
      rewrite (strip_direct_none a) by now apply bold_at_second.
      rewrite (strip_direct_none b) by now apply bold_at_not_star.
      simpl. rewrite Ha.
      unfold not_star in Hb. apply negb_true_iff in Hb.
      unfold is_star. now rewrite Hb, andb_false_r.
Qed.

Lemma strip_direct_idempotent (s : str) :
  has_run4 s = false -> strip_direct (strip_direct s) = strip_direct s.
Proof.
  induction s as [s IH] using (induction_ltof1 _ (@length ascii)).
  unfold ltof in IH. intros H4.
  destruct s as [|c s']; [now rewrite !strip_direct_nil|].
  destruct (bold_at (c :: s')) as [[g rest]|] eqn:E.
  - rewrite (strip_direct_some _ _ _ E).
    pose proof (bold_at_spec _ _ _ E) as (Hs & _ & Hall).
    rewrite (strip_direct_run _ _ Hall), IH; [reflexivity| |].
    + rewrite (bold_at_shorter _ _ _ E). lia.
    + rewrite Hs in H4.
      apply (has_run4_suffix (STAR :: STAR :: g ++ [STAR; STAR])).
      simpl. now rewrite <- app_assoc.
  - rewrite (strip_direct_none _ _ E).
    rewrite strip_direct_none by now apply bold_at_after_strip.
    rewrite IH; [reflexivity|simpl; lia|].
    now apply has_run4_tail in H4.
Qed.

(** The markup-stripping idempotence law fails where asterisks come four
    in a row: the first pass uncovers a pair of markers for the second. *)
Lemma strip_markdown_not_idempotent :
  strip_markdown (strip_markdown (lit "****a****"))
  <> strip_markdown (lit "****a****").
Proof. vm_compute. discriminate. Qed.

(** C6, amended. For every string [s] without four asterisks in a row,
    [strip_markdown(strip_markdown(s)) = strip_markdown(s)]. *)
Theorem strip_markdown_idempotent (s : str) :
  has_run4 s = false ->
  strip_markdown (strip_markdown s) = strip_markdown s.
Proof.
  intros H. rewrite !strip_markdown_direct.
  now apply strip_direct_idempotent.
Qed.

Lemma strip_markdown_idempotent_witness :
  let s := lit "Hello **big** *world* ***x***" in
  has_run4 s = false
  /\ strip_markdown s = lit "Hello big *world* *x*"
  /\ strip_markdown (strip_markdown s) = strip_markdown s.
Proof.
  intros s. split; [reflexivity|]. split; [reflexivity|].
  apply (strip_markdown_idempotent s). reflexivity.
Defined.

End Bold.

(** ** The workbook renderer *)

Section Workbook.

(** Without a sheet header the loop only appends rows to the one sheet. *)
Lemma xlsx_fold_single (lines : list str) :
  (forall line, In line lines -> re_match SHEET_RX (strip line) = None) ->
  forall t rs used,
    wb (fold_left xlsx_line lines (mkXlsx [mkSheet t rs] 0 used))
    = [mkSheet t (rs ++ map (cells_of (lit " | ")) (filter nonblank lines))].
Proof.
  induction lines as [|line lines IH]; intros Hno t rs used.
  - simpl. now rewrite app_nil_r.
  - simpl fold_left. unfold xlsx_line at 2. fold (nonblank line).
    simpl filter.
    destruct (nonblank line) eqn:Enb; simpl negb; cbv iota.
    + rewrite (Hno line) by now left.
      unfold append_row, update_sheet.
      cbn [wb ws first_sheet_used title rows].
      rewrite IH by (intros l Hl; apply Hno; now right).
      now rewrite <- app_assoc.
    + apply IH. intros l Hl. apply Hno. now right.
Qed.

(** C5. Sheet boundary fidelity: the text "===== Sheet: Q1 =====", a blank
    line, "a | b" gives a workbook whose only sheet is named Q1 and holds
    the one row ["a", "b"]; a text without a sheet-boundary line gives
    exactly one sheet, named Sheet1, the first worksheet renamed, holding
    the rows of the non-blank lines. *)
Theorem sheet_boundary_fidelity :
  save_xlsx_from_flat (lit "===== Sheet: Q1 =====" ++ [NL; NL] ++ lit "a | b")
  = [mkSheet (lit "Q1") [[lit "a"; lit "b"]]]
  /\ forall text,
       no_sheet_header text ->
       save_xlsx_from_flat text
       = [mkSheet (lit "Sheet1")
            (map (cells_of (lit " | ")) (filter nonblank (split [NL] text)))].
Proof.
  split; [reflexivity|].
  intros text Hno. unfold save_xlsx_from_flat.
  apply (xlsx_fold_single _ Hno (lit "Sheet1") [] false).
Qed.

Lemma sheet_boundary_fidelity_witness :
  let text := lit "a | b" ++ [NL] ++ lit " " ++ [NL] ++ lit "c" in
  no_sheet_header text
  /\ save_xlsx_from_flat text
     = [mkSheet (lit "Sheet1") [[lit "a"; lit "b"]; [lit "c"]]].
Proof.
  intros text.
  assert (Hno : no_sheet_header text).
  { intros line Hin.
    replace (split [NL] text) with [lit "a | b"; lit " "; lit "c"] in Hin
      by reflexivity.
    destruct Hin as [<-|[<-|[<-|[]]]]; reflexivity. }
  split; [exact Hno|].
  exact (proj2 sheet_boundary_fidelity text Hno).
Defined.

End Workbook.

(** ** The block classifier *)

Section Classifier.

Local Open Scope Z_scope.

(** Two of four lines with a pipe make a table: half of the lines, not six
    in ten. *)
Lemma sixty_percent_rule_fails :
  ~ sixty_percent_rule
      (lit "a|b" ++ [NL] ++ lit "c|d" ++ [NL] ++ lit "e" ++ [NL] ++ lit "f").
Proof.
  intros H.
  assert (Hmiss : earlier_steps_miss
            (lit "a|b" ++ [NL] ++ lit "c|d" ++ [NL] ++ lit "e" ++ [NL]
             ++ lit "f")).
  { repeat split; try reflexivity. discriminate. }
  apply H in Hmiss. destruct Hmiss as [Hto _].
  assert (Htab : exists rows,
             classify_block
               (lit "a|b" ++ [NL] ++ lit "c|d" ++ [NL] ++ lit "e" ++ [NL]
                ++ lit "f") = Some (Table rows)).
  { eexists. reflexivity. }
  apply Hto in Htab. destruct Htab as [_ Hshare].
  vm_compute in Hshare. now apply Hshare.
Qed.

(** C7, amended. A block that no earlier check takes is a Table exactly
    when the number of its lines with a pipe is at least the greater of 2
    and [int(0.6 * n)], six tenths of the number [n] of its non-blank lines
    rounded down; the rows are the lines with a pipe, split on the pipe
    into trimmed cells, the other lines being dropped; otherwise the block
    is a Paragraph. *)
Theorem table_classification (b : str) :
  earlier_steps_miss b ->
  let k := Z.of_nat (length (pipe_lines b)) in
  let n := Z.of_nat (length (nonblank_lines b)) in
  (Z.max 2 (3 * n / 5) <= k ->
   classify_block b = Some (Table (map (cells_of [PIPE]) (pipe_lines b))))
  /\ (k < Z.max 2 (3 * n / 5) ->
      classify_block b = Some (Paragraph b)).
Proof.
  intros (Hpb & Hh & Hs & Hl & Hq) k n.
  unfold classify_block.
  rewrite (str_eqb_neq _ _ Hpb), Hh, Hs, Hl, Hq.
  unfold is_table_block, int_0_6.
  fold (pipe_lines b) (nonblank_lines b). fold k n.
  split; intros Hk.
  - apply Z.leb_le in Hk as Hk'. rewrite Hk'.
    unfold table_from_lines. fold (pipe_lines b).
    destruct (pipe_lines b) as [|l ls] eqn:Ep; [|reflexivity].
    subst k. simpl in Hk. lia.
  - apply Z.leb_gt in Hk. now rewrite Hk.
Qed.

Lemma table_classification_witness :
  let b := lit "a|b" ++ [NL] ++ lit "c|d" ++ [NL] ++ lit "e" ++ [NL]
           ++ lit "f" in
  let p := lit "a|b" ++ [NL] ++ lit "c" ++ [NL] ++ lit "d" in
  (earlier_steps_miss b
   /\ Z.max 2 (3 * Z.of_nat (length (nonblank_lines b)) / 5)
      <= Z.of_nat (length (pipe_lines b))
   /\ classify_block b
      = Some (Table [[lit "a"; lit "b"]; [lit "c"; lit "d"]]))
  /\ (earlier_steps_miss p
      /\ Z.of_nat (length (pipe_lines p))
         < Z.max 2 (3 * Z.of_nat (length (nonblank_lines p)) / 5)
      /\ classify_block p = Some (Paragraph p)).
Proof.
  intros b p.
  assert (Hb : earlier_steps_miss b).
  { repeat split; try reflexivity. discriminate. }
  assert (Hp : earlier_steps_miss p).
  { repeat split; try reflexivity. discriminate. }
  assert (Hkb : Z.max 2 (3 * Z.of_nat (length (nonblank_lines b)) / 5)
                <= Z.of_nat (length (pipe_lines b))).
  { intro H. discriminate H. }
  assert (Hkp : Z.of_nat (length (pipe_lines p))
                < Z.max 2 (3 * Z.of_nat (length (nonblank_lines p)) / 5))
    by reflexivity.
  split.
  - split; [exact Hb|]. split; [exact Hkb|].
    exact (proj1 (table_classification b Hb) Hkb).
  - split; [exact Hp|]. split; [exact Hkp|].
    exact (proj2 (table_classification p Hp) Hkp).
Defined.

End Classifier.

(** ** The request handler *)

Section Requests.

Variable E : Collaborators.

Lemma detect_type_unknown (ext : str) :
  ~ In (lower ext) KNOWN_EXTENSIONS -> detect_type ext = unknown.
Proof.
  intros H. unfold detect_type, in_set. simpl existsb.
  repeat match goal with
  | |- context [str_eqb (lower ext) ?x] =>
      rewrite (str_eqb_neq (lower ext) x)
        by (intros Heq; apply H; rewrite Heq; simpl; tauto)
  end.
  reflexivity.
Qed.

Lemma chats_ret {A} (P : ChatCall -> Prop) (a : A) : chats P (ret a).
Proof. intros w. exists []. simpl. now rewrite app_nil_r. Qed.

Lemma chats_raise {A} (P : ChatCall -> Prop) (e : Exn) :
  chats P (@raise A e).
Proof. intros w. exists []. simpl. now rewrite app_nil_r. Qed.

Lemma chats_lift {A} (P : ChatCall -> Prop) (o : outcome A) :
  chats P (lift o).
Proof. intros w. exists []. simpl. now rewrite app_nil_r. Qed.

Lemma chats_bind {A B} (P : ChatCall -> Prop) (m : M A) (f : A -> M B) :
  chats P m -> (forall a, chats P (f a)) -> chats P (bind m f).
Proof.
  intros Hm Hf w. unfold bind.
  destruct (Hm w) as (c1 & E1 & H1).
  destruct (m w) as [[a|e] w1]; simpl in *.
  - destruct (Hf a w1) as (c2 & E2 & H2).
    exists (c1 ++ c2). rewrite E2, E1, app_assoc. split; [reflexivity|].
    apply Forall_app. auto.
  - exists c1. auto.
Qed.

Lemma chats_try_except {A} (P : ChatCall -> Prop) (m : M A) h :
  chats P m -> chats P (try_except m h).
Proof.
  intros Hm w. unfold try_except.
  destruct (Hm w) as (c1 & E1 & H1).
  destruct (m w) as [[a|e] w1]; simpl in *; exists c1; auto.
Qed.

Lemma chats_for_each {A B} (P : ChatCall -> Prop) (f : A -> M B) xs :
  (forall x, chats P (f x)) -> chats P (for_each f xs).
Proof.
  intros Hf. induction xs as [|x xs IH]; simpl.
  - apply chats_ret.
  - apply chats_bind; [apply Hf|]. intros y.
    apply chats_bind; [apply IH|]. intros ys. apply chats_ret.
Qed.

Lemma chats_chat (P : ChatCall -> Prop) (call : ChatCall) :
  P call -> chats P (chat E call).
Proof.
  intros HP w. exists [call]. simpl. split; [reflexivity|].
  constructor; [assumption|constructor].
Qed.

Lemma chats_save (P : ChatCall -> Prop) f text job :
  chats P (save E f text job).
Proof.
  intros w. exists []. unfold save.
  destruct (render_error E f text); simpl; now rewrite app_nil_r.
Qed.

Lemma chats_translate_default (src : str) :
  chats document_call (translate_text E src DEFAULT_MODE).
Proof.
  unfold translate_text.
  replace (str_eqb DEFAULT_MODE (lit "table")) with false by reflexivity.
  replace (str_eqb DEFAULT_MODE (lit "ocr")) with false by reflexivity.
  cbv zeta. simpl negb. cbv iota.
  apply chats_bind; [|intros; apply chats_ret].
  apply chats_for_each. intros ch. unfold translate_chunk.
  apply chats_bind; [|intros; apply chats_ret].
  apply chats_chat. split; reflexivity.
Qed.

Lemma chats_persist (P : ChatCall -> Prop) kind tr job :
  chats P (persist E kind tr job).
Proof.
  unfold persist.
  destruct kind as [[]|];
    repeat (apply chats_bind; [apply chats_save|intros _]);
    apply chats_ret.
Qed.

Lemma chats_extract (P : ChatCall -> Prop) kind ext data :
  chats P (extract E kind ext data).
Proof.
  destruct kind; simpl; (apply chats_lift || apply chats_raise).
Qed.

(** C4, as the code has it. Whatever is uploaded, every chat completion
    call of a request carries the system prompt and the temperature of
    mode "document": the handler calls [translate_text(source_text)]
    without a mode, for csv, xlsx and image input too. *)
Theorem mode_is_always_document (file : option UploadFile)
    (text : option str) (job : str) :
  chats document_call (api_translate E file text job).
Proof.
  unfold api_translate.
  destruct (is_none file && negb (has_text text)); [apply chats_raise|].
  apply chats_bind.
  - destruct file as [f|]; [|apply chats_ret].
    apply chats_bind; [apply chats_extract|]. intros src.
    destruct (negb (nonempty src) || negb (nonempty (strip src)));
      [apply chats_raise|apply chats_ret].
  - intros [src kind].
    apply chats_bind;
      [apply chats_try_except, chats_translate_default|]. intros tr.
    apply chats_bind; [apply chats_try_except, chats_persist|]. intros dl.
    apply chats_ret.
Qed.

(** C3, as the code has it. An extension that is ".xlsx" in any letter
    case is detected as kind txt: the upload goes to the txt extractor and
    only the txt output is written. *)
Theorem xlsx_is_detected_as_txt (ext : str) :
  lower ext = lit ".xlsx" ->
  detect_type ext = txt
  /\ (forall data,
        extract E (detect_type ext) ext data
        = lift (extract_text_from_txt E data))
  /\ (forall translated job,
        persist E (Some (detect_type ext)) translated job
        = bind (save E F_txt translated job)
               (fun _ => ret [download job F_txt])).
Proof.
  intros H.
  assert (Hk : detect_type ext = txt) by (unfold detect_type; now rewrite H).
  rewrite Hk. repeat split.
Qed.

(** C8. When the extraction of an upload succeeds with a text that is empty
    or all whitespace, the request fails with the 422 error and the world
    is as before: no translation call was made and no output was written. *)
Theorem empty_extraction_fails (f : UploadFile) (text : option str)
    (job : str) (w : World) (src : str) :
  extract E (detect_type (upload_ext E f)) (upload_ext E f) (content f) w
  = (Ok src, w) ->
  strip src = [] ->
  api_translate E (Some f) text job w = (Raise EMPTY_CONTENT, w).
Proof.
  intros Hex Hsp. unfold api_translate, upload_ext in *.
  change (is_none (Some f) && negb (has_text text)) with false.
  cbv iota zeta. unfold bind at 1 2. rewrite Hex.
  rewrite Hsp. simpl nonempty. simpl negb. rewrite orb_true_r.
  reflexivity.
Qed.

(** C9, amended. An extension outside the known ones gives kind unknown,
    and the handler rejects the upload with the 400 error "Unsupported file
    type", before any extraction, translation or output. *)
Theorem unknown_kind_rejected :
  (forall ext, ~ In (lower ext) KNOWN_EXTENSIONS -> detect_type ext = unknown)
  /\ forall f text job w,
       ~ In (upload_ext E f) KNOWN_EXTENSIONS ->
       api_translate E (Some f) text job w
       = (Raise (UNSUPPORTED (upload_ext E f)), w).
Proof.
  split; [apply detect_type_unknown|].
  intros f text job w Hext. unfold api_translate, upload_ext in *.
  change (is_none (Some f) && negb (has_text text)) with false.
  cbv iota zeta. unfold bind at 1 2.
  rewrite detect_type_unknown by now rewrite lower_idem.
  reflexivity.
Qed.

End Requests.

Lemma xlsx_is_detected_as_txt_witness :
  lower (lit ".XLSX") = lit ".xlsx"
  /\ detect_type (lit ".XLSX") = txt.
Proof.
  split; [reflexivity|].
  apply (proj1 (xlsx_is_detected_as_txt (stub [] []) (lit ".XLSX") eq_refl)).
Defined.

Lemma empty_extraction_fails_witness :
  let E := stub (lit ".txt") [SP; NL] in
  let f := mkUpload (Some (lit "notes.txt")) [] in
  extract E (detect_type (upload_ext E f)) (upload_ext E f) (content f)
    no_world = (Ok [SP; NL], no_world)
  /\ strip [SP; NL] = []
  /\ api_translate E (Some f) None (lit "job-1") no_world
     = (Raise EMPTY_CONTENT, no_world).
Proof.
  intros E f. split; [reflexivity|]. split; [reflexivity|].
  exact (empty_extraction_fails E f None (lit "job-1") no_world [SP; NL]
           eq_refl eq_refl).
Defined.

(** An upload named "data.xyz" is not translated as plain text, though
    every collaborator succeeds: it is refused. *)
Lemma unknown_not_handled_as_text :
  detect_type (lit ".xyz") = unknown
  /\ ~ handled_as_text (stub (lit ".xyz") (lit "bonjour"))
         (mkUpload (Some (lit "data.xyz")) []) None (lit "job-1") no_world.
Proof.
  split; [reflexivity|].
  intros (resp & w' & H & _). vm_compute in H. discriminate H.
Qed.

Lemma unknown_kind_rejected_witness :
  let E := stub (lit ".xyz") (lit "bonjour") in
  let f := mkUpload (Some (lit "data.xyz")) [] in
  ~ In (upload_ext E f) KNOWN_EXTENSIONS
  /\ api_translate E (Some f) None (lit "job-1") no_world
     = (Raise (UNSUPPORTED (lit ".xyz")), no_world).
Proof.
  intros E f.
  assert (H : ~ In (upload_ext E f) KNOWN_EXTENSIONS).
  { simpl. intros [H|[H|[H|[H|[H|[H|[H|[H|[]]]]]]]]]; discriminate H. }
  split; [exact H|].
  exact (proj2 (unknown_kind_rejected E) f None (lit "job-1") no_world H).
Defined.

(** * Further properties *)

(** ** Splitting and joining *)

Section SplitJoin.

(** A separator that holds a character [x] does not start inside a text
    without [x] that is followed by the separator. *)
Lemma strip_prefix_needs (x : ascii) (u v w t : str) :
  ~ In x w -> length u < length w ->
  strip_prefix (u ++ x :: v) (w ++ t) = None.
Proof.
  revert w. induction u as [|b u IH]; intros w Hx Hlen.
  - destruct w as [|a w]; [simpl in Hlen; lia|]. simpl.
    destruct (Ascii.eqb_spec x a) as [->|]; [|reflexivity].
    exfalso. apply Hx. now left.
  - destruct w as [|a w]; [simpl in Hlen; lia|]. simpl.
    destruct (Ascii.eqb b a); [|reflexivity].
    apply IH; [|simpl in Hlen; lia].
    intros H. apply Hx. now right.
Qed.

Lemma first_occurrence (x : ascii) (sep : str) :
  In x sep -> exists u v, sep = u ++ x :: v /\ ~ In x u.
Proof.
  induction sep as [|a sep IH]; intros H; [contradiction|].
  destruct (ascii_dec a x) as [->|Hne].
  - exists [], sep. auto.
  - destruct H as [H|H]; [congruence|].
    destruct (IH H) as (u & v & -> & Hu).
    exists (a :: u), v. split; [reflexivity|].
    intros [H'|H']; [congruence|contradiction].
Qed.

Lemma strip_prefix_inside (x : ascii) (sep pre rest : str) :
  In x sep -> ~ In x pre -> pre <> [] ->
  strip_prefix sep (pre ++ sep ++ rest) = None.
Proof.
  intros Hin Hpre Hne.
  destruct (first_occurrence x sep Hin) as (u & v & -> & Hu).
  rewrite <- (app_assoc u), app_assoc.
  apply strip_prefix_needs.
  - intros H. apply in_app_or in H. tauto.
  - rewrite length_app. destruct pre; [congruence|simpl; lia].
Qed.

Lemma strip_prefix_absent (x : ascii) (sep s : str) :
  In x sep -> ~ In x s -> strip_prefix sep s = None.
Proof.
  intros Hin Hs. destruct (strip_prefix sep s) as [r|] eqn:E; [|reflexivity].
  apply strip_prefix_app in E. exfalso. apply Hs. rewrite E.
  apply in_or_app. now left.
Qed.

Lemma strip_prefix_self (sep rest : str) :
  strip_prefix sep (sep ++ rest) = Some rest.
Proof.
  induction sep as [|a sep IH]; [reflexivity|].
  simpl. now rewrite Ascii.eqb_refl.
Qed.

Lemma split_cons_none (sep : str) (c : ascii) (s : str) :
  strip_prefix sep (c :: s) = None ->
  split sep (c :: s) = cons_head c (split sep s).
Proof. intros H. simp split. now rewrite H. Qed.

Lemma split_at_sep (sep rest : str) :
  sep <> [] -> split sep (sep ++ rest) = [] :: split sep rest.
Proof.
  intros Hne. destruct sep as [|a sep]; [congruence|].
  change ((a :: sep) ++ rest) with (a :: sep ++ rest).
  simp split.
  change (a :: sep ++ rest) with ((a :: sep) ++ rest).
  rewrite strip_prefix_self. simpl.
  destruct (lt_dec (length rest) (S (length (sep ++ rest)))) as [|Hn];
    [reflexivity|].
  exfalso. apply Hn. rewrite length_app. lia.
Qed.

(** A text without the character [x] of the separator is one piece. *)
Lemma split_absent (x : ascii) (sep s : str) :
  In x sep -> ~ In x s -> split sep s = [s].
Proof.
  intros Hin. induction s as [|c s IH]; intros Hs.
  - now simp split.
  - rewrite split_cons_none by now apply (strip_prefix_absent x).
    rewrite IH; [reflexivity|]. intros H. apply Hs. now right.
Qed.

Lemma split_piece (x : ascii) (sep c rest : str) :
  In x sep -> ~ In x c ->
  split sep (c ++ sep ++ rest) = c :: split sep rest.
Proof.
  intros Hin. induction c as [|a c IH]; intros Hc.
  - change ([] ++ sep ++ rest) with (sep ++ rest).
    apply split_at_sep. destruct sep; [contradiction|discriminate].
  - change ((a :: c) ++ sep ++ rest) with (a :: c ++ sep ++ rest).
    rewrite split_cons_none.
    + rewrite IH; [reflexivity|]. intros H. apply Hc. now right.
    + change (a :: c ++ sep ++ rest) with ((a :: c) ++ sep ++ rest).
      apply (strip_prefix_inside x); [assumption..|discriminate].
Qed.

(** [sep.join(cells).split(sep) == cells] when some character of [sep]
    occurs in no cell. *)
Lemma split_join (x : ascii) (sep : str) (cells : list str) :
  In x sep -> cells <> [] -> Forall (fun c => ~ In x c) cells ->
  split sep (join sep cells) = cells.
Proof.
  intros Hin Hne Hall. revert Hne.
  induction Hall as [|c cells Hc Hcells IH]; intros Hne;
    [now elim Hne|].
  destruct cells as [|d cells].
  - simpl. now apply (split_absent x).
  - change (join sep (c :: d :: cells))
      with (c ++ sep ++ join sep (d :: cells)).
    rewrite (split_piece x) by assumption.
    now rewrite IH by discriminate.
Qed.

End SplitJoin.

(** ** More on the chunker *)

Section ChunkerMore.

Local Open Scope Z_scope.

(** X1. The chunks of [_chunk_text] are the blocks of the text, grouped:
    every chunk is the join of a non-empty group of consecutive blocks,
    and the groups, in order, hold every block once.  No block is cut,
    dropped, repeated or moved, and there is at least one chunk. *)
Theorem chunk_groups (text : option str) (N : Z) :
  exists gs,
    gs <> []
    /\ Forall (fun g => g <> []) gs
    /\ _chunk_text text N = map (join BLOCK_SEP) gs
    /\ concat gs = split BLOCK_SEP (or_empty text).
Proof.
  unfold _chunk_text.
  destruct (len (or_empty text) <=? N).
  - exists [split BLOCK_SEP (or_empty text)]. repeat split.
    + discriminate.
    + constructor; [apply split_not_nil|constructor].
    + simpl. now rewrite join_split.
    + simpl. apply app_nil_r.
  - cbv zeta. unfold chunk_loop.
    assert (Hg : grouped (mkChunkState [] [] 0) []).
    { exists []. simpl. auto. }
    apply (chunk_fold_grouped N (split BLOCK_SEP (or_empty text))) in Hg.
    apply flush_grouped in Hg. destruct Hg as (gs & Hne & Hf & Hc).
    simpl in Hc. exists gs. repeat split; try assumption.
    intros ->. simpl in Hc. symmetry in Hc. now apply split_not_nil in Hc.
Qed.

Lemma tight_single (N : Z) (g : list str) : tight N [g].
Proof.
  intros i h b g' _ H. destruct i; simpl in H; discriminate H.
Qed.

Lemma tight_grow (N : Z) (gs : list (list str)) (b0 : str)
    (c c' : list str) :
  tight N (gs ++ [b0 :: c]) -> tight N (gs ++ [b0 :: c']).
Proof.
  intros Ht i g b g' Hi Hsi.
  assert (Hlt : (S i < length (gs ++ [b0 :: c']))%nat)
    by (apply nth_error_Some; congruence).
  rewrite length_app in Hlt. simpl in Hlt.
  rewrite nth_error_app1 in Hi by lia.
  destruct (Nat.eq_dec (S i) (length gs)) as [He|Hne].
  - rewrite nth_error_app2, He, Nat.sub_diag in Hsi by lia.
    simpl in Hsi. inversion Hsi; subst b g'.
    apply (Ht i g b0 c).
    + rewrite nth_error_app1 by lia. exact Hi.
    + rewrite nth_error_app2, He, Nat.sub_diag by lia. reflexivity.
  - rewrite nth_error_app1 in Hsi by lia.
    apply (Ht i g b g'); rewrite nth_error_app1 by lia; assumption.
Qed.

Lemma tight_close (N : Z) (gs : list (list str)) (cur : list str)
    (b : str) :
  tight N (gs ++ [cur]) ->
  N < len (join BLOCK_SEP cur) + len b + 4 ->
  tight N ((gs ++ [cur]) ++ [[b]]).
Proof.
  intros Ht Hb i g b' g' Hi Hsi.
  assert (Hlt : (S i < length ((gs ++ [cur]) ++ [[b]]))%nat)
    by (apply nth_error_Some; congruence).
  rewrite !length_app in Hlt. simpl in Hlt.
  rewrite nth_error_app1 in Hi by (rewrite length_app; simpl; lia).
  destruct (Nat.eq_dec i (length gs)) as [He|Hne].
  - subst i.
    rewrite nth_error_app2, Nat.sub_diag in Hi by lia. simpl in Hi.
    inversion Hi; subst g.
    rewrite nth_error_app2 in Hsi by (rewrite length_app; simpl; lia).
    rewrite length_app in Hsi. cbn [length] in Hsi.
    replace (S (length gs) - (length gs + 1))%nat with 0%nat in Hsi by lia.
    simpl in Hsi. inversion Hsi; subst. exact Hb.
  - rewrite nth_error_app1 in Hsi by (rewrite length_app; simpl; lia).
    apply (Ht i g b' g'); assumption.
Qed.

Lemma chunk_step_packed (N : Z) (st : chunk_state) (done : list str)
    (block : str) :
  packed N st done -> packed N (chunk_step N st block) (done ++ [block]).
Proof.
  intros (gs & Hne & Hp & Hc & Hcur). unfold chunk_step.
  destruct (current_len st + (len block + 2) <=? N) eqn:Hfit.
  - exists gs. simpl. repeat split; auto.
    + now rewrite app_assoc, Hc.
    + destruct (current st) as [|b0 c] eqn:Ec.
      * destruct Hcur as (-> & Hl). simpl. split; [apply tight_single|].
        rewrite Hl. lia.
      * destruct Hcur as (Ht & Hl).
        change ((b0 :: c) ++ [block]) with (b0 :: (c ++ [block])).
        split; [now apply (tight_grow N gs b0 c)|].
        change (b0 :: (c ++ [block])) with ((b0 :: c) ++ [block]).
        rewrite join_snoc, !len_app by discriminate.
        change (len BLOCK_SEP) with 2. lia.
  - apply Z.leb_gt in Hfit.
    destruct (current st) as [|b0 c] eqn:Ec.
    + destruct Hcur as (-> & Hl). exists []. simpl.
      rewrite <- Hc. simpl. repeat split; auto.
      * apply tight_single.
      * lia.
    + destruct Hcur as (Ht & Hl). exists (gs ++ [b0 :: c]). simpl.
      repeat split.
      * apply Forall_app. split; [assumption|].
        constructor; [discriminate|constructor].
      * now rewrite Hp, map_app.
      * rewrite concat_app. simpl. now rewrite app_nil_r, Hc.
      * apply tight_close; [assumption|]. lia.
      * lia.
Qed.

Lemma chunk_fold_packed (N : Z) (blocks : list str) :
  forall st done,
    packed N st done ->
    packed N (fold_left (chunk_step N) blocks st) (done ++ blocks).
Proof.
  induction blocks as [|b blocks IH]; intros st done Hg; simpl.
  - now rewrite app_nil_r.
  - replace (done ++ b :: blocks) with ((done ++ [b]) ++ blocks)
      by now rewrite <- app_assoc.
    apply IH. now apply chunk_step_packed.
Qed.

(** X2. Chunks are filled greedily: when a chunk is followed by another,
    the first block of the next one did not fit, that is, the chunk, the
    separator and that block are longer than the budget less two. *)
Theorem chunk_greedy (text : option str) (N : Z) :
  exists gs,
    _chunk_text text N = map (join BLOCK_SEP) gs
    /\ concat gs = split BLOCK_SEP (or_empty text)
    /\ forall i g b g',
         nth_error gs i = Some g ->
         nth_error gs (S i) = Some (b :: g') ->
         N - 2 < len (join BLOCK_SEP g) + len BLOCK_SEP + len b.
Proof.
  unfold _chunk_text.
  destruct (len (or_empty text) <=? N).
  - exists [split BLOCK_SEP (or_empty text)]. repeat split.
    + simpl. now rewrite join_split.
    + simpl. apply app_nil_r.
    + intros i g b g' _ H. destruct i; simpl in H; discriminate H.
  - cbv zeta. unfold chunk_loop.
    assert (Hg : packed N (mkChunkState [] [] 0) []).
    { exists []. simpl. auto. }
    apply (chunk_fold_packed N (split BLOCK_SEP (or_empty text))) in Hg.
    destruct Hg as (gs & Hne & Hp & Hc & Hcur). simpl in Hc.
    destruct (current _) as [|b0 c] eqn:Ec.
    + destruct Hcur as (-> & _). exists []. simpl. rewrite Hp.
      rewrite app_nil_r in Hc. repeat split; auto.
      intros i g b g' H. destruct i; discriminate H.
    + destruct Hcur as (Ht & _). exists (gs ++ [b0 :: c]).
      repeat split.
      * unfold flush. now rewrite Hp, map_app.
      * rewrite concat_app. simpl. now rewrite app_nil_r.
      * intros i g b g' Hi Hsi. change (len BLOCK_SEP) with 2.
        pose proof (Ht i g b g' Hi Hsi). lia.
Qed.

End ChunkerMore.

(** ** The translation calls *)

Section Translation.

Variable E : Collaborators.

Lemma mode_settings_of (mode : str) :
  mode_settings mode
    (if str_eqb mode (lit "table") then TablePrompt
     else if str_eqb mode (lit "ocr") then OcrPrompt else DocumentPrompt)
    (if negb (str_eqb mode (lit "table")) then T_0_2 else T_0_0).
Proof.
  repeat split.
  - subst. reflexivity.
  - subst. reflexivity.
  - subst. reflexivity.
  - subst. reflexivity.
  - now rewrite !str_eqb_neq.
  - now rewrite !str_eqb_neq.
Qed.

Lemma for_each_translate_cons (p : Prompt) (t : Temperature) (ch : str)
    (chunks : list str) (w : World) :
  for_each (translate_chunk E p t) (ch :: chunks) w
  = let w1 := mkWorld (chat_log w ++ [mkChat p ch t]) (saved w) in
    match chat_response E (chat_log w) (mkChat p ch t) with
    | Raise e => (Raise e, w1)
    | Ok a =>
        match for_each (translate_chunk E p t) chunks w1 with
        | (Ok outs, w2) => (Ok (strip (or_empty a) :: outs), w2)
        | (Raise e, w2) => (Raise e, w2)
        end
    end.
Proof.
  simpl. unfold bind, translate_chunk, bind, chat, ret.
  destruct (chat_response E (chat_log w) (mkChat p ch t)) as [a|e];
    [|reflexivity].
  destruct (for_each _ chunks _) as [[outs|e] w2]; reflexivity.
Qed.

(** The loop over the chunks: it stops at the first call that raises. *)
Lemma for_each_translate (p : Prompt) (t : Temperature)
    (chunks : list str) :
  forall w,
    let r := for_each (translate_chunk E p t) chunks w in
    saved (snd r) = saved w
    /\ match fst r with
       | Ok outs =>
           chat_log (snd r) = log_after w p t chunks (length chunks)
           /\ exists answers,
                length answers = length chunks
                /\ outs = map (fun a => strip (or_empty a)) answers
                /\ forall i, i < length chunks ->
                     answer_to E w p t chunks i = Ok (nth i answers None)
       | Raise e =>
           exists i,
             i < length chunks
             /\ chat_log (snd r) = log_after w p t chunks (S i)
             /\ answer_to E w p t chunks i = Raise e
             /\ forall j, j < i ->
                  exists a, answer_to E w p t chunks j = Ok a
       end.
Proof.
  induction chunks as [|ch chunks IH]; intros w r.
  - subst r. simpl. split; [reflexivity|]. split.
    + unfold log_after. simpl. now rewrite app_nil_r.
    + exists []. repeat split. intros i Hi. lia.
  - subst r. rewrite for_each_translate_cons. cbv zeta.
    set (w1 := mkWorld (chat_log w ++ [mkChat p ch t]) (saved w)).
    destruct (chat_response E (chat_log w) (mkChat p ch t)) as [a|e] eqn:Ea.
    + specialize (IH w1). cbv zeta in IH. destruct IH as (Hs & IH).
      assert (Hlog : forall i,
                 log_after w1 p t chunks i
                 = log_after w p t (ch :: chunks) (S i)).
      { intros i. unfold log_after. simpl. now rewrite <- app_assoc. }
      assert (Hans : forall i,
                 answer_to E w1 p t chunks i
                 = answer_to E w p t (ch :: chunks) (S i)).
      { intros i. unfold answer_to. now rewrite Hlog. }
      assert (H0 : answer_to E w p t (ch :: chunks) 0 = Ok a).
      { unfold answer_to, log_after. simpl. now rewrite app_nil_r. }
      destruct (for_each (translate_chunk E p t) chunks w1)
        as [[outs|e] w2]; simpl in Hs, IH |- *.
      * split; [exact Hs|]. destruct IH as (Hl & answers & Hn & Ho & Hi).
        split; [now rewrite Hl, Hlog|].
        exists (a :: answers). repeat split.
        -- simpl. now rewrite Hn.
        -- simpl. now rewrite Ho.
        -- intros [|i] Hlt; [exact H0|].
           simpl nth. rewrite <- Hans. apply Hi. lia.
      * split; [exact Hs|]. destruct IH as (i & Hlt & Hl & Hr & Hj).
        exists (S i). repeat split.
        -- lia.
        -- now rewrite Hl, Hlog.
        -- now rewrite <- Hans.
        -- intros [|j] Hjlt; [eauto|].
           rewrite <- Hans. apply Hj. lia.
    + simpl. split; [reflexivity|]. exists 0. repeat split.
      * lia.
      * unfold answer_to, log_after. simpl. now rewrite app_nil_r.
      * intros j Hj. lia.
Qed.

(** X3. A translation that succeeds has sent every chunk of the source
    text once, in order, each with the system prompt and temperature of
    the mode, so that the texts sent, joined by blank lines, are the source
    text; it returns the answers, each stripped, joined by blank lines, and
    saves nothing. *)
Theorem translate_text_success (src mode : str) (w w' : World) (out : str) :
  translate_text E src mode w = (Ok out, w') ->
  let chunks := _chunk_text (Some src) DEFAULT_MAX_CHARS in
  exists p t answers,
    mode_settings mode p t
    /\ chat_log w' = chat_log w ++ map (fun ch => mkChat p ch t) chunks
    /\ join BLOCK_SEP (map user_content (map (fun ch => mkChat p ch t) chunks))
       = src
    /\ length answers = length chunks
    /\ (forall i, i < length chunks ->
          answer_to E w p t chunks i = Ok (nth i answers None))
    /\ out = join BLOCK_SEP (map (fun a => strip (or_empty a)) answers)
    /\ saved w' = saved w.
Proof.
  intros H chunks. unfold translate_text in H. cbv zeta in H.
  fold chunks in H.
  set (p := if str_eqb mode (lit "table") then TablePrompt
            else if str_eqb mode (lit "ocr") then OcrPrompt
            else DocumentPrompt) in *.
  set (t := if negb (str_eqb mode (lit "table")) then T_0_2 else T_0_0) in *.
  pose proof (for_each_translate p t chunks w) as Hf. cbv zeta in Hf.
  unfold bind in H.
  destruct (for_each (translate_chunk E p t) chunks w) as [[outs|e] w1];
    [|discriminate H].
  unfold ret in H. inversion H; subst out w'. clear H.
  simpl in Hf. destruct Hf as (Hs & Hl & answers & Hn & Ho & Hi).
  exists p, t, answers. split; [apply mode_settings_of|].
  repeat split; try assumption.
  - rewrite Hl. unfold log_after. now rewrite firstn_all.
  - rewrite map_map. simpl. rewrite map_id.
    apply (chunk_join (Some src)).
  - now rewrite Ho.
Qed.

(** X4. A translation fails exactly on the first chunk whose call raises:
    it raises that exception, the chunks before it were sent and answered,
    no chunk after it is sent, and nothing is saved. *)
Theorem translate_text_failure (src mode : str) (w w' : World) (e : Exn) :
  translate_text E src mode w = (Raise e, w') ->
  let chunks := _chunk_text (Some src) DEFAULT_MAX_CHARS in
  exists p t i,
    mode_settings mode p t
    /\ i < length chunks
    /\ chat_log w' = chat_log w ++ map (fun ch => mkChat p ch t)
                                     (firstn (S i) chunks)
    /\ answer_to E w p t chunks i = Raise e
    /\ (forall j, j < i -> exists a, answer_to E w p t chunks j = Ok a)
    /\ saved w' = saved w.
Proof.
  intros H chunks. unfold translate_text in H. cbv zeta in H.
  fold chunks in H.
  set (p := if str_eqb mode (lit "table") then TablePrompt
            else if str_eqb mode (lit "ocr") then OcrPrompt
            else DocumentPrompt) in *.
  set (t := if negb (str_eqb mode (lit "table")) then T_0_2 else T_0_0) in *.
  pose proof (for_each_translate p t chunks w) as Hf. cbv zeta in Hf.
  unfold bind in H.
  destruct (for_each (translate_chunk E p t) chunks w) as [[outs|e0] w1];
    [discriminate H|].
  inversion H; subst e0 w1. clear H.
  simpl in Hf. destruct Hf as (Hs & i & Hlt & Hl & Hr & Hj).
  exists p, t, i. split; [apply mode_settings_of|].
  repeat split; assumption.
Qed.

End Translation.

Lemma translate_text_success_witness :
  let E := stub [] [] in
  translate_text E (lit " bonjour ") (lit "table") no_world
  = (Ok (lit "bonjour"),
     mkWorld [mkChat TablePrompt (lit " bonjour ") T_0_0] [])
  /\ exists p t (answers : list (option str)),
       mode_settings (lit "table") p t
       /\ [mkChat TablePrompt (lit " bonjour ") T_0_0]
          = map (fun ch => mkChat p ch t) [lit " bonjour "]
       /\ length answers = 1.
Proof.
  intros E. split; [reflexivity|].
  destruct (translate_text_success E (lit " bonjour ") (lit "table")
              no_world _ _ eq_refl)
    as (p & t & answers & Hm & Hl & _ & Hn & _).
  exists p, t, answers. split; [exact Hm|]. split; [exact Hl|exact Hn].
Defined.

Lemma translate_text_failure_witness :
  let E := stub_down [] [] in
  translate_text E (lit "bonjour") (lit "ocr") no_world
  = (Raise (Error (lit "service unavailable")),
     mkWorld [mkChat OcrPrompt (lit "bonjour") T_0_2] [])
  /\ exists p t i,
       mode_settings (lit "ocr") p t
       /\ i < 1
       /\ answer_to E no_world p t [lit "bonjour"] i
          = Raise (Error (lit "service unavailable")).
Proof.
  intros E. split; [reflexivity|].
  destruct (translate_text_failure E (lit "bonjour") (lit "ocr")
              no_world _ _ eq_refl)
    as (p & t & i & Hm & Hlt & _ & Hr & _).
  exists p, t, i. split; [exact Hm|]. split; [exact Hlt|exact Hr].
Defined.

(** ** Requests, stage by stage *)

Section Stages.

Variable E : Collaborators.

Lemma translate_text_saved (src mode : str) (w : World) :
  saved (snd (translate_text E src mode w)) = saved w.
Proof.
  unfold translate_text. cbv zeta.
  match goal with
  | |- context [for_each (translate_chunk E ?p ?t) ?c] =>
      pose proof (for_each_translate E p t c w) as Hf
  end.
  cbv zeta in Hf. destruct Hf as (Hs & _). unfold bind.
  destruct (for_each _ _ w) as [[outs|e] w1]; exact Hs.
Qed.

(** The saves of [persist] when every renderer succeeds. *)
Lemma persist_ok (kind : option FileKind) (tr job : str) (w w' : World)
    (dl : list (str * str)) :
  persist E kind tr job w = (Ok dl, w') ->
  dl = map (download job) (outputs_of kind)
  /\ saved w' = saved w ++ saves_of job tr (outputs_of kind)
  /\ chat_log w' = chat_log w.
Proof.
  destruct kind as [[]|]; unfold persist, bind, save, ret; simpl;
    repeat (destruct (render_error E _ tr));
    intros H; inversion H; subst; simpl;
    rewrite <- ?app_assoc; auto.
Qed.

Ltac done_saves :=
  simpl; rewrite ?app_nil_r, <- ?app_assoc;
  repeat split; try reflexivity; try assumption;
  repeat (constructor; try assumption).

(** The saves of [persist] when a renderer fails: those before it. *)
Lemma persist_fail (kind : option FileKind) (tr job : str) (w w' : World)
    (e : Exn) :
  persist E kind tr job w = (Raise e, w') ->
  exists pre f post msg,
    outputs_of kind = pre ++ f :: post
    /\ Forall (fun g => render_error E g tr = None) pre
    /\ render_error E f tr = Some msg
    /\ e = Error msg
    /\ saved w' = saved w ++ saves_of job tr pre
    /\ chat_log w' = chat_log w.
Proof.
  assert (H1 : forall f1 w1,
             save E f1 tr job w1 = (Ok tt, mkWorld (chat_log w1)
                                      (saved w1 ++ [mkSave f1 job tr]))
             /\ render_error E f1 tr = None
             \/ exists msg, save E f1 tr job w1 = (Raise (Error msg), w1)
                            /\ render_error E f1 tr = Some msg).
  { intros f1 w1. unfold save.
    destruct (render_error E f1 tr) as [msg|]; [right; eauto|left; auto]. }
  assert (H3 : forall f1 f2 f3 (dl : list (str * str)),
             bind (save E f1 tr job)
               (fun _ => bind (save E f2 tr job)
                 (fun _ => bind (save E f3 tr job) (fun _ => ret dl))) w
             = (Raise e, w') ->
             exists pre f post msg,
               [f1; f2; f3] = pre ++ f :: post
               /\ Forall (fun g => render_error E g tr = None) pre
               /\ render_error E f tr = Some msg
               /\ e = Error msg
               /\ saved w' = saved w ++ saves_of job tr pre
               /\ chat_log w' = chat_log w).
  { intros f1 f2 f3 dl. unfold bind.
    destruct (H1 f1 w) as [(-> & R1)|(m1 & -> & R1)].
    2:{ intros H; inversion H; subst.
        exists [], f1, [f2; f3], m1. done_saves. }
    match goal with |- context [save E f2 tr job ?w1] =>
      destruct (H1 f2 w1) as [(-> & R2)|(m2 & -> & R2)] end.
    2:{ intros H; inversion H; subst.
        exists [f1], f2, [f3], m2. done_saves. }
    match goal with |- context [save E f3 tr job ?w1] =>
      destruct (H1 f3 w1) as [(-> & R3)|(m3 & -> & R3)] end.
    2:{ intros H; inversion H; subst.
        exists [f1; f2], f3, [], m3. done_saves. }
    discriminate. }
  assert (H2 : forall f1 f2 (dl : list (str * str)),
             bind (save E f1 tr job)
               (fun _ => bind (save E f2 tr job) (fun _ => ret dl)) w
             = (Raise e, w') ->
             exists pre f post msg,
               [f1; f2] = pre ++ f :: post
               /\ Forall (fun g => render_error E g tr = None) pre
               /\ render_error E f tr = Some msg
               /\ e = Error msg
               /\ saved w' = saved w ++ saves_of job tr pre
               /\ chat_log w' = chat_log w).
  { intros f1 f2 dl. unfold bind.
    destruct (H1 f1 w) as [(-> & R1)|(m1 & -> & R1)].
    2:{ intros H; inversion H; subst.
        exists [], f1, [f2], m1. done_saves. }
    match goal with |- context [save E f2 tr job ?w1] =>
      destruct (H1 f2 w1) as [(-> & R2)|(m2 & -> & R2)] end.
    2:{ intros H; inversion H; subst.
        exists [f1], f2, [], m2. done_saves. }
    discriminate. }
  assert (H0 : forall f1 (dl : list (str * str)),
             bind (save E f1 tr job) (fun _ => ret dl) w = (Raise e, w') ->
             exists pre f post msg,
               [f1] = pre ++ f :: post
               /\ Forall (fun g => render_error E g tr = None) pre
               /\ render_error E f tr = Some msg
               /\ e = Error msg
               /\ saved w' = saved w ++ saves_of job tr pre
               /\ chat_log w' = chat_log w).
  { intros f1 dl. unfold bind.
    destruct (H1 f1 w) as [(-> & R1)|(m1 & -> & R1)]; [discriminate|].
    intros H; inversion H; subst.
    exists [], f1, [], m1. done_saves. }
  destruct kind as [[]|]; unfold persist, outputs_of;
    first [apply H3 | apply H2 | apply H0].
Qed.

Lemma extract_world (kind : FileKind) (ext : str) (data : bytes)
    (w : World) :
  snd (extract E kind ext data w) = w.
Proof. destruct kind; reflexivity. Qed.

(** A request, stage by stage. *)
Lemma api_translate_stages (file : option UploadFile) (text : option str)
    (job : str) (w : World) :
  api_translate E file text job w
  = if is_none file && negb (has_text text) then (Raise NO_INPUT, w)
    else
      match source_of E file text w with
      | Raise e => (Raise e, w)
      | Ok (src, kind) =>
          match translate_text E src DEFAULT_MODE w with
          | (Raise e, w2) => (Raise (TRANSLATION_FAILED e), w2)
          | (Ok tr, w2) =>
              match persist E kind tr job w2 with
              | (Raise e, w3) => (Raise (OUTPUT_FAILED (exn_text e)), w3)
              | (Ok dl, w3) => (Ok (mkResponse job tr dl), w3)
              end
          end
      end.
Proof.
  unfold api_translate.
  destruct (is_none file && negb (has_text text)); [reflexivity|].
  unfold bind at 1. unfold source_of. destruct file as [f|].
  - unfold bind at 1. fold (upload_ext E f).
    pose proof (extract_world (detect_type (upload_ext E f))
                  (upload_ext E f) (content f) w) as Hw.
    destruct (extract E (detect_type (upload_ext E f)) (upload_ext E f)
                (content f) w) as [[src|e] w1];
      simpl in Hw; subst w1; cbn [fst]; [|reflexivity].
    destruct (negb (nonempty src) || negb (nonempty (strip src)));
      [reflexivity|].
    unfold ret at 1. cbv beta iota. unfold bind at 1, try_except at 1.
    destruct (translate_text E src DEFAULT_MODE w) as [[tr|e] w2];
      [|reflexivity].
    unfold bind at 1, try_except at 1.
    destruct (persist E _ tr job w2) as [[dl|e] w3]; reflexivity.
  - unfold ret at 1. cbv beta iota. unfold bind at 1, try_except at 1.
    fold (or_empty text).
    destruct (translate_text E (strip (or_empty text)) DEFAULT_MODE w)
      as [[tr|e] w2]; [|reflexivity].
    unfold bind at 1, try_except at 1.
    destruct (persist E None tr job w2) as [[dl|e] w3]; reflexivity.
Qed.

Lemma source_of_kind (file : option UploadFile) (text : option str)
    (w : World) (src : str) (kind : option FileKind) :
  source_of E file text w = Ok (src, kind) -> kind = request_kind E file.
Proof.
  unfold source_of, request_kind. destruct file as [f|].
  - destruct (fst _) as [s0|e]; [|discriminate].
    destruct (negb (nonempty s0) || negb (nonempty (strip s0)));
      [discriminate|].
    intros H; now inversion H.
  - intros H; now inversion H.
Qed.

(** X5. A request that succeeds has saved exactly the outputs its
    response offers for download: the formats of its kind, in order, all
    rendered from the translated text it returns, under the job id it
    returns. *)
Theorem api_translate_outputs (file : option UploadFile) (text : option str)
    (job : str) (w w' : World) (resp : Response) :
  api_translate E file text job w = (Ok resp, w') ->
  job_id resp = job
  /\ downloads resp = map (download job) (outputs_of (request_kind E file))
  /\ saved w'
     = saved w
       ++ saves_of job (translated_text resp)
            (outputs_of (request_kind E file)).
Proof.
  rewrite api_translate_stages.
  destruct (is_none file && negb (has_text text)); [discriminate|].
  destruct (source_of E file text w) as [[src kind]|e] eqn:Hsrc;
    [|discriminate].
  apply source_of_kind in Hsrc. subst kind.
  pose proof (translate_text_saved src DEFAULT_MODE w) as Hs.
  destruct (translate_text E src DEFAULT_MODE w) as [[tr|e] w2];
    [|discriminate].
  simpl in Hs.
  destruct (persist E (request_kind E file) tr job w2) as [[dl|e] w3]
    eqn:Ep; [|discriminate].
  intros H. inversion H; subst resp w'.
  cbn [job_id downloads translated_text].
  apply persist_ok in Ep. destruct Ep as (-> & Hsv & _).
  rewrite Hsv, Hs. auto.
Qed.

(** X7. Every download a successful response offers is served: its URL
    is [/download/<job>/<format>], and the download route, called with
    that job and format on the world the request leaves, answers with the
    file of that format, named [<job>.<format>]. *)
Theorem downloads_are_served (file : option UploadFile) (text : option str)
    (job : str) (w w' : World) (resp : Response) :
  api_translate E file text job w = (Ok resp, w') ->
  Forall (fun d =>
            snd d = lit "/download/" ++ job ++ lit "/" ++ fst d
            /\ exists f,
                 fmt_name f = fst d
                 /\ Routes.download job (fst d) w'
                    = (Ok (Routes.mkFileResponse job f (Routes.media f)
                             (job ++ lit "." ++ fst d)), w'))
         (downloads resp).
Proof.
  rewrite api_translate_stages.
  destruct (is_none file && negb (has_text text)); [discriminate|].
  destruct (source_of E file text w) as [[src kind]|e] eqn:Hsrc;
    [|discriminate].
  destruct (translate_text E src DEFAULT_MODE w) as [[tr|e] w2];
    [|discriminate].
  destruct (persist E kind tr job w2) as [[dl|e] w3] eqn:Ep;
    [|discriminate].
  intros H. inversion H; subst resp w'. cbn [downloads].
  apply persist_ok in Ep. destruct Ep as (-> & Hs & _).
  apply Forall_forall. intros d Hd. apply in_map_iff in Hd.
  destruct Hd as (f & <- & Hf). split; [reflexivity|].
  exists f. split; [reflexivity|].
  unfold Routes.download. cbn [fst download].
  assert (Hlow : lower (fmt_name f) = fmt_name f) by now destruct f.
  assert (Hlook : Routes.lookup_fmt (fmt_name f) = Some f) by now destruct f.
  rewrite Hlow, Hlook.
  assert (Hex : Routes.path_exists job f w3 = true).
  { unfold Routes.path_exists. rewrite Hs, existsb_app.
    apply orb_true_iff. right. apply existsb_exists.
    exists (mkSave f job tr). split.
    - unfold saves_of. apply in_map_iff. eauto.
    - cbn [save_fmt save_job]. rewrite str_eqb_refl.
      now destruct f. }
  now rewrite Hex.
Qed.

Lemma blank_source (src : str) :
  negb (nonempty src) || negb (nonempty (strip src)) = true ->
  strip src = [].
Proof.
  destruct src as [|c src]; [reflexivity|]. simpl negb at 1. simpl orb.
  destruct (strip (c :: src)); [reflexivity|discriminate].
Qed.

(** X6. A request fails in one of five ways, and leaves outputs behind in
    the last one only: without input (400); by the exception of the
    extractor, which for an unknown kind is the 400 of the handler; on a
    blank extraction (422); with a 500 when the translation raises,
    nothing being saved; with a 500 when a renderer raises, the outputs of
    the renderers before it staying saved. *)
Theorem api_translate_failures (file : option UploadFile)
    (text : option str) (job : str) (w w' : World) (e : Exn) :
  api_translate E file text job w = (Raise e, w') ->
  (file = None /\ has_text text = false /\ e = NO_INPUT /\ w' = w)
  \/ (exists f,
        file = Some f
        /\ extract E (detect_type (upload_ext E f)) (upload_ext E f)
             (content f) w = (Raise e, w)
        /\ w' = w)
  \/ (exists f src,
        file = Some f
        /\ extract E (detect_type (upload_ext E f)) (upload_ext E f)
             (content f) w = (Ok src, w)
        /\ strip src = [] /\ e = EMPTY_CONTENT /\ w' = w)
  \/ (exists src e0,
        translate_text E src DEFAULT_MODE w = (Raise e0, w')
        /\ e = TRANSLATION_FAILED e0 /\ saved w' = saved w)
  \/ (exists src tr w2 pre f post msg,
        translate_text E src DEFAULT_MODE w = (Ok tr, w2)
        /\ outputs_of (request_kind E file) = pre ++ f :: post
        /\ Forall (fun g => render_error E g tr = None) pre
        /\ render_error E f tr = Some msg
        /\ e = OUTPUT_FAILED msg
        /\ saved w' = saved w ++ saves_of job tr pre
        /\ chat_log w' = chat_log w2).
Proof.
  assert (Hrest : forall src kind,
             bind (try_except (translate_text E src DEFAULT_MODE)
                     TRANSLATION_FAILED)
               (fun translated =>
                  bind (try_except (persist E kind translated job)
                          (fun e0 => OUTPUT_FAILED (exn_text e0)))
                    (fun dl => ret (mkResponse job translated dl))) w
             = (Raise e, w') ->
             (exists e0,
                translate_text E src DEFAULT_MODE w = (Raise e0, w')
                /\ e = TRANSLATION_FAILED e0 /\ saved w' = saved w)
             \/ (exists tr w2 pre f post msg,
                   translate_text E src DEFAULT_MODE w = (Ok tr, w2)
                   /\ outputs_of kind = pre ++ f :: post
                   /\ Forall (fun g => render_error E g tr = None) pre
                   /\ render_error E f tr = Some msg
                   /\ e = OUTPUT_FAILED msg
                   /\ saved w' = saved w ++ saves_of job tr pre
                   /\ chat_log w' = chat_log w2)).
  { intros src kind. unfold bind at 1, try_except at 1.
    pose proof (translate_text_saved src DEFAULT_MODE w) as Hs.
    destruct (translate_text E src DEFAULT_MODE w) as [[tr|e0] w2].
    - unfold bind at 1, try_except at 1. simpl in Hs.
      destruct (persist E kind tr job w2) as [[dl|e1] w3] eqn:Ep;
        [discriminate|].
      intros H. inversion H; subst e w3. right.
      apply persist_fail in Ep.
      destruct Ep as (pre & f & post & msg & Ho & Hpre & Hf & -> & Hsv & Hl).
      exists tr, w2, pre, f, post, msg. rewrite Hsv, Hs. auto 10.
    - intros H. inversion H; subst e w2. left. exists e0. auto. }
  unfold api_translate.
  destruct (is_none file && negb (has_text text)) eqn:Hin.
  { intros H. inversion H; subst. left.
    destruct file; [discriminate Hin|]. simpl in Hin.
    apply negb_true_iff in Hin. auto. }
  intros H. right. unfold bind at 1 in H. destruct file as [f|].
  - unfold bind at 1 in H. fold (upload_ext E f) in H.
    pose proof (extract_world (detect_type (upload_ext E f))
                  (upload_ext E f) (content f) w) as Hw.
    destruct (extract E (detect_type (upload_ext E f)) (upload_ext E f)
                (content f) w) as [[src|e1] w1] eqn:Ex;
      simpl in Hw; subst w1.
    + destruct (negb (nonempty src) || negb (nonempty (strip src)))
        eqn:Hb.
      * inversion H; subst. right; left. exists f, src.
        apply blank_source in Hb. auto.
      * unfold ret at 1 in H. cbv beta iota in H.
        apply (Hrest src (Some (detect_type (upload_ext E f)))) in H.
        destruct H as [(e0 & H)|(tr & w2 & pre & g & post & msg & H)].
        -- right; right; left. exists src, e0. exact H.
        -- right; right; right.
           exists src, tr, w2, pre, g, post, msg. exact H.
    + inversion H; subst. left. exists f. auto.
  - unfold ret at 1 in H. cbv beta iota in H.
    apply Hrest in H.
    destruct H as [(e0 & H)|(tr & w2 & pre & g & post & msg & H)].
    + right; right; left. eexists _, e0. exact H.
    + right; right; right.
      eexists _, tr, w2, pre, g, post, msg. exact H.
Qed.

End Stages.

Lemma api_translate_outputs_witness :
  let E := stub (lit ".pdf") (lit "bonjour") in
  let f := mkUpload (Some (lit "a.pdf")) [] in
  let resp :=
    mkResponse (lit "j1") (lit "bonjour")
      [download (lit "j1") F_pdf; download (lit "j1") F_docx;
       download (lit "j1") F_txt] in
  let w' :=
    mkWorld [mkChat DocumentPrompt (lit "bonjour") T_0_2]
      [mkSave F_pdf (lit "j1") (lit "bonjour");
       mkSave F_docx (lit "j1") (lit "bonjour");
       mkSave F_txt (lit "j1") (lit "bonjour")] in
  api_translate E (Some f) None (lit "j1") no_world = (Ok resp, w')
  /\ saved w'
     = saved no_world
       ++ saves_of (lit "j1") (translated_text resp)
            (outputs_of (request_kind E (Some f))).
Proof.
  intros E f resp w'.
  assert (H : api_translate E (Some f) None (lit "j1") no_world
              = (Ok resp, w')) by reflexivity.
  split; [exact H|].
  exact (proj2 (proj2 (api_translate_outputs E (Some f) None (lit "j1")
                         no_world w' resp H))).
Defined.

Lemma downloads_are_served_witness :
  let E := stub (lit ".csv") (lit "a | b") in
  let f := mkUpload (Some (lit "t.csv")) [] in
  let resp :=
    mkResponse (lit "j2") (lit "a | b")
      [download (lit "j2") F_csv; download (lit "j2") F_xlsx] in
  let w' :=
    mkWorld [mkChat DocumentPrompt (lit "a | b") T_0_2]
      [mkSave F_csv (lit "j2") (lit "a | b");
       mkSave F_xlsx (lit "j2") (lit "a | b")] in
  api_translate E (Some f) None (lit "j2") no_world = (Ok resp, w')
  /\ Forall (fun d =>
               snd d = lit "/download/" ++ lit "j2" ++ lit "/" ++ fst d
               /\ exists g,
                    fmt_name g = fst d
                    /\ Routes.download (lit "j2") (fst d) w'
                       = (Ok (Routes.mkFileResponse (lit "j2") g
                                (Routes.media g)
                                (lit "j2" ++ lit "." ++ fst d)), w'))
            (downloads resp).
Proof.
  intros E f resp w'.
  assert (H : api_translate E (Some f) None (lit "j2") no_world
              = (Ok resp, w')) by reflexivity.
  split; [exact H|].
  exact (downloads_are_served E (Some f) None (lit "j2") no_world w' resp H).
Defined.

Lemma api_translate_failures_witness :
  let E := stub_no_docx (lit ".pdf") (lit "bonjour") in
  let f := mkUpload (Some (lit "a.pdf")) [] in
  let w' :=
    mkWorld [mkChat DocumentPrompt (lit "bonjour") T_0_2]
      [mkSave F_pdf (lit "j1") (lit "bonjour")] in
  api_translate E (Some f) None (lit "j1") no_world
  = (Raise (OUTPUT_FAILED (lit "disk full")), w')
  /\ ((Some f = None /\ has_text None = false
       /\ OUTPUT_FAILED (lit "disk full") = NO_INPUT /\ w' = no_world)
      \/ (exists f0,
            Some f = Some f0
            /\ extract E (detect_type (upload_ext E f0)) (upload_ext E f0)
                 (content f0) no_world
               = (Raise (OUTPUT_FAILED (lit "disk full")), no_world)
            /\ w' = no_world)
      \/ (exists f0 src,
            Some f = Some f0
            /\ extract E (detect_type (upload_ext E f0)) (upload_ext E f0)
                 (content f0) no_world = (Ok src, no_world)
            /\ strip src = []
            /\ OUTPUT_FAILED (lit "disk full") = EMPTY_CONTENT
            /\ w' = no_world)
      \/ (exists src e0,
            translate_text E src DEFAULT_MODE no_world = (Raise e0, w')
            /\ OUTPUT_FAILED (lit "disk full") = TRANSLATION_FAILED e0
            /\ saved w' = saved no_world)
      \/ (exists src tr w2 pre g post msg,
            translate_text E src DEFAULT_MODE no_world = (Ok tr, w2)
            /\ outputs_of (request_kind E (Some f)) = pre ++ g :: post
            /\ Forall (fun h => render_error E h tr = None) pre
            /\ render_error E g tr = Some msg
            /\ OUTPUT_FAILED (lit "disk full") = OUTPUT_FAILED msg
            /\ saved w' = saved no_world ++ saves_of (lit "j1") tr pre
            /\ chat_log w' = chat_log w2)).
Proof.
  intros E f w'.
  assert (H : api_translate E (Some f) None (lit "j1") no_world
              = (Raise (OUTPUT_FAILED (lit "disk full")), w'))
    by reflexivity.
  split; [exact H|].
  exact (api_translate_failures E (Some f) None (lit "j1") no_world w'
           (OUTPUT_FAILED (lit "disk full")) H).
Defined.

(** ** Rows of the csv and xlsx outputs *)

Section Rows.

#[local] Arguments run : simpl never.

Lemma is_some_orelse {A} (a b : option A) :
  is_some (orelse a b) = is_some a || is_some b.
Proof. now destruct a. Qed.

(** Whether a pattern matches does not depend on its groups. *)
Lemma run_erase (r : regex) :
  forall s pos g g' (k k' : K),
    (forall s1 p1 g1 g2, is_some (k s1 p1 g1) = is_some (k' s1 p1 g2)) ->
    is_some (run r s pos g k) = is_some (run (erase r) s pos g' k').
Proof.
  induction r as [|p|r1 IH1 r2 IH2|r1 IH1 r2 IH2|r1 IH1|r1 IH1|r1 IH1| |];
    intros s pos g g' k k' Hk; simpl erase.
  - apply Hk.
  - destruct s as [|c s]; [reflexivity|]. rewrite !run_chr_cons.
    destruct (p c); [apply Hk|reflexivity].
  - rewrite !run_seq. apply IH1. intros. now apply IH2.
  - change (run (Alt r1 r2) s pos g k)
      with (orelse (run r1 s pos g k) (run r2 s pos g k)).
    change (run (Alt (erase r1) (erase r2)) s pos g' k')
      with (orelse (run (erase r1) s pos g' k')
                   (run (erase r2) s pos g' k')).
    rewrite !is_some_orelse.
    now rewrite (IH1 s pos g g' k k' Hk), (IH2 s pos g g' k k' Hk).
  - rewrite !run_star. generalize (length s) as n. intros n.
    revert s pos g g'. induction n as [|n IHn]; intros s pos g g'.
    + apply Hk.
    + simpl star_loop. rewrite !is_some_orelse.
      rewrite (Hk s pos g g'). f_equal.
      apply IH1. intros s1 p1 g1 g2.
      destruct (pos <? p1); [apply IHn|reflexivity].
  - change (run (LazyStar r1) s pos g k)
      with (lazy_loop (run r1) k (length s) s pos g).
    change (run (LazyStar (erase r1)) s pos g' k')
      with (lazy_loop (run (erase r1)) k' (length s) s pos g').
    generalize (length s) as n. intros n.
    revert s pos g g'. induction n as [|n IHn]; intros s pos g g'.
    + apply Hk.
    + simpl lazy_loop. rewrite !is_some_orelse.
      rewrite (Hk s pos g g'). f_equal.
      apply IH1. intros s1 p1 g1 g2.
      destruct (pos <? p1); [apply IHn|reflexivity].
  - rewrite run_group. apply IH1. intros. apply Hk.
  - change (run Bos s pos g k) with (if pos =? 0 then k s pos g else None).
    change (run Bos s pos g' k')
      with (if pos =? 0 then k' s pos g' else None).
    destruct (pos =? 0); [apply Hk|reflexivity].
  - destruct s as [|c [|d s]]; try reflexivity.
    + apply Hk.
    + change (run Eos [c] pos g k)
        with (if Ascii.eqb c NL then k [c] pos g else None).
      change (run Eos [c] pos g' k')
        with (if Ascii.eqb c NL then k' [c] pos g' else None).
      destruct (Ascii.eqb c NL); [apply Hk|reflexivity].
Qed.

(** The two sheet header patterns match the same lines. *)
Lemma sheet_header_csv (s : str) :
  is_some (re_match SHEET_RX_CSV s) = is_some (re_match SHEET_RX s).
Proof.
  unfold re_match, match_at.
  change SHEET_RX_CSV with (erase SHEET_RX).
  pose proof (run_erase SHEET_RX s 0 None None
                (fun _ e g => Some (e, g)) (fun _ e g => Some (e, g))
                (fun _ _ _ _ => eq_refl)) as H.
  destruct (run SHEET_RX s 0 None _) as [[e1 g1]|];
    destruct (run (erase SHEET_RX) s 0 None _) as [[e2 g2]|];
    simpl in H |- *; congruence.
Qed.

Lemma rows_set_title (t : str) (i : nat) (b : Workbook) :
  map rows (set_title t i b) = map rows b.
Proof.
  revert i. induction b as [|sh b IH]; intros i; [now destruct i|].
  destruct i; simpl; [reflexivity|]. f_equal. apply IH.
Qed.

Lemma rows_append_at_end (cells : list str) (b : Workbook) :
  forall sh,
    concat (map rows (append_row cells (length b) (sh :: b)))
    = concat (map rows (sh :: b)) ++ [cells].
Proof.
  induction b as [|sh' b IH]; intros sh.
  - simpl. now rewrite !app_nil_r.
  - change (append_row cells (length (sh' :: b)) (sh :: sh' :: b))
      with (sh :: append_row cells (length b) (sh' :: b)).
    change (concat (map rows (sh :: append_row cells (length b) (sh' :: b))))
      with (rows sh
            ++ concat (map rows (append_row cells (length b) (sh' :: b)))).
    rewrite IH. simpl. now rewrite <- !app_assoc.
Qed.

Lemma rows_append_last (cells : list str) (b : Workbook) :
  b <> [] ->
  concat (map rows (append_row cells (length b - 1) b))
  = concat (map rows b) ++ [cells].
Proof.
  destruct b as [|sh b]; intros Hne; [congruence|].
  simpl length. rewrite Nat.sub_succ, Nat.sub_0_r.
  apply rows_append_at_end.
Qed.

Lemma length_update_sheet f i (b : Workbook) :
  length (update_sheet f i b) = length b.
Proof.
  revert i. induction b as [|sh b IH]; intros i; [now destruct i|].
  destruct i; simpl; [reflexivity|]. now rewrite IH.
Qed.

(** One line, in both renderers. *)
Lemma csv_xlsx_line (R : list (list str)) (st : xlsx_state) (line : str) :
  on_last_sheet st ->
  R = concat (map rows (wb st)) ->
  on_last_sheet (xlsx_line st line)
  /\ csv_line R line = concat (map rows (wb (xlsx_line st line))).
Proof.
  intros Hl HR. pose proof Hl as (Hne & Hws). unfold csv_line, xlsx_line.
  destruct (negb (nonempty (strip line))); [split; assumption|].
  rewrite sheet_header_csv.
  unfold on_last_sheet.
  destruct (re_match SHEET_RX (strip line)) as [m|]; cbn [is_some].
  - unfold new_sheet. destruct (negb (first_sheet_used st)); cbn [wb ws].
    + split.
      * split.
        -- unfold set_title. intros H.
           apply (f_equal (@length Worksheet)) in H.
           rewrite length_update_sheet in H.
           destruct (wb st); [congruence|discriminate].
        -- unfold set_title. now rewrite length_update_sheet.
      * now rewrite rows_set_title.
    + split.
      * split.
        -- destruct (wb st); discriminate.
        -- rewrite length_app. simpl. lia.
      * rewrite map_app, concat_app. simpl. now rewrite !app_nil_r.
  - cbn [wb ws]. split.
    + split.
      * unfold append_row. intros H.
        apply (f_equal (@length Worksheet)) in H.
        rewrite length_update_sheet in H.
        destruct (wb st); [congruence|discriminate].
      * unfold append_row. now rewrite length_update_sheet.
    + rewrite Hws, rows_append_last by assumption. now rewrite HR.
Qed.

Lemma csv_xlsx_fold (lines : list str) :
  forall R st,
    on_last_sheet st ->
    R = concat (map rows (wb st)) ->
    fold_left csv_line lines R
    = concat (map rows (wb (fold_left xlsx_line lines st))).
Proof.
  induction lines as [|line lines IH]; intros R st Hl HR; [exact HR|].
  simpl. destruct (csv_xlsx_line R st line Hl HR) as (Hl' & HR').
  now apply IH.
Qed.

(** X8. The csv and the xlsx renderer keep the same rows: the rows
    [save_csv_from_flat] writes are the rows of the sheets of the workbook
    [save_xlsx_from_flat] builds from the same text, sheet after sheet. *)
Theorem csv_rows_are_workbook_rows (text : str) :
  save_csv_from_flat text = concat (map rows (save_xlsx_from_flat text)).
Proof.
  unfold save_csv_from_flat, save_xlsx_from_flat.
  apply csv_xlsx_fold; [|reflexivity].
  split; [discriminate|reflexivity].
Qed.

End Rows.

(** ** Stripping *)

Section Stripping.

Lemma dropwhile_snoc (p : ascii -> bool) (l : str) (c : ascii) :
  p c = false -> dropwhile p (l ++ [c]) = dropwhile p l ++ [c].
Proof.
  intros Hc. induction l as [|a l IH]; simpl.
  - now rewrite Hc.
  - destruct (p a); [exact IH|reflexivity].
Qed.

(** [dropwhile] stops inside the first part when it holds a character
    outside the class. *)
Lemma dropwhile_app_stop (a b : str) (p : ascii -> bool) :
  dropwhile p a <> [] -> dropwhile p (a ++ b) = dropwhile p a ++ b.
Proof.
  induction a as [|x a IH]; simpl; [congruence|].
  destruct (p x); [exact IH|reflexivity].
Qed.

Lemma dropwhile_nil (p : ascii -> bool) (s : str) :
  dropwhile p s = [] -> Forall (fun c => p c = true) s.
Proof.
  induction s as [|c s IH]; simpl; [constructor|].
  destruct (p c) eqn:E; [|discriminate]. intros H. constructor; auto.
Qed.

Lemma length_dropwhile (p : ascii -> bool) (s : str) :
  length (dropwhile p s) <= length s.
Proof.
  induction s as [|c s IH]; simpl; [lia|].
  destruct (p c); simpl; lia.
Qed.

Lemma dropwhile_fixed (p : ascii -> bool) (s : str) :
  length (dropwhile p s) = length s -> s = [] \/ p (hd SP s) = false.
Proof.
  destruct s as [|c s]; [now left|]. simpl.
  destruct (p c) eqn:E; [|now right].
  intros H. pose proof (length_dropwhile p s). lia.
Qed.

(** [rstrip] keeps a text that ends with a character that is no space. *)
Lemma rstrip_snoc (s : str) (c : ascii) :
  isspace c = false -> rstrip (s ++ [c]) = s ++ [c].
Proof.
  intros Hc. unfold rstrip. rewrite rev_app_distr. simpl.
  rewrite Hc. simpl. now rewrite rev_involutive.
Qed.

Lemma length_rstrip (s : str) : length (rstrip s) <= length s.
Proof.
  unfold rstrip. rewrite length_rev.
  pose proof (length_dropwhile isspace (rev s)) as H.
  now rewrite length_rev in H.
Qed.

(** A stripped text is empty, or begins and ends with characters that are
    no spaces. *)
Lemma stripped_ends (s : str) :
  strip s = s ->
  s = [] \/ (isspace (hd SP s) = false /\ isspace (last s SP) = false).
Proof.
  intros H. unfold strip, lstrip in H.
  assert (Hr : length (rstrip s) = length s).
  { pose proof (length_dropwhile isspace (rstrip s)) as H1.
    pose proof (length_rstrip s) as H2.
    rewrite H in H1. lia. }
  assert (Hl : length (dropwhile isspace (rstrip s)) = length (rstrip s)).
  { rewrite H. now rewrite Hr. }
  unfold rstrip in Hr. rewrite length_rev in Hr.
  rewrite <- (length_rev s) in Hr.
  assert (Hrs : rstrip s = s).
  { unfold rstrip. apply dropwhile_fixed in Hr as Hd.
    assert (Hid : dropwhile isspace (rev s) = rev s).
    { destruct (rev s) as [|c r]; [reflexivity|]. simpl in Hr |- *.
      destruct (isspace c); [|reflexivity].
      pose proof (length_dropwhile isspace r). lia. }
    rewrite Hid. apply rev_involutive. }
  destruct s as [|a s]; [now left|]. right. split.
  - rewrite Hrs in Hl. apply dropwhile_fixed in Hl.
    destruct Hl as [Hl|Hl]; [discriminate|exact Hl].
  - apply dropwhile_fixed in Hr. destruct Hr as [Hr|Hr].
    + apply (f_equal (@rev ascii)) in Hr. rewrite rev_involutive in Hr.
      discriminate.
    + destruct (exists_last (l := a :: s)) as (s' & c & Hs);
        [discriminate|].
      rewrite Hs in Hr |- *. rewrite rev_app_distr in Hr. simpl in Hr.
      now rewrite last_last.
Qed.

(** A text that ends with a character that is no space is not blank, and
    its stripped form begins with its first character that is no space. *)
Lemma strip_not_blank (s : str) (c : ascii) :
  isspace c = false -> strip (s ++ [c]) <> [].
Proof.
  intros Hc H. unfold strip in H. rewrite (rstrip_snoc s c Hc) in H.
  apply dropwhile_nil in H. apply Forall_app in H. destruct H as (_ & H).
  inversion H; subst. congruence.
Qed.

Lemma rstrip_split (s : str) :
  exists sp, s = rstrip s ++ sp.
Proof.
  unfold rstrip. exists (rev (takewhile isspace (rev s))).
  rewrite <- rev_app_distr, takewhile_dropwhile. now rewrite rev_involutive.
Qed.

Lemma strip_head (s : str) (c : ascii) (r : str) :
  strip s = c :: r ->
  exists sp t,
    s = sp ++ c :: t
    /\ Forall (fun x => isspace x = true) sp
    /\ isspace c = false.
Proof.
  intros H. unfold strip, lstrip in H.
  destruct (rstrip_split s) as (tl & Hs).
  pose proof (takewhile_dropwhile isspace (rstrip s)) as Hsplit.
  pose proof (takewhile_all isspace (rstrip s)) as Hall.
  pose proof (dropwhile_head _ _ _ _ H) as Hc.
  rewrite H in Hsplit.
  exists (takewhile isspace (rstrip s)), (r ++ tl). repeat split; auto.
  rewrite Hs at 1. rewrite <- Hsplit at 1. now rewrite <- app_assoc.
Qed.

(** The characters of a joined text come from the separator or the
    pieces. *)
Lemma in_join (x : ascii) (sep : str) (cells : list str) :
  In x (join sep cells) -> In x sep \/ exists c, In c cells /\ In x c.
Proof.
  induction cells as [|c cells IH]; [contradiction|].
  destruct cells as [|d cells].
  - simpl. intros H. right. exists c. auto.
  - change (join sep (c :: d :: cells))
      with (c ++ sep ++ join sep (d :: cells)).
    intros H. apply in_app_or in H. destruct H as [H|H].
    + right. exists c. split; [now left|exact H].
    + apply in_app_or in H. destruct H as [H|H]; [now left|].
      destruct (IH H) as [H'|(c' & Hc' & Hx)]; [now left|].
      right. exists c'. split; [now right|exact Hx].
Qed.

(** The joined text ends with the last piece. *)
Lemma join_last (sep : str) (cells : list str) :
  cells <> [] ->
  exists pre, join sep cells = pre ++ last cells [].
Proof.
  induction cells as [|c cells IH]; intros Hne; [congruence|].
  destruct cells as [|d cells].
  - exists []. reflexivity.
  - destruct IH as (pre & Hp); [discriminate|].
    exists (c ++ sep ++ pre).
    change (join sep (c :: d :: cells))
      with (c ++ sep ++ join sep (d :: cells)).
    change (last (c :: d :: cells) []) with (last (d :: cells) []).
    rewrite Hp. now rewrite <- !app_assoc.
Qed.

End Stripping.

(** ** The csv round trip *)

Section CsvRoundTrip.

#[local] Arguments run : simpl never.

(** A line that does not begin with an equals sign is no sheet header. *)
Lemma sheet_needs_equals (s : str) :
  (forall t, s <> EQUALS :: t) -> re_match SHEET_RX s = None.
Proof.
  intros Hs. unfold re_match, match_at, SHEET_RX, Plus.
  rewrite run_seq.
  change (run Bos s 0 None ?k) with (k s 0 (@None (nat * nat))).
  cbv beta. rewrite !run_seq. unfold chr.
  destruct s as [|c s]; [reflexivity|]. rewrite run_chr_cons.
  destruct (Ascii.eqb_spec EQUALS c) as [<-|]; [|reflexivity].
  now elim (Hs s).
Qed.

Lemma clean_cell_stripped (c : str) : clean_cell c -> strip c = c.
Proof. now intros (H & _). Qed.

(** The line of a clean row is the joined cells, as they are. *)
Lemma row_line_clean (row : list str) :
  clean_row row ->
  exists pre z,
    row_line row = join (lit " | ") row
    /\ join (lit " | ") row = pre ++ [z]
    /\ isspace z = false.
Proof.
  intros (Hcells & Hlast & _).
  assert (Hne : row <> []) by (intros ->; now apply Hlast).
  destruct (join_last (lit " | ") row Hne) as (pre & Hj).
  assert (Hin : In (last row []) row).
  { destruct (exists_last Hne) as (r & c & ->). rewrite last_last.
    apply in_or_app. right. now left. }
  rewrite Forall_forall in Hcells. apply Hcells in Hin.
  destruct Hin as (Hst & _). apply stripped_ends in Hst.
  destruct Hst as [Hst|(_ & Hz)]; [congruence|].
  destruct (exists_last Hlast) as (c0 & z & Hc).
  rewrite Hc, last_last in Hz.
  exists (pre ++ c0), z. rewrite Hj, Hc, app_assoc.
  repeat split; auto.
  unfold row_line. rewrite Hj, Hc, app_assoc. now apply rstrip_snoc.
Qed.

(** The stripped line of a clean row does not begin with an equals
    sign. *)
Lemma clean_row_no_header (row : list str) :
  clean_row row ->
  forall t, strip (join (lit " | ") row) <> EQUALS :: t.
Proof.
  intros (Hcells & Hlast & Hhd) t Hs.
  apply strip_head in Hs. destruct Hs as (sp & r & Hj & Hsp & _).
  destruct row as [|c row]; [now apply Hlast|].
  inversion Hcells as [|? ? Hc Hrest]; subst.
  destruct Hc as (Hst & _). apply stripped_ends in Hst.
  destruct c as [|x c].
  - (* an empty first cell: the line begins with the separator *)
    destruct row as [|d row]; [now apply Hlast|].
    change (join (lit " | ") ([] :: d :: row))
      with (" "%char :: "|"%char :: " "%char :: join (lit " | ") (d :: row))
      in Hj.
    destruct sp as [|y1 [|y2 sp]]; try discriminate Hj.
    inversion Hsp as [|? ? _ Hsp2]; subst.
    inversion Hsp2 as [|? ? Hy2 _]; subst.
    inversion Hj; subst. discriminate Hy2.
  - destruct Hst as [Hst|(Hx & _)]; [discriminate|]. simpl in Hx.
    assert (Hjx : exists rest, join (lit " | ") ((x :: c) :: row)
                               = x :: rest).
    { destruct row; simpl; eauto. }
    destruct Hjx as (rest & Hjx).
    assert (Hj' : x :: rest = sp ++ EQUALS :: r)
      by (rewrite <- Hjx; exact Hj).
    clear Hj. rename Hj' into Hj.
    destruct sp as [|y sp].
    + inversion Hj; subst. now apply (Hhd c).
    + inversion Hsp; subst. inversion Hj; subst. congruence.
Qed.

(** One clean row, written and read back. *)
Lemma csv_line_clean (R : list (list str)) (row : list str) :
  clean_row row -> csv_line R (row_line row) = R ++ [row].
Proof.
  intros Hrow. pose proof Hrow as (Hcells & Hlast & Hhd).
  destruct (row_line_clean row Hrow) as (pre & z & Hl & Hj & Hz).
  unfold csv_line. rewrite Hl.
  assert (Hnb : nonempty (strip (join (lit " | ") row)) = true).
  { rewrite Hj. pose proof (strip_not_blank pre z Hz) as H.
    destruct (strip (pre ++ [z])); [congruence|reflexivity]. }
  rewrite Hnb. simpl negb. cbv iota.
  rewrite sheet_header_csv,
    (sheet_needs_equals _ (clean_row_no_header row Hrow)).
  cbn [is_some]. cbv iota. f_equal. f_equal.
  unfold cells_of. rewrite (split_join PIPE).
  - rewrite <- (map_id row) at 2. apply map_ext_in.
    intros c Hc. rewrite Forall_forall in Hcells.
    now apply clean_cell_stripped, Hcells.
  - simpl. tauto.
  - intros ->. now apply Hlast.
  - apply Forall_forall. intros c Hc. rewrite Forall_forall in Hcells.
    now destruct (Hcells c Hc) as (_ & Hp & _).
Qed.

Lemma csv_fold_clean (rows : list (list str)) :
  Forall clean_row rows ->
  forall R, fold_left csv_line (map row_line rows) R = R ++ rows.
Proof.
  induction 1 as [|row rows Hrow Hrows IH]; intros R; simpl.
  - now rewrite app_nil_r.
  - rewrite (csv_line_clean R row Hrow), IH. now rewrite <- app_assoc.
Qed.

(** The line of a clean row holds no line break. *)
Lemma row_line_no_newline (row : list str) :
  clean_row row -> ~ In NL (row_line row).
Proof.
  intros Hrow Hin. destruct (row_line_clean row Hrow) as (_ & _ & Hl & _).
  rewrite Hl in Hin. apply in_join in Hin.
  destruct Hin as [Hin|(c & Hc & Hin)].
  - simpl in Hin. intuition discriminate.
  - destruct Hrow as (Hcells & _). rewrite Forall_forall in Hcells.
    now destruct (Hcells c Hc) as (_ & _ & Hn).
Qed.

(** X9. Csv round trip: rows of clean cells (no surrounding whitespace, no
    pipe, no line break), each row ending with a non-empty cell and not
    starting with an equals sign, come back unchanged when the text
    [extract_text_from_csv] builds from them is given to
    [save_csv_from_flat]. *)
Theorem csv_round_trip (rows : list (list str)) :
  Forall clean_row rows ->
  save_csv_from_flat (extract_text_from_csv_rows rows) = rows.
Proof.
  intros Hrows. unfold save_csv_from_flat, extract_text_from_csv_rows.
  destruct rows as [|row rows]; [reflexivity|].
  rewrite (split_join NL).
  - now rewrite csv_fold_clean.
  - now left.
  - discriminate.
  - apply Forall_forall. intros l Hl. apply in_map_iff in Hl.
    destruct Hl as (r & <- & Hr). apply row_line_no_newline.
    rewrite Forall_forall in Hrows. now apply Hrows.
Qed.

End CsvRoundTrip.

Lemma csv_round_trip_witness :
  let rows := [[lit "a"; lit "b"]; [lit "1"; lit "2"]] in
  Forall clean_row rows
  /\ extract_text_from_csv_rows rows = lit "a | b" ++ [NL] ++ lit "1 | 2"
  /\ save_csv_from_flat (extract_text_from_csv_rows rows) = rows.
Proof.
  intros rows.
  assert (H : Forall clean_row rows).
  { repeat constructor; try reflexivity; simpl;
      try (intros t Ht; discriminate Ht);
      intuition discriminate. }
  split; [exact H|]. split; [reflexivity|].
  exact (csv_round_trip rows H).
Defined.

(** ** The xlsx round trip *)

Section XlsxRoundTrip.

#[local] Arguments run : simpl never.

(** A greedy repetition of a class that succeeds after the whole run
    succeeds. *)
Lemma star_loop_success (p : ascii -> bool) (k : K) (r : res) :
  forall n s pos g,
    length s <= n ->
    k (dropwhile p s) (pos + length (takewhile p s)) g = Some r ->
    star_loop (run (Chr p)) k n s pos g = Some r.
Proof.
  induction n as [|n IH]; intros s pos g Hn Hk.
  - destruct s; [|simpl in Hn; lia]. simpl in *.
    now rewrite Nat.add_0_r in Hk.
  - destruct s as [|c s]; simpl in *.
    + rewrite ?run_chr_nil. simpl. now rewrite Nat.add_0_r in Hk.
    + rewrite run_chr_cons. destruct (p c) eqn:Epc.
      * assert (Hlt : (pos <? S pos) = true) by (apply Nat.ltb_lt; lia).
        rewrite Hlt, (IH s (S pos) g); [reflexivity|lia|].
        simpl in Hk. now rewrite Nat.add_succ_r in Hk.
      * simpl in *. now rewrite Nat.add_0_r in Hk.
Qed.

(** A lazy repetition of [.] stops at the first place where what follows
    matches. *)
Lemma lazy_loop_dots (k : K) (r : res) (rest : str) :
  forall u n pos g,
    ~ In NL u ->
    (forall u1 u2 p g', u = u1 ++ u2 -> u2 <> [] ->
                        k (u2 ++ rest) p g' = None) ->
    length u <= n ->
    k rest (pos + length u) g = Some r ->
    lazy_loop (run dot) k n (u ++ rest) pos g = Some r.
Proof.
  induction u as [|a u IH]; intros n pos g Hnl Hfail Hn Hk.
  - simpl in *. rewrite Nat.add_0_r in Hk.
    destruct n; simpl; now rewrite Hk.
  - destruct n as [|n]; [simpl in Hn; lia|].
    change ((a :: u) ++ rest) with (a :: u ++ rest).
    simpl lazy_loop.
    change (a :: u ++ rest) with ((a :: u) ++ rest) at 1.
    rewrite (Hfail [] (a :: u)) by (reflexivity || discriminate).
    simpl orelse. unfold dot. rewrite run_chr_cons.
    assert (Ha : negb (Ascii.eqb a NL) = true).
    { apply negb_true_iff, Ascii.eqb_neq. intros ->. apply Hnl. now left. }
    rewrite Ha.
    assert (Hlt : (pos <? S pos) = true) by (apply Nat.ltb_lt; lia).
    rewrite Hlt. apply IH.
    + intros H. apply Hnl. now right.
    + intros u1 u2 p g' Hu Hne. apply (Hfail (a :: u1) u2); [|exact Hne].
      now rewrite Hu.
    + simpl in Hn. lia.
    + simpl in Hk. now rewrite Nat.add_succ_r in Hk.
Qed.

Lemma length_dropwhile_stop (p : ascii -> bool) (a : str) (c : ascii)
    (b : str) :
  p c = false -> length b < length (dropwhile p (a ++ c :: b)).
Proof.
  intros Hc. induction a as [|x a IH]; simpl.
  - rewrite Hc. simpl. lia.
  - destruct (p x); [exact IH|]. simpl. rewrite length_app. simpl. lia.
Qed.

(** The end of the header pattern does not match before the end of a
    title that ends with a character that is no space. *)
Lemma header_end_fails (u : str) (z : ascii) (pos : nat) (g : cap)
    (k : K) :
  isspace z = false ->
  run HEADER_END ((u ++ [z]) ++ lit " =====") pos g k = None.
Proof.
  intros Hz. unfold HEADER_END, space, Plus, chr.
  rewrite run_seq, run_star.
  assert (Hd : exists y w, dropwhile isspace (u ++ [z]) = y :: w).
  { rewrite dropwhile_snoc by assumption.
    destruct (dropwhile isspace u); simpl; eauto. }
  destruct Hd as (y & w & Ed).
  rewrite star_loop_class.
  - rewrite dropwhile_app_stop by (rewrite Ed; discriminate).
    rewrite Ed, run_seq, run_seq.
    change ((y :: w) ++ lit " =====") with (y :: w ++ lit " =====").
    rewrite run_chr_cons.
    destruct (Ascii.eqb EQUALS y) eqn:Ey; [|reflexivity].
    rewrite run_star, star_loop_class.
    + pose proof (length_dropwhile_stop (Ascii.eqb EQUALS) w " "%char
                    (lit "=====") eq_refl) as Hlen.
      change (w ++ lit " =====") with (w ++ " "%char :: lit "=====").
      destruct (dropwhile (Ascii.eqb EQUALS) (w ++ " "%char :: lit "====="))
        as [|c1 [|c2 d]]; simpl in Hlen; try lia.
      reflexivity.
    + intros c s0 p0 g0 Hc. destruct s0 as [|c' s0]; [|reflexivity].
      change (run Eos [c] p0 g0 k)
        with (if Ascii.eqb c NL then k [c] p0 g0 else None).
      apply Ascii.eqb_eq in Hc. subst c. reflexivity.
    + lia.
  - intros c s0 p0 g0 Hc. rewrite run_seq, run_seq, run_chr_cons.
    destruct (Ascii.eqb_spec EQUALS c) as [<-|]; [discriminate|reflexivity].
  - lia.
Qed.

Lemma header_end_ok (pos : nat) (g : cap) (k : K) (r : res) :
  k [] (pos + 6) g = Some r ->
  run HEADER_END (lit " =====") pos g k = Some r.
Proof.
  intros Hk. unfold HEADER_END, space, Plus, chr.
  rewrite run_seq, run_star. apply star_loop_success; [lia|].
  simpl dropwhile. simpl takewhile. simpl length.
  rewrite run_seq, run_seq, run_chr_cons. simpl Ascii.eqb. cbv iota.
  rewrite run_star. apply star_loop_success; [simpl; lia|].
  simpl dropwhile. simpl takewhile. simpl length.
  change (run Eos [] ?p ?g0 ?k0) with (k0 (@nil ascii) p g0). cbv beta.
  rewrite <- Hk. f_equal. lia.
Qed.

(** The sheet header pattern finds the title in the header line of a
    clean title. *)
Lemma header_match (t : str) :
  clean_title t ->
  re_match SHEET_RX (header_line t)
  = Some (mkMatch 0 (length (header_line t)) t).
Proof.
  intros (Hne & Hst & Hnl).
  apply stripped_ends in Hst. destruct Hst as [Hst|(Hx & Hz)];
    [congruence|].
  destruct t as [|x t']; [congruence|]. simpl in Hx.
  set (r := (length (header_line (x :: t')),
             Some (13, 13 + length (x :: t')))).
  assert (Hrun : run SHEET_RX (header_line (x :: t')) 0 None
                   (fun _ e g => Some (e, g)) = Some r).
  { unfold SHEET_RX, header_line, Plus, chr.
    rewrite run_seq.
    change (run Bos ?s0 0 ?g0 ?k0) with (k0 s0 0 g0). cbv beta.
    rewrite !run_seq.
    change (lit "===== Sheet: " ++ (x :: t') ++ lit " =====")
      with (EQUALS :: lit "==== Sheet: " ++ (x :: t') ++ lit " =====").
    rewrite run_chr_cons, Ascii.eqb_refl, run_star.
    apply star_loop_success; [lia|].
    change (dropwhile (Ascii.eqb EQUALS)
              (lit "==== Sheet: " ++ (x :: t') ++ lit " ====="))
      with (lit " Sheet: " ++ (x :: t') ++ lit " =====").
    change (takewhile (Ascii.eqb EQUALS)
              (lit "==== Sheet: " ++ (x :: t') ++ lit " ====="))
      with (lit "====").
    rewrite run_seq, run_star. apply star_loop_success; [lia|].
    change (dropwhile isspace (lit " Sheet: " ++ (x :: t') ++ lit " ====="))
      with (lit "Sheet: " ++ (x :: t') ++ lit " =====").
    change (takewhile isspace (lit " Sheet: " ++ (x :: t') ++ lit " ====="))
      with (lit " ").
    rewrite run_seq.
    change (word_i (lit "Sheet:"))
      with (Seq (chr_i "S") (Seq (chr_i "h") (Seq (chr_i "e")
             (Seq (chr_i "e") (Seq (chr_i "t") (Seq (chr_i ":") Eps)))))).
    change (lit "Sheet: " ++ (x :: t') ++ lit " =====")
      with ("S"%char :: "h"%char :: "e"%char :: "e"%char :: "t"%char
            :: ":"%char :: " "%char :: (x :: t') ++ lit " =====").
    unfold chr_i.
    repeat (rewrite run_seq, run_chr_cons;
            match goal with
            | |- context [if ?b then _ else _] =>
                change b with true; cbv iota
            end).
    change (run Eps ?s0 ?p0 ?g0 ?k0) with (k0 s0 p0 g0). cbv beta.
    rewrite run_seq, run_star. apply star_loop_success; [lia|].
    assert (Hdw : dropwhile isspace
                    (" "%char :: (x :: t') ++ lit " =====")
                  = (x :: t') ++ lit " =====")
      by (simpl; now rewrite Hx).
    assert (Htw : takewhile isspace
                    (" "%char :: (x :: t') ++ lit " =====")
                  = [" "%char])
      by (simpl; now rewrite Hx).
    rewrite Hdw, Htw.
    rewrite run_seq, run_group. unfold LazyPlus. rewrite run_seq.
    change ((x :: t') ++ lit " =====") with (x :: t' ++ lit " =====").
    unfold dot at 1. rewrite run_chr_cons.
    assert (Hxn : negb (Ascii.eqb x NL) = true).
    { apply negb_true_iff, Ascii.eqb_neq. intros ->. apply Hnl. now left. }
    rewrite Hxn.
    change (run (LazyStar dot) ?s0 ?p0 ?g0 ?k0)
      with (lazy_loop (run dot) k0 (length s0) s0 p0 g0).
    apply lazy_loop_dots.
    - intros H. apply Hnl. now right.
    - intros u1 u2 p g' Hu Hu2.
      destruct (exists_last Hu2) as (u2' & z & ->).
      apply header_end_fails.
      rewrite Hu in Hz.
      change (x :: u1 ++ u2' ++ [z]) with ((x :: u1) ++ u2' ++ [z]) in Hz.
      now rewrite !app_assoc, last_last in Hz.
    - rewrite length_app. lia.
    - apply header_end_ok. subst r. unfold header_line. f_equal.
      simpl length. rewrite !length_app. simpl length.
      apply f_equal2; [lia|]. apply f_equal, f_equal2; lia. }
  unfold re_match, match_at. rewrite Hrun. subst r. cbv iota beta.
  f_equal. f_equal. unfold group_text, header_line.
  apply (slice_middle (lit "===== Sheet: ") (x :: t') (lit " =====")).
Qed.

(** [strip] keeps a text that begins and ends with characters that are no
    spaces. *)
Lemma strip_keeps (s : str) (z : ascii) :
  isspace (hd SP (s ++ [z])) = false -> isspace z = false ->
  strip (s ++ [z]) = s ++ [z].
Proof.
  intros Ha Hz. unfold strip. rewrite rstrip_snoc by assumption.
  unfold lstrip. destruct (s ++ [z]) as [|a l]; [reflexivity|].
  simpl in Ha |- *. now rewrite Ha.
Qed.

Lemma strip_trailing_newline (s : str) : strip (s ++ [NL]) = strip s.
Proof.
  unfold strip, rstrip. rewrite rev_app_distr. reflexivity.
Qed.

Lemma header_line_ends (t : str) :
  header_line t
  = (EQUALS :: lit "==== Sheet: " ++ t ++ lit " ====") ++ [EQUALS].
Proof.
  unfold header_line.
  change (lit " =====") with (lit " ====" ++ [EQUALS]).
  rewrite !app_assoc. reflexivity.
Qed.

Lemma strip_header_line (t : str) : strip (header_line t) = header_line t.
Proof.
  rewrite header_line_ends. now apply strip_keeps.
Qed.

(** A header line opens a sheet with the title it carries. *)
Lemma xlsx_line_header (st : xlsx_state) (t : str) :
  clean_title t -> xlsx_line st (header_line t) = new_sheet st t.
Proof.
  intros Ht. unfold xlsx_line.
  rewrite strip_header_line, (header_match t Ht). reflexivity.
Qed.

(** The line of a clean row appends the row to the current sheet. *)
Lemma xlsx_line_row (st : xlsx_state) (row : list str) :
  clean_row row ->
  xlsx_line st (row_line row)
  = mkXlsx (append_row row (ws st) (wb st)) (ws st) (first_sheet_used st).
Proof.
  intros Hrow. pose proof Hrow as (Hcells & Hlast & Hhd).
  destruct (row_line_clean row Hrow) as (pre & z & Hl & Hj & Hz).
  unfold xlsx_line. rewrite Hl.
  assert (Hnb : nonempty (strip (join (lit " | ") row)) = true).
  { rewrite Hj. pose proof (strip_not_blank pre z Hz) as H.
    destruct (strip (pre ++ [z])); [congruence|reflexivity]. }
  rewrite Hnb. simpl negb. cbv iota.
  rewrite (sheet_needs_equals _ (clean_row_no_header row Hrow)).
  f_equal. f_equal.
  unfold cells_of. rewrite (split_join PIPE).
  - rewrite <- (map_id row) at 2. apply map_ext_in.
    intros c Hc. rewrite Forall_forall in Hcells.
    now apply clean_cell_stripped, Hcells.
  - simpl. tauto.
  - intros ->. now apply Hlast.
  - apply Forall_forall. intros c Hc. rewrite Forall_forall in Hcells.
    now destruct (Hcells c Hc) as (_ & Hp & _).
Qed.

Lemma append_row_last (cells : list str) (pre : Workbook) (sh : Worksheet) :
  append_row cells (length pre) (pre ++ [sh])
  = pre ++ [mkSheet (title sh) (rows sh ++ [cells])].
Proof.
  unfold append_row. induction pre as [|p pre IH]; simpl; [reflexivity|].
  now rewrite IH.
Qed.

(** The lines of clean rows fill the last sheet. *)
Lemma xlsx_fold_rows (rs : list (list str)) :
  Forall clean_row rs ->
  forall pre sh used,
    fold_left xlsx_line (map row_line rs)
      (mkXlsx (pre ++ [sh]) (length pre) used)
    = mkXlsx (pre ++ [mkSheet (title sh) (rows sh ++ rs)])
        (length pre) used.
Proof.
  induction 1 as [|row rs Hrow Hrs IH]; intros pre sh used.
  - simpl. rewrite app_nil_r. now destruct sh.
  - simpl map. simpl fold_left. rewrite (xlsx_line_row _ row Hrow).
    cbn [wb ws first_sheet_used]. rewrite append_row_last, IH.
    cbn [title rows]. now rewrite <- app_assoc.
Qed.

Lemma clean_sheet_rows (w : str * list (list (option str))) :
  clean_sheet w -> Forall clean_row (map cell_texts (snd w)).
Proof.
  intros (_ & H). apply Forall_forall. intros r Hr.
  apply in_map_iff in Hr. destruct Hr as (r0 & <- & Hr0).
  rewrite Forall_forall in H. now apply H.
Qed.

Lemma sheet_parts_lines (w : str * list (list (option str))) :
  sheet_parts w
  = header_line (fst w) :: map row_line (map cell_texts (snd w)) ++ [[]].
Proof. unfold sheet_parts, header_line. now rewrite map_map. Qed.

(** The lines of the first worksheet rename the sheet the workbook is
    created with and fill it. *)
Lemma xlsx_fold_first (w : str * list (list (option str))) :
  clean_sheet w ->
  fold_left xlsx_line (sheet_parts w)
    (mkXlsx (set_title (lit "Sheet1") 0 new_workbook) 0 false)
  = mkXlsx [sheet_written w] 0 true.
Proof.
  intros Hw. pose proof Hw as ((Hne & _) & _).
  rewrite sheet_parts_lines. simpl fold_left.
  rewrite xlsx_line_header by apply Hw.
  unfold new_sheet. cbn [first_sheet_used negb wb ws].
  unfold or_default. destruct (fst w) as [|x t] eqn:Et; [congruence|].
  cbn [nonempty]. rewrite fold_left_app.
  match goal with
  | |- context [fold_left xlsx_line (map row_line ?l) ?st] =>
      change (fold_left xlsx_line (map row_line l) st)
        with (fold_left xlsx_line (map row_line l)
                (mkXlsx ([] ++ [mkSheet (x :: t) []])
                        (@length Worksheet []) true))
  end.
  rewrite (xlsx_fold_rows _ (clean_sheet_rows w Hw)).
  unfold sheet_written. rewrite Et. reflexivity.
Qed.

(** The lines of a later worksheet add a sheet and fill it. *)
Lemma xlsx_fold_next (w : str * list (list (option str)))
    (b : Workbook) (n : nat) :
  clean_sheet w ->
  fold_left xlsx_line (sheet_parts w) (mkXlsx b n true)
  = mkXlsx (b ++ [sheet_written w]) (length b) true.
Proof.
  intros Hw. pose proof Hw as ((Hne & _) & _).
  rewrite sheet_parts_lines. simpl fold_left.
  rewrite xlsx_line_header by apply Hw.
  unfold new_sheet. cbn [first_sheet_used negb wb ws].
  unfold or_default. destruct (fst w) as [|x t] eqn:Et; [congruence|].
  cbn [nonempty]. rewrite fold_left_app.
  rewrite (xlsx_fold_rows _ (clean_sheet_rows w Hw)).
  unfold sheet_written. rewrite Et. reflexivity.
Qed.

Lemma xlsx_fold_sheets (wss : list (str * list (list (option str)))) :
  Forall clean_sheet wss ->
  forall b n,
    wb (fold_left xlsx_line (flat_map sheet_parts wss) (mkXlsx b n true))
    = b ++ map sheet_written wss.
Proof.
  induction 1 as [|w wss Hw Hwss IH]; intros b n.
  - simpl. now rewrite app_nil_r.
  - change (flat_map sheet_parts (w :: wss))
      with (sheet_parts w ++ flat_map sheet_parts wss).
    rewrite fold_left_app, (xlsx_fold_next w b n Hw), IH.
    rewrite <- app_assoc. reflexivity.
Qed.

(** No line written for a clean worksheet holds a line break. *)
Lemma sheet_parts_no_newline (w : str * list (list (option str))) :
  clean_sheet w -> Forall (fun l => ~ In NL l) (sheet_parts w).
Proof.
  intros Hw. pose proof Hw as ((_ & _ & Hnl) & _).
  rewrite sheet_parts_lines. constructor.
  - unfold header_line. intros H.
    apply in_app_or in H. destruct H as [H|H];
      [simpl in H; intuition discriminate|].
    apply in_app_or in H. destruct H as [H|H]; [now apply Hnl|].
    simpl in H. intuition discriminate.
  - apply Forall_app. split; [|constructor; [intros []|constructor]].
    apply Forall_forall. intros l Hl. apply in_map_iff in Hl.
    destruct Hl as (r & <- & Hr). apply row_line_no_newline.
    pose proof (clean_sheet_rows w Hw) as Hrows.
    rewrite Forall_forall in Hrows. now apply Hrows.
Qed.

(** The last line written for a clean worksheet, before the blank one,
    ends with a character that is no space. *)
Lemma sheet_parts_last (w : str * list (list (option str))) :
  clean_sheet w ->
  exists A p z,
    sheet_parts w = (A ++ [p ++ [z]]) ++ [[]] /\ isspace z = false.
Proof.
  intros Hw. rewrite sheet_parts_lines.
  pose proof (clean_sheet_rows w Hw) as Hrows.
  destruct (map cell_texts (snd w)) as [|r0 rs0] eqn:Er.
  - exists [], (EQUALS :: lit "==== Sheet: " ++ fst w ++ lit " ===="),
      EQUALS.
    split; [|reflexivity]. simpl. now rewrite header_line_ends.
  - destruct (@exists_last _ (r0 :: rs0)) as (rs & r & Hr); [discriminate|].
    rewrite Hr in *. apply Forall_app in Hrows. destruct Hrows as (_ & Hr1).
    inversion Hr1 as [|? ? Hrow _]; subst.
    destruct (row_line_clean r Hrow) as (pre & z & Hl & Hj & Hz).
    exists (header_line (fst w) :: map row_line rs), pre, z.
    split; [|exact Hz]. rewrite map_app. simpl. now rewrite Hl, Hj.
Qed.

Lemma join_head (sep : str) (c : ascii) (h : str) (l : list str) :
  exists rest, join sep ((c :: h) :: l) = c :: rest.
Proof. destruct l; simpl; eauto. Qed.

(** The lines of the text read from clean worksheets are the lines written
    for them, but for the blank line at the end. *)
Lemma xlsx_text_lines (wss : list (str * list (list (option str)))) :
  wss <> [] -> Forall clean_sheet wss ->
  exists L0,
    flat_map sheet_parts wss = L0 ++ [[]]
    /\ split [NL] (extract_text_from_xlsx_sheets wss) = L0.
Proof.
  intros Hne Hall.
  assert (Hnl : Forall (fun l => ~ In NL l) (flat_map sheet_parts wss)).
  { apply Forall_flat_map. apply Forall_forall. intros w Hw.
    apply sheet_parts_no_newline. rewrite Forall_forall in Hall.
    now apply Hall. }
  assert (Hhd : exists t0 T, flat_map sheet_parts wss = header_line t0 :: T).
  { destruct wss as [|w0 wss0]; [congruence|].
    exists (fst w0).
    change (flat_map sheet_parts (w0 :: wss0))
      with (sheet_parts w0 ++ flat_map sheet_parts wss0).
    rewrite sheet_parts_lines. rewrite <- app_comm_cons. eauto. }
  destruct (exists_last Hne) as (wss' & w & Hw).
  rewrite Hw in Hall. apply Forall_app in Hall. destruct Hall as (_ & Hcw).
  inversion Hcw as [|? ? Hclean _]; subst.
  destruct (sheet_parts_last w Hclean) as (A & p & z & Hparts & Hz).
  set (L1 := flat_map sheet_parts wss' ++ A).
  assert (HF : flat_map sheet_parts (wss' ++ [w]) = (L1 ++ [p ++ [z]]) ++ [[]]).
  { rewrite flat_map_app.
    change (flat_map sheet_parts [w]) with (sheet_parts w ++ []).
    rewrite app_nil_r, Hparts.
    subst L1. now rewrite !app_assoc. }
  exists (L1 ++ [p ++ [z]]). split; [exact HF|].
  unfold extract_text_from_xlsx_sheets. rewrite HF.
  rewrite join_snoc by (destruct L1; discriminate).
  rewrite app_nil_r, strip_trailing_newline.
  rewrite HF in Hnl. apply Forall_app in Hnl. destruct Hnl as (Hnl & _).
  destruct Hhd as (t0 & T & Hhd). rewrite HF in Hhd.
  assert (Hj : exists q, join [NL] (L1 ++ [p ++ [z]]) = q ++ [z]).
  { destruct L1 as [|l L1'].
    - exists p. reflexivity.
    - exists (join [NL] (l :: L1') ++ [NL] ++ p).
      rewrite join_snoc by discriminate. now rewrite <- !app_assoc. }
  assert (Hh : exists rest, join [NL] (L1 ++ [p ++ [z]]) = EQUALS :: rest).
  { destruct (L1 ++ [p ++ [z]]) as [|l0 L'] eqn:E; [discriminate|].
    simpl in Hhd. injection Hhd as Hl0 _. rewrite Hl0.
    apply join_head. }
  destruct Hj as (q & Hj). destruct Hh as (rest & Hh).
  rewrite Hj, strip_keeps; [| |exact Hz].
  - rewrite <- Hj. apply (split_join NL); [now left| |exact Hnl].
    destruct L1; discriminate.
  - rewrite <- Hj, Hh. reflexivity.
Qed.

(** X10. Xlsx round trip: worksheets with clean titles (not empty, no
    surrounding whitespace, no line break) and clean rows come back with
    their titles and the texts of their cells when the text
    [extract_text_from_xlsx] builds from them is given to
    [save_xlsx_from_flat]. *)
Theorem xlsx_round_trip (wss : list (str * list (list (option str)))) :
  wss <> [] -> Forall clean_sheet wss ->
  save_xlsx_from_flat (extract_text_from_xlsx_sheets wss)
  = map sheet_written wss.
Proof.
  intros Hne Hall.
  destruct (xlsx_text_lines wss Hne Hall) as (L0 & HF & HS).
  unfold save_xlsx_from_flat. rewrite HS.
  set (st0 := mkXlsx (set_title (lit "Sheet1") 0 new_workbook) 0 false).
  assert (Hblank : fold_left xlsx_line L0 st0
                   = fold_left xlsx_line (L0 ++ [[]]) st0)
    by (now rewrite fold_left_app).
  rewrite Hblank, <- HF. subst st0.
  destruct Hall as [|w wss Hw Hwss]; [congruence|].
  change (flat_map sheet_parts (w :: wss))
    with (sheet_parts w ++ flat_map sheet_parts wss).
  rewrite fold_left_app, (xlsx_fold_first w Hw).
  now rewrite xlsx_fold_sheets.
Qed.

(** X11. From csv to xlsx: the text [extract_text_from_csv] builds from
    clean rows makes [save_xlsx_from_flat] build a workbook of one sheet,
    titled "Sheet1", with these rows. *)
Theorem csv_to_workbook (rs : list (list str)) :
  Forall clean_row rs ->
  save_xlsx_from_flat (extract_text_from_csv_rows rs)
  = [mkSheet (lit "Sheet1") rs].
Proof.
  intros Hrows. unfold save_xlsx_from_flat, extract_text_from_csv_rows.
  destruct rs as [|r rs]; [reflexivity|].
  rewrite (split_join NL).
  - change (mkXlsx (set_title (lit "Sheet1") 0 new_workbook) 0 false)
      with (mkXlsx ([] ++ [mkSheet (lit "Sheet1") []])
                   (@length Worksheet []) false).
    now rewrite (xlsx_fold_rows _ Hrows).
  - now left.
  - discriminate.
  - apply Forall_forall. intros l Hl. apply in_map_iff in Hl.
    destruct Hl as (r0 & <- & Hr). apply row_line_no_newline.
    rewrite Forall_forall in Hrows. now apply Hrows.
Qed.

(** X12. From xlsx to csv: the text [extract_text_from_xlsx] builds from
    clean worksheets makes [save_csv_from_flat] write the rows of all the
    sheets, one sheet after the other, and no title. *)
Theorem workbook_to_csv (wss : list (str * list (list (option str)))) :
  Forall clean_sheet wss ->
  save_csv_from_flat (extract_text_from_xlsx_sheets wss)
  = concat (map (fun w => map cell_texts (snd w)) wss).
Proof.
  intros Hall. destruct wss as [|w0 wss0]; [reflexivity|].
  set (wss := w0 :: wss0) in *.
  assert (Hne : wss <> []) by discriminate.
  destruct (xlsx_text_lines wss Hne Hall) as (L0 & HF & HS).
  unfold save_csv_from_flat. rewrite HS.
  set (st0 := mkXlsx (set_title (lit "Sheet1") 0 new_workbook) 0 false).
  rewrite (csv_xlsx_fold L0 [] st0);
    [|split; [discriminate|reflexivity]|reflexivity].
  assert (Hblank : fold_left xlsx_line L0 st0
                   = fold_left xlsx_line (L0 ++ [[]]) st0)
    by (now rewrite fold_left_app).
  rewrite Hblank, <- HF. subst st0 wss.
  inversion Hall as [|? ? Hw Hwss]; subst.
  change (flat_map sheet_parts (w0 :: wss0))
    with (sheet_parts w0 ++ flat_map sheet_parts wss0).
  rewrite fold_left_app, (xlsx_fold_first w0 Hw), xlsx_fold_sheets
    by assumption.
  change ([sheet_written w0] ++ map sheet_written wss0)
    with (map sheet_written (w0 :: wss0)).
  rewrite map_map. reflexivity.
Qed.

(** The sheets after a run of lines: one more for each header line, the
    first header renaming the sheet the workbook starts with. *)
Lemma xlsx_fold_length (lines : list str) :
  forall st,
    length (wb (fold_left xlsx_line lines st))
    = if first_sheet_used st
      then length (wb st) + length (filter is_header lines)
      else length (wb st) + length (filter is_header lines)
           - Nat.min 1 (length (filter is_header lines)).
Proof.
  induction lines as [|line lines IH]; intros st.
  - simpl. destruct (first_sheet_used st); lia.
  - simpl fold_left. rewrite IH. simpl filter.
    unfold xlsx_line, is_header.
    destruct (nonempty (strip line)); simpl negb; cbv iota.
    2:{ simpl andb. cbv iota. reflexivity. }
    destruct (re_match SHEET_RX (strip line)) as [m|];
      cbn [is_some andb].
    + unfold new_sheet.
      destruct (first_sheet_used st); cbn [negb wb first_sheet_used].
      * rewrite length_app. simpl. lia.
      * unfold set_title. rewrite length_update_sheet. simpl. lia.
    + cbn [wb first_sheet_used]. unfold append_row.
      now rewrite length_update_sheet.
Qed.

(** X13. The workbook of [save_xlsx_from_flat] is never empty: it has one
    sheet for each sheet header line of the text, and one sheet when the
    text has no header line. *)
Theorem workbook_sheet_count (text : str) :
  length (save_xlsx_from_flat text)
  = Nat.max 1 (length (filter is_header (split [NL] text))).
Proof.
  unfold save_xlsx_from_flat. rewrite xlsx_fold_length.
  cbn [first_sheet_used wb].
  change (length (set_title (lit "Sheet1") 0 new_workbook)) with 1.
  destruct (filter is_header (split [NL] text)) as [|h hs];
    simpl; lia.
Qed.

End XlsxRoundTrip.

Lemma xlsx_round_trip_witness :
  let wss := [(lit "Q1", [[Some (lit "a"); None; Some (lit "b")]]);
              (lit "Q2", [])] in
  wss <> [] /\ Forall clean_sheet wss
  /\ save_xlsx_from_flat (extract_text_from_xlsx_sheets wss)
     = [mkSheet (lit "Q1") [[lit "a"; []; lit "b"]]; mkSheet (lit "Q2") []].
Proof.
  intros wss.
  assert (Hne : wss <> []) by discriminate.
  assert (H : Forall clean_sheet wss).
  { repeat constructor; try reflexivity; simpl;
      try (intros t Ht; discriminate Ht);
      intuition discriminate. }
  split; [exact Hne|]. split; [exact H|].
  exact (xlsx_round_trip wss Hne H).
Defined.

Lemma csv_to_workbook_witness :
  let rs := [[lit "a"; lit "b"]; [lit "1"; lit "2"]] in
  Forall clean_row rs
  /\ save_xlsx_from_flat (extract_text_from_csv_rows rs)
     = [mkSheet (lit "Sheet1") rs].
Proof.
  intros rs.
  assert (H : Forall clean_row rs).
  { repeat constructor; try reflexivity; simpl;
      try (intros t Ht; discriminate Ht);
      intuition discriminate. }
  split; [exact H|]. exact (csv_to_workbook rs H).
Defined.

Lemma workbook_to_csv_witness :
  let wss := [(lit "Q1", [[Some (lit "a"); None; Some (lit "b")]]);
              (lit "Q2", [[Some (lit "c")]])] in
  Forall clean_sheet wss
  /\ save_csv_from_flat (extract_text_from_xlsx_sheets wss)
     = [[lit "a"; []; lit "b"]; [lit "c"]].
Proof.
  intros wss.
  assert (H : Forall clean_sheet wss).
  { repeat constructor; try reflexivity; simpl;
      try (intros t Ht; discriminate Ht);
      intuition discriminate. }
  split; [exact H|]. exact (workbook_to_csv wss H).
Defined.

(** ** Headings of [save_pdf] *)

Section Headings.

#[local] Arguments run : simpl never.

Lemma run_alt r1 r2 s pos g k :
  run (Alt r1 r2) s pos g k = orelse (run r1 s pos g k) (run r2 s pos g k).
Proof. reflexivity. Qed.

Lemma run_eps s pos g k : run Eps s pos g k = k s pos g.
Proof. reflexivity. Qed.

Lemma dropwhile_all (p : ascii -> bool) (s : str) :
  Forall (fun c => p c = true) s -> dropwhile p s = [].
Proof.
  induction 1 as [|c s Hc Hs IH]; simpl; [reflexivity|]. now rewrite Hc.
Qed.

Lemma takewhile_whole (p : ascii -> bool) (s : str) :
  Forall (fun c => p c = true) s -> takewhile p s = s.
Proof.
  induction 1 as [|c s Hc Hs IH]; simpl; [reflexivity|].
  now rewrite Hc, IH.
Qed.

Lemma no_newline_dots (t : str) :
  ~ In NL t -> Forall (fun c => negb (Ascii.eqb c NL) = true) t.
Proof.
  intros H. apply Forall_forall. intros c Hc.
  apply negb_true_iff, Ascii.eqb_neq. intros ->. now apply H.
Qed.

(** The part [\s+(.+)$] of the heading pattern takes one whitespace
    character and all of a title that begins with a character that is no
    space and has no line break. *)
Lemma heading_tail (w : ascii) (t : str) (pos : nat) :
  isspace w = true -> t <> [] -> isspace (hd SP t) = false -> ~ In NL t ->
  run (Seq (Plus space) (Seq (Group (Plus dot)) Eos)) (w :: t) pos None
      (fun _ e g => Some (e, g))
  = Some (S pos + length t, Some (S pos, S pos + length t)).
Proof.
  intros Hw Hne Hhd Hnl. destruct t as [|x t']; [congruence|].
  simpl in Hhd. unfold Plus, space.
  rewrite !run_seq, run_chr_cons, Hw, run_star.
  apply star_loop_success; [lia|].
  simpl dropwhile. simpl takewhile. rewrite Hhd. simpl length.
  rewrite run_seq, run_group. unfold dot. rewrite run_seq, run_chr_cons.
  pose proof (no_newline_dots _ Hnl) as Hdots.
  inversion Hdots as [|? ? Hx Ht']; subst. rewrite Hx, run_star.
  apply star_loop_success; [lia|].
  rewrite (dropwhile_all _ _ Ht'), (takewhile_whole _ _ Ht').
  change (run Eos [] ?p ?g0 ?k0) with (k0 (@nil ascii) p g0). cbv beta.
  rewrite Nat.add_0_r. f_equal. f_equal; [lia|]. f_equal. f_equal. lia.
Qed.

(** The heading pattern on one to three hashes, a space, and a title. *)
Lemma heading_match (hs t : str) :
  In hs [lit "#"; lit "##"; lit "###"] ->
  t <> [] -> isspace (hd SP t) = false -> ~ In NL t ->
  re_match HEADING_RX (hs ++ SP :: t)
  = Some (mkMatch 0 (length hs + 1 + length t) t).
Proof.
  intros Hhs Hne Hhd Hnl.
  assert (Hrun : run HEADING_RX (hs ++ SP :: t) 0 None
                   (fun _ e g => Some (e, g))
                 = Some (length hs + 1 + length t,
                         Some (length (hs ++ [SP]),
                               length (hs ++ [SP]) + length t))).
  { unfold HEADING_RX, Opt, chr. rewrite run_seq.
    change (run Bos ?s0 0 ?g0 ?k0) with (k0 s0 0 g0). cbv beta.
    rewrite !run_seq.
    destruct Hhs as [<-|[<-|[<-|[]]]];
      change (lit "#" ++ SP :: t) with (HASH :: SP :: t);
      change (lit "##" ++ SP :: t) with (HASH :: HASH :: SP :: t);
      change (lit "###" ++ SP :: t) with (HASH :: HASH :: HASH :: SP :: t);
      rewrite run_chr_cons, Ascii.eqb_refl, run_alt, run_seq, run_chr_cons.
    - change (Ascii.eqb HASH SP) with false. cbv iota.
      cbn [orelse]. rewrite run_eps.
      rewrite (heading_tail SP t 1) by (auto; reflexivity).
      reflexivity.
    - rewrite Ascii.eqb_refl, run_alt, run_chr_cons.
      change (Ascii.eqb HASH SP) with false. cbv iota.
      cbn [orelse]. rewrite run_eps.
      rewrite (heading_tail SP t 2) by (auto; reflexivity).
      reflexivity.
    - rewrite Ascii.eqb_refl, run_alt, run_chr_cons, Ascii.eqb_refl.
      rewrite (heading_tail SP t 3) by (auto; reflexivity).
      reflexivity. }
  unfold re_match, match_at. rewrite Hrun. cbv iota beta. f_equal. f_equal.
  unfold group_text.
  replace (hs ++ SP :: t) with ((hs ++ [SP]) ++ t ++ [])
    by (now rewrite app_nil_r, <- app_assoc).
  apply slice_middle.
Qed.

(** X14. A block of one, two or three hashes, one space and a title on
    one line is a heading in the style of its level: [h1] for one hash,
    [h2] for two, [h3] for three, with the title as its text. *)
Theorem heading_block (k : nat) (t : str) :
  1 <= k <= 3 -> t <> [] -> isspace (hd SP t) = false -> ~ In NL t ->
  classify_block (repeat HASH k ++ SP :: t) = Some (Heading (k - 1) t).
Proof.
  intros Hk Hne Hhd Hnl. unfold classify_block.
  rewrite str_eqb_neq
    by (destruct k as [|k]; [lia|]; simpl; discriminate).
  assert (Hhs : In (repeat HASH k) [lit "#"; lit "##"; lit "###"]).
  { destruct k as [|[|[|[|k]]]]; try lia; simpl; auto. }
  rewrite (heading_match _ t Hhs Hne Hhd Hnl). cbn [m_group1].
  destruct k as [|[|[|[|k]]]]; try lia; reflexivity.
Qed.

Lemma find_from_first (c : ascii) (p s : str) :
  ~ In c p ->
  forall i, find_from c (p ++ c :: s) i = (i + Z.of_nat (length p))%Z.
Proof.
  induction p as [|x p IH]; intros Hin i.
  - simpl. rewrite Ascii.eqb_refl. lia.
  - simpl app. simpl find_from.
    destruct (Ascii.eqb_spec x c) as [->|_]; [elim Hin; now left|].
    rewrite IH by (intros H; apply Hin; now right).
    simpl length. lia.
Qed.

Lemma style_index_high (i : Z) : (3 <= i)%Z -> style_index i = None.
Proof.
  intros Hi. unfold style_index.
  assert (H1 : (i <? 3)%Z = false) by (apply Z.ltb_ge; lia).
  assert (H2 : (i <? 0)%Z = false) by (apply Z.ltb_ge; lia).
  now rewrite H1, H2, !andb_false_r.
Qed.

(** X15. A heading whose hashes are followed by a whitespace character
    other than a space makes [save_pdf] count the hashes up to the first
    space of the block: when four or more hashes come before that space,
    the style lookup raises [IndexError]. *)
Theorem heading_style_error (w : ascii) (u v : str) :
  isspace w = true -> w <> SP ->
  Forall (fun c => isspace c = false) u ->
  3 <= length (filter (Ascii.eqb HASH) u) ->
  ~ In NL v ->
  classify_block (HASH :: w :: u ++ SP :: v) = None.
Proof.
  intros Hw Hsp Hu Hcount Hv. unfold classify_block.
  rewrite str_eqb_neq by discriminate.
  assert (Hwh : Ascii.eqb HASH w = false).
  { apply Ascii.eqb_neq. intros <-. discriminate Hw. }
  destruct u as [|x u']; [simpl in Hcount; lia|].
  assert (Hx : isspace x = false) by now inversion Hu.
  assert (Hnl : ~ In NL ((x :: u') ++ SP :: v)).
  { intros H. apply in_app_or in H. destruct H as [H|[H|H]].
    - rewrite Forall_forall in Hu. now discriminate (Hu _ H).
    - discriminate H.
    - now apply Hv. }
  assert (Hrun : exists r, run HEADING_RX (HASH :: w :: (x :: u') ++ SP :: v)
                             0 None (fun _ e g => Some (e, g)) = Some r).
  { unfold HEADING_RX, Opt, chr. rewrite run_seq.
    change (run Bos ?s0 0 ?g0 ?k0) with (k0 s0 0 g0). cbv beta.
    rewrite !run_seq, run_chr_cons, Ascii.eqb_refl, run_alt, run_seq,
      run_chr_cons, Hwh.
    cbn [orelse]. rewrite run_eps.
    rewrite (heading_tail w _ 1) by (auto; discriminate).
    eauto. }
  destruct Hrun as ([e g] & Hrun).
  unfold re_match, match_at. rewrite Hrun. cbv iota beta.
  assert (Hfind : find SP (HASH :: w :: (x :: u') ++ SP :: v)
                  = Z.of_nat (length (HASH :: w :: x :: u'))).
  { unfold find.
    change (HASH :: w :: (x :: u') ++ SP :: v)
      with ((HASH :: w :: x :: u') ++ SP :: v).
    rewrite find_from_first; [lia|].
    intros [H|[H|H]]; [discriminate H|congruence|].
    rewrite Forall_forall in Hu. now discriminate (Hu _ H). }
  rewrite Hfind. unfold count_upto.
  assert (Hneg : (Z.of_nat (length (HASH :: w :: x :: u')) <? 0)%Z = false)
    by (apply Z.ltb_ge; lia).
  rewrite Hneg, Nat2Z.id.
  change (HASH :: w :: (x :: u') ++ SP :: v)
    with ((HASH :: w :: x :: u') ++ SP :: v).
  rewrite firstn_app, firstn_all, Nat.sub_diag. simpl firstn at 1.
  rewrite app_nil_r.
  assert (Hlen : 4 <= length (filter (Ascii.eqb HASH) (HASH :: w :: x :: u'))).
  { cbn [filter] in Hcount |- *. rewrite Ascii.eqb_refl, Hwh.
    cbn [length]. lia. }
  now rewrite style_index_high by lia.
Qed.

End Headings.

Lemma heading_block_witness :
  classify_block (lit "## Results") = Some (Heading 1 (lit "Results")).
Proof.
  apply (heading_block 2 (lit "Results"));
    [lia|discriminate|reflexivity|].
  simpl. intuition discriminate.
Defined.

Lemma heading_style_error_witness :
  classify_block (HASH :: NL :: lit "####" ++ SP :: lit "Title") = None.
Proof.
  apply (heading_style_error NL (lit "####") (lit "Title"));
    [reflexivity|discriminate| |simpl; lia|].
  - repeat constructor.
  - simpl. intuition discriminate.
Defined.

(** ** The text of a pdf *)

Section PdfText.

Lemma join_nil (sep : str) (cells : list str) :
  Forall (fun c => c <> []) cells -> join sep cells = [] -> cells = [].
Proof.
  intros Hall Hj. destruct cells as [|c cells]; [reflexivity|].
  inversion Hall as [|? ? Hc _]; subst.
  destruct cells as [|d cells]; simpl in Hj.
  - congruence.
  - apply app_eq_nil in Hj. destruct Hj as (Hj & _). congruence.
Qed.

Lemma strip_nil_iff (t : str) :
  nonempty t && nonempty (strip t) = false <-> strip t = [].
Proof.
  destruct t as [|c t]; [now split|].
  cbn [nonempty andb]. destruct (strip (c :: t)); simpl; split; congruence.
Qed.

(** The pages kept by the filter of [extract_text_from_pdf]. *)
Lemma kept_pages_nil (pages : list (option (option str))) :
  filter (fun t => nonempty t && nonempty (strip t)) (page_texts pages) = []
  <-> Forall blank_page pages.
Proof.
  induction pages as [|page pages IH].
  - split; [constructor|reflexivity].
  - change (page_texts (page :: pages))
      with (match page with
            | None => []
            | Some None => [[]]
            | Some (Some t) => [t]
            end ++ page_texts pages).
    rewrite filter_app. split.
    + intros H. apply app_eq_nil in H. destruct H as (H1 & H2).
      constructor; [|now apply IH].
      destruct page as [[t|]|]; simpl; auto.
      apply strip_nil_iff. simpl in H1.
      destruct (nonempty t && nonempty (strip t)); [discriminate|reflexivity].
    + intros H. inversion H as [|? ? Hp Hps]; subst.
      apply IH in Hps. rewrite Hps, app_nil_r.
      destruct page as [[t|]|]; simpl in *; auto.
      apply strip_nil_iff in Hp. now rewrite Hp.
Qed.

(** X16. [extract_text_from_pdf] returns the empty text exactly when no
    page has text: every page raises in [extract_text()], or gives [None],
    or gives only whitespace. *)
Theorem pdf_text_empty (pages : list (option (option str))) :
  extract_text_from_pdf_pages pages = [] <-> Forall blank_page pages.
Proof.
  unfold extract_text_from_pdf_pages. rewrite <- kept_pages_nil.
  set (kept := filter _ (page_texts pages)). split.
  - intros H. apply join_nil in H.
    + now destruct kept.
    + apply Forall_forall. intros c Hc. apply in_map_iff in Hc.
      destruct Hc as (t & <- & Ht). subst kept.
      apply filter_In in Ht. destruct Ht as (_ & Ht).
      apply andb_true_iff in Ht. destruct Ht as (_ & Ht).
      destruct (strip t); [discriminate|discriminate].
  - intros ->. reflexivity.
Qed.

End PdfText.

(** ** Plain text in [save_docx] *)

Section DocxPlain.

(** A text without asterisks has no bold match. *)
Lemma scan_no_star (s : str) :
  Forall (fun c => not_star c = true) s ->
  forall pre, scan _BOLD_RE (pre ++ s) (length pre) s = [].
Proof.
  induction 1 as [|c s Hc Hs IH]; intros pre.
  - now simp scan.
  - rewrite (scan_bold_none pre c s (bold_at_not_star c s Hc)).
    apply IH.
Qed.

Lemma no_star_class (s : str) :
  ~ In STAR s -> Forall (fun c => not_star c = true) s.
Proof.
  intros H. apply Forall_forall. intros c Hc. apply not_star_neq.
  intros ->. now apply H.
Qed.

Lemma line_runs_plain (line : str) :
  ~ In STAR line -> line_runs line = plain_runs line.
Proof.
  intros H. unfold line_runs, _split_bold_segments, finditer.
  pose proof (scan_no_star line (no_star_class line H) []) as Hs.
  change (scan _BOLD_RE line 0 line = []) in Hs. rewrite Hs.
  cbn [fold_left]. unfold plain_runs.
  destruct line as [|c line]; [reflexivity|].
  change (0 <? length (c :: line)) with true. cbv iota.
  rewrite slice_to_end. reflexivity.
Qed.

(** The characters of a piece are characters of the joined text. *)
Lemma in_join_piece (x : ascii) (sep c : str) (cells : list str) :
  In c cells -> In x c -> In x (join sep cells).
Proof.
  induction cells as [|d cells IH]; intros Hc Hx; [contradiction|].
  destruct cells as [|e cells].
  - destruct Hc as [->|[]]. exact Hx.
  - change (join sep (d :: e :: cells))
      with (d ++ sep ++ join sep (e :: cells)).
    destruct Hc as [->|Hc].
    + apply in_or_app. now left.
    + apply in_or_app. right. apply in_or_app. right. now apply IH.
Qed.

Lemma in_split_piece (x : ascii) (sep piece s : str) :
  In piece (split sep s) -> In x piece -> In x s.
Proof.
  intros Hp Hx. rewrite <- (join_split sep s).
  now apply (in_join_piece x sep piece).
Qed.

(** X17. Plain text in a docx: for a text without asterisks,
    [save_docx] adds one paragraph for each line of each part between
    blank-line separators, in order; the paragraph of a line holds the
    line as one run that is not bold, and the paragraph of an empty line
    holds no run. *)
Theorem docx_plain_text (text : str) :
  ~ In STAR text ->
  save_docx text
  = map plain_runs (flat_map (split [NL]) (split [NL; NL] text)).
Proof.
  intros Hstar. unfold save_docx.
  assert (Hparas : Forall (fun para => ~ In STAR para)
                          (split [NL; NL] text)).
  { apply Forall_forall. intros para Hp Hin.
    apply Hstar. now apply (in_split_piece STAR [NL; NL] para). }
  induction Hparas as [|para paras Hpara Hrest IH]; [reflexivity|].
  cbn [flat_map]. rewrite map_app, IH. f_equal.
  apply map_ext_in. intros line Hl. apply line_runs_plain.
  intros Hin. apply Hpara. now apply (in_split_piece STAR [NL] line).
Qed.

End DocxPlain.

Lemma docx_plain_text_witness :
  let text := lit "Title" ++ [NL; NL] ++ lit "a" ++ [NL] ++ lit "b" in
  ~ In STAR text
  /\ save_docx text
     = [[(lit "Title", false)]; [(lit "a", false)]; [(lit "b", false)]].
Proof.
  intros text.
  assert (H : ~ In STAR text) by (simpl; intuition discriminate).
  split; [exact H|].
  rewrite (docx_plain_text text H). reflexivity.
Defined.

(** ** Lists, quotes and paragraphs of [save_pdf] *)

Section Blocks.

#[local] Arguments run : simpl never.

(** A block that does not begin with a hash is no heading. *)
Lemma heading_needs_hash (s : str) :
  (forall t, s <> HASH :: t) -> re_match HEADING_RX s = None.
Proof.
  intros Hs. unfold re_match, match_at, HEADING_RX.
  rewrite run_seq.
  change (run Bos s 0 None ?k) with (k s 0 (@None (nat * nat))).
  cbv beta. rewrite !run_seq. unfold chr.
  destruct s as [|c s]; [reflexivity|]. rewrite run_chr_cons.
  destruct (Ascii.eqb_spec HASH c) as [<-|]; [|reflexivity].
  now elim (Hs s).
Qed.

(** A pattern anchored at the start matches nowhere else. *)
Lemma scan_bos_nil (r : regex) (text : str) :
  forall s pos, 0 < pos -> scan (Seq Bos r) text pos s = [].
Proof.
  induction s as [|c s IH]; intros pos Hpos; [now simp scan|].
  rewrite scan_cons_none; [apply IH; lia|].
  unfold match_at. rewrite run_seq.
  change (run Bos ?s0 pos ?g0 ?k0)
    with (if pos =? 0 then k0 s0 pos g0 else None).
  destruct pos; [lia|reflexivity].
Qed.

Lemma dropwhile_prefix (p : ascii -> bool) (a r : str) :
  Forall (fun c => p c = true) a -> dropwhile p (a ++ r) = dropwhile p r.
Proof.
  induction 1 as [|c a Hc Ha IH]; simpl; [reflexivity|]. now rewrite Hc.
Qed.

Lemma takewhile_prefix (p : ascii -> bool) (a : str) (x : ascii) (r : str) :
  Forall (fun c => p c = true) a -> p x = false ->
  takewhile p (a ++ x :: r) = a.
Proof.
  intros Ha Hx. induction Ha as [|c a Hc Ha IH]; simpl.
  - now rewrite Hx.
  - now rewrite Hc, IH.
Qed.

Lemma digit_not_space (c : ascii) : isdigit c = true -> isspace c = false.
Proof.
  destruct c as [[] [] [] [] [] [] [] []]; try discriminate; reflexivity.
Qed.

Lemma filter_all {A} (f : A -> bool) (l : list A) :
  Forall (fun x => f x = true) l -> filter f l = l.
Proof.
  induction 1 as [|x l Hx Hl IH]; simpl; [reflexivity|].
  now rewrite Hx, IH.
Qed.

Lemma forallb_map_ext {A B} (f : B -> bool) (g : A -> B) (h : A -> bool)
    (l : list A) :
  (forall x, In x l -> f (g x) = h x) ->
  forallb f (map g l) = forallb h l.
Proof.
  induction l as [|x l IH]; intros H; simpl; [reflexivity|].
  rewrite (H x) by now left. f_equal. apply IH.
  intros y Hy. apply H. now right.
Qed.

(** An item ends with a character that is no space and begins with one. *)
Lemma clean_item_ends (it : str) :
  clean_item it ->
  isspace (hd SP it) = false
  /\ exists it' z, it = it' ++ [z] /\ isspace z = false.
Proof.
  intros (Hne & Hst & _). apply stripped_ends in Hst.
  destruct Hst as [Hst|(Hx & Hz)]; [congruence|]. split; [exact Hx|].
  destruct (exists_last Hne) as (it' & z & ->).
  rewrite last_last in Hz. eauto.
Qed.

(** What a marker begins with. *)
Lemma marker_head (m : Marker) :
  good_marker m ->
  exists c r,
    marker_text m = c :: r
    /\ isspace c = false /\ c <> HASH /\ c <> EQUALS.
Proof.
  destruct m as [| |ds]; intros Hm.
  - exists "-"%char, []. repeat split; discriminate.
  - exists "*"%char, []. repeat split; discriminate.
  - destruct Hm as (Hne & Hds). destruct ds as [|d ds]; [congruence|].
    inversion Hds as [|? ? Hd _]; subst.
    exists d, (ds ++ lit "."). repeat split.
    + now apply digit_not_space.
    + intros ->. discriminate Hd.
    + intros ->. discriminate Hd.
Qed.

Lemma list_line_strip (m : Marker) (it : str) :
  good_marker m -> clean_item it ->
  strip (list_line (m, it)) = list_line (m, it).
Proof.
  intros Hm Hit. unfold list_line. cbn [fst snd].
  destruct (clean_item_ends it Hit) as (_ & it' & z & -> & Hz).
  destruct (marker_head m Hm) as (c & r & -> & Hc & _).
  replace ((c :: r) ++ SP :: it' ++ [z])
    with ((c :: r ++ SP :: it') ++ [z])
    by (simpl; now rewrite <- app_assoc).
  now apply strip_keeps.
Qed.

Lemma list_line_no_newline (m : Marker) (it : str) :
  good_marker m -> clean_item it -> ~ In NL (list_line (m, it)).
Proof.
  intros Hm (_ & _ & Hnl) H. unfold list_line in H. cbn [fst snd] in H.
  apply in_app_or in H. destruct H as [H|[H|H]].
  - destruct m as [| |ds]; simpl in H.
    + intuition discriminate.
    + intuition discriminate.
    + destruct Hm as (_ & Hds). apply in_app_or in H.
      destruct H as [H|H]; [|simpl in H; intuition discriminate].
      rewrite Forall_forall in Hds. now discriminate (Hds _ H).
  - discriminate H.
  - now apply Hnl.
Qed.

(** The number pattern [\d+\.] sees the numbered markers. *)
Lemma num_rx_marker (m : Marker) (it : str) :
  good_marker m ->
  is_some (re_match NUM_RX (list_line (m, it))) = is_number m.
Proof.
  intros Hm. unfold re_match, match_at, NUM_RX, Plus, digit, chr, list_line.
  cbn [fst snd]. rewrite !run_seq.
  destruct m as [| |ds]; cbn [marker_text is_number].
  - change (lit "-" ++ SP :: it) with ("-"%char :: SP :: it).
    now rewrite run_chr_cons.
  - change (lit "*" ++ SP :: it) with ("*"%char :: SP :: it).
    now rewrite run_chr_cons.
  - destruct Hm as (Hne & Hds). destruct ds as [|d ds]; [congruence|].
    inversion Hds as [|? ? Hd Hds']; subst.
    rewrite <- app_assoc.
    change ((d :: ds) ++ lit "." ++ SP :: it)
      with (d :: ds ++ "."%char :: SP :: it).
    rewrite run_chr_cons, Hd, run_star.
    rewrite (star_loop_success isdigit _
               (S (length ds) + 1, None)); [reflexivity|lia|].
    rewrite dropwhile_prefix by assumption.
    rewrite takewhile_prefix by (assumption || reflexivity).
    simpl dropwhile. rewrite run_chr_cons, Ascii.eqb_refl.
    f_equal. f_equal. lia.
Qed.

Lemma is_list_line_marker (m : Marker) (it : str) :
  good_marker m -> is_list_line (list_line (m, it)) = true.
Proof.
  intros Hm. unfold is_list_line. destruct m as [| |ds].
  - reflexivity.
  - reflexivity.
  - rewrite (num_rx_marker (Number ds) it Hm). apply orb_true_r.
Qed.

(** The prefix pattern [^(?:\d+\.|[-*])\s*] takes the marker and the
    space. *)
Lemma item_prefix_match (m : Marker) (it : str) :
  good_marker m -> clean_item it ->
  match_at ITEM_PREFIX_RX (list_line (m, it)) 0 (list_line (m, it))
  = Some (mkMatch 0 (length (marker_text m) + 1) []).
Proof.
  intros Hm Hit. destruct (clean_item_ends it Hit) as (Hhd & _).
  destruct Hit as (Hne & _). destruct it as [|x it]; [congruence|].
  simpl in Hhd.
  unfold match_at.
  match goal with
  | |- context [run ?rx ?s0 ?p0 ?g0 ?k0] =>
      assert (Hrun : run rx s0 p0 g0 k0
                     = Some (length (marker_text m) + 1, None))
  end.
  { unfold ITEM_PREFIX_RX, Plus, digit, chr, list_line. cbn [fst snd].
    rewrite run_seq.
    change (run Bos ?s0 0 ?g0 ?k0) with (k0 s0 0 g0). cbv beta.
    rewrite run_seq, run_alt, !run_seq.
    destruct m as [| |ds]; cbn [marker_text].
    - change (lit "-" ++ SP :: x :: it) with ("-"%char :: SP :: x :: it).
      rewrite !run_chr_cons.
      change (isdigit "-") with false. cbv iota. cbn [orelse].
      change (("-"%char =? "-")%char || ("-"%char =? STAR)%char) with true.
      cbv iota. rewrite run_star.
      apply star_loop_success; [lia|].
      simpl dropwhile. simpl takewhile. rewrite Hhd. reflexivity.
    - change (lit "*" ++ SP :: x :: it) with ("*"%char :: SP :: x :: it).
      rewrite !run_chr_cons.
      change (isdigit "*") with false. cbv iota. cbn [orelse].
      change (("*"%char =? "-")%char || ("*"%char =? STAR)%char) with true.
      cbv iota. rewrite run_star.
      apply star_loop_success; [lia|].
      simpl dropwhile. simpl takewhile. rewrite Hhd. reflexivity.
    - destruct Hm as (Hds0 & Hds). destruct ds as [|d ds]; [congruence|].
      inversion Hds as [|? ? Hd Hds']; subst.
      rewrite <- app_assoc.
      change ((d :: ds) ++ lit "." ++ SP :: x :: it)
        with (d :: ds ++ "."%char :: SP :: x :: it).
      rewrite run_chr_cons, Hd, run_star.
      rewrite (star_loop_success isdigit _
                 (length ((d :: ds) ++ lit ".") + 1, None));
        [reflexivity|lia|].
      rewrite dropwhile_prefix by assumption.
      rewrite takewhile_prefix by (assumption || reflexivity).
      simpl dropwhile. rewrite run_chr_cons, Ascii.eqb_refl, run_star.
      apply star_loop_success; [lia|].
      simpl dropwhile. simpl takewhile. rewrite Hhd.
      f_equal. f_equal. rewrite length_app. simpl. lia. }
  now rewrite Hrun.
Qed.

(** Removing the prefix of a list line leaves the item. *)
Lemma item_prefix_sub (m : Marker) (it : str) :
  good_marker m -> clean_item it ->
  re_sub ITEM_PREFIX_RX (fun _ => []) (list_line (m, it)) = it.
Proof.
  intros Hm Hit. unfold re_sub, finditer.
  pose proof (item_prefix_match m it Hm Hit) as Hmatch.
  destruct (marker_head m Hm) as (c & r & Hc & _).
  assert (Hline : list_line (m, it) = c :: r ++ SP :: it)
    by (unfold list_line; cbn [fst snd]; now rewrite Hc).
  rewrite Hline in Hmatch |- *.
  rewrite (scan_cons_some _ _ _ _ _ _ Hmatch) by (cbn [m_end]; lia).
  unfold ITEM_PREFIX_RX at 1. rewrite scan_bos_nil by (cbn [m_end]; lia).
  cbn [sub_loop m_start m_end]. rewrite slice_empty by lia.
  rewrite slice_to_end. simpl app. rewrite Hc.
  replace (c :: r ++ SP :: it) with ((c :: r ++ [SP]) ++ it)
    by (simpl; now rewrite <- app_assoc).
  replace (length (c :: r) + 1) with (length (c :: r ++ [SP]))
    by (simpl; rewrite length_app; simpl; lia).
  rewrite skipn_app, skipn_all, Nat.sub_diag. reflexivity.
Qed.

Lemma is_list_block_all (ls : list str) :
  ls <> [] -> filter nonblank ls = ls ->
  Forall (fun l => is_list_line (strip l) = true) ls ->
  is_list_block ls = true.
Proof.
  intros Hne Hf Hall. unfold is_list_block. rewrite Hf.
  destruct ls as [|l ls]; [congruence|].
  apply forallb_forall. now apply Forall_forall.
Qed.

(** X18. A block whose lines each are a marker (a dash, an asterisk, or a
    number and a dot), a space and an item, is a list in [save_pdf]: its
    items are the items of the lines, without marker and space, and it is
    numbered exactly when every line has a number. *)
Theorem list_block (mis : list (Marker * str)) :
  mis <> [] ->
  Forall (fun mi => good_marker (fst mi) /\ clean_item (snd mi)) mis ->
  classify_block (join [NL] (map list_line mis))
  = Some (ListBlock (forallb (fun mi => is_number (fst mi)) mis)
                    (map snd mis)).
Proof.
  intros Hne Hall. rewrite Forall_forall in Hall.
  destruct mis as [|[m0 it0] mis']; [congruence|].
  set (mis := (m0, it0) :: mis') in *.
  destruct (Hall (m0, it0) (or_introl eq_refl)) as (Hm0 & Hit0).
  cbn [fst snd] in Hm0, Hit0.
  destruct (marker_head m0 Hm0) as (c & r & Hc & Hsp & Hhash & Heq).
  assert (Hb : exists rest,
             join [NL] (map list_line mis) = c :: r ++ SP :: rest).
  { subst mis. cbn [map]. unfold list_line at 1. cbn [fst snd].
    rewrite Hc. destruct (map list_line mis') as [|l ls].
    - exists it0. reflexivity.
    - exists (it0 ++ [NL] ++ join [NL] (l :: ls)).
      change (join [NL] (((c :: r) ++ SP :: it0) :: l :: ls))
        with (((c :: r) ++ SP :: it0) ++ [NL] ++ join [NL] (l :: ls)).
      rewrite <- app_assoc. reflexivity. }
  destruct Hb as (rest & Hb).
  assert (Hsplit : split [NL] (join [NL] (map list_line mis))
                   = map list_line mis).
  { apply (split_join NL); [now left|discriminate|].
    apply Forall_forall. intros l Hl. apply in_map_iff in Hl.
    destruct Hl as ([m it] & <- & Hmi).
    destruct (Hall _ Hmi). now apply list_line_no_newline. }
  assert (Hstrip : forall l, In l (map list_line mis) -> strip l = l).
  { intros l Hl. apply in_map_iff in Hl.
    destruct Hl as ([m it] & <- & Hmi).
    destruct (Hall _ Hmi). now apply list_line_strip. }
  assert (Hfilter : filter nonblank (map list_line mis)
                    = map list_line mis).
  { apply filter_all, Forall_forall. intros l Hl. unfold nonblank.
    rewrite (Hstrip l Hl). apply in_map_iff in Hl.
    destruct Hl as ([m it] & <- & Hmi).
    destruct (Hall _ Hmi) as (Hm & _).
    destruct (marker_head m Hm) as (c' & r' & Hc' & _).
    unfold list_line. cbn [fst snd]. now rewrite Hc'. }
  unfold classify_block. rewrite Hsplit.
  rewrite str_eqb_neq.
  2:{ rewrite Hb. destruct m0 as [| |ds]; simpl in Hc.
      - injection Hc as <- <-. discriminate.
      - injection Hc as <- <-. discriminate.
      - destruct Hm0 as (Hds0 & Hds). destruct ds as [|d ds];
          [congruence|].
        injection Hc as <- _. inversion Hds as [|? ? Hd _]; subst.
        intros H. injection H as -> _. discriminate Hd. }
  rewrite heading_needs_hash by (rewrite Hb; congruence).
  rewrite sheet_needs_equals by (rewrite Hb; congruence).
  assert (Hlist : is_list_block (map list_line mis) = true).
  { apply is_list_block_all; [discriminate|exact Hfilter|].
    apply Forall_forall. intros l Hl.
    rewrite (Hstrip l Hl). apply in_map_iff in Hl.
    destruct Hl as ([m it] & <- & Hmi).
    destruct (Hall _ Hmi). now apply is_list_line_marker. }
  rewrite Hlist, Hfilter. f_equal. f_equal.
  - apply forallb_map_ext.
    intros [m it] Hmi. destruct (Hall _ Hmi) as (Hm & Hit).
    rewrite (list_line_strip m it Hm Hit). now apply num_rx_marker.
  - rewrite <- (map_id (map snd mis)). rewrite !map_map.
    apply map_ext_in. intros [m it] Hmi.
    destruct (Hall _ Hmi) as (Hm & Hit).
    rewrite (list_line_strip m it Hm Hit). now apply item_prefix_sub.
Qed.

Lemma not_list_line (c : ascii) (r : str) :
  isdigit c = false -> c <> "-"%char -> c <> STAR ->
  is_list_line (c :: r) = false.
Proof.
  intros Hd Hdash Hstar. unfold is_list_line, startswith.
  cbn [lit list_ascii_of_string strip_prefix].
  apply not_eq_sym, Ascii.eqb_neq in Hdash.
  apply not_eq_sym, Ascii.eqb_neq in Hstar.
  unfold STAR in Hstar. rewrite Hdash, Hstar. cbn [orb].
  unfold re_match, match_at, NUM_RX, Plus, digit.
  now rewrite !run_seq, run_chr_cons, Hd.
Qed.

Lemma not_list_block (l : str) (ls : list str) :
  nonblank l = true -> is_list_line (strip l) = false ->
  is_list_block (l :: ls) = false.
Proof.
  intros Hnb Hl. unfold is_list_block. cbn [filter]. rewrite Hnb.
  cbn [forallb]. now rewrite Hl.
Qed.

Lemma not_quote_block (l : str) (ls : list str) :
  nonblank l = true -> startswith (lit ">") (strip l) = false ->
  is_quote_block (l :: ls) = false.
Proof.
  intros Hnb Hl. unfold is_quote_block. cbn [filter]. rewrite Hnb.
  cbn [forallb]. now rewrite Hl.
Qed.

Lemma contains_absent (c : ascii) (l : str) :
  ~ In c l -> contains c l = false.
Proof.
  intros H. unfold contains. induction l as [|x l IH]; [reflexivity|].
  simpl. destruct (Ascii.eqb_spec c x) as [->|_]; [elim H; now left|].
  apply IH. intros Hin. apply H. now right.
Qed.

(** Lines without a pipe make no table. *)
Lemma not_table_block (lines : list str) :
  Forall (fun l => ~ In PIPE l) lines -> is_table_block lines = false.
Proof.
  intros H. unfold is_table_block.
  assert (Hf : filter (contains PIPE) lines = []).
  { induction H as [|l ls Hl Hls IH]; [reflexivity|].
    simpl. now rewrite (contains_absent PIPE l Hl). }
  rewrite Hf. apply Z.leb_gt. simpl length. lia.
Qed.

Lemma quote_line_strip (q : str) :
  clean_item q -> strip (quote_line q) = quote_line q.
Proof.
  intros Hq. destruct (clean_item_ends q Hq) as (_ & q' & z & -> & Hz).
  unfold quote_line.
  change (">"%char :: SP :: q' ++ [z]) with ((">"%char :: SP :: q') ++ [z]).
  now apply strip_keeps.
Qed.

(** What follows the quote mark, stripped, is the quoted text. *)
Lemma quote_line_text (q : str) :
  clean_item q ->
  strip (dropwhile (Ascii.eqb ">"%char) (quote_line q)) = q.
Proof.
  intros Hq. destruct (clean_item_ends q Hq) as (Hhd & q' & z & Hq' & Hz).
  unfold quote_line. cbn [dropwhile].
  change (Ascii.eqb ">"%char ">"%char) with true.
  change (Ascii.eqb ">"%char SP) with false. cbv iota.
  unfold strip. rewrite Hq'.
  change (SP :: q' ++ [z]) with ((SP :: q') ++ [z]).
  rewrite rstrip_snoc by assumption. unfold lstrip.
  change ((SP :: q') ++ [z]) with (SP :: q' ++ [z]).
  cbn [dropwhile]. change (isspace SP) with true. cbv iota.
  rewrite <- Hq'. destruct Hq as (Hne & _).
  destruct q as [|x q]; [congruence|]. simpl in Hhd |- *.
  now rewrite Hhd.
Qed.

(** X19. A block whose lines each are [> ] and a quoted text is a quote
    in [save_pdf]: its text is the quoted texts, one on each line, without
    the quote marks. *)
Theorem quote_block (qs : list str) :
  qs <> [] -> Forall clean_item qs ->
  classify_block (join [NL] (map quote_line qs))
  = Some (Quote (join [NL] qs)).
Proof.
  intros Hne Hall. rewrite Forall_forall in Hall.
  destruct qs as [|q0 qs']; [congruence|].
  set (qs := q0 :: qs') in *.
  assert (Hb : exists rest,
             join [NL] (map quote_line qs) = ">"%char :: rest)
    by (subst qs; apply join_head).
  destruct Hb as (rest & Hb).
  assert (Hsplit : split [NL] (join [NL] (map quote_line qs))
                   = map quote_line qs).
  { apply (split_join NL); [now left|discriminate|].
    apply Forall_forall. intros l Hl. apply in_map_iff in Hl.
    destruct Hl as (q & <- & Hq). destruct (Hall _ Hq) as (_ & _ & Hnl).
    intros [H|[H|H]]; [discriminate H|discriminate H|now apply Hnl]. }
  unfold classify_block. rewrite Hsplit.
  rewrite str_eqb_neq by (rewrite Hb; discriminate).
  rewrite heading_needs_hash by (rewrite Hb; discriminate).
  rewrite sheet_needs_equals by (rewrite Hb; discriminate).
  assert (Hq0 : clean_item q0) by (apply Hall; now left).
  assert (Hnb : nonblank (quote_line q0) = true)
    by (unfold nonblank; now rewrite quote_line_strip).
  assert (Hlist : is_list_block (map quote_line qs) = false).
  { subst qs. cbn [map]. apply not_list_block; [exact Hnb|].
    rewrite quote_line_strip by assumption.
    apply not_list_line; [reflexivity|discriminate|discriminate]. }
  assert (Hquote : is_quote_block (map quote_line qs) = true).
  { unfold is_quote_block. apply forallb_forall. intros l Hl.
    apply filter_In in Hl. destruct Hl as (Hl & _).
    apply in_map_iff in Hl. destruct Hl as (q & <- & Hq).
    now rewrite quote_line_strip by now apply Hall. }
  rewrite Hlist, Hquote. f_equal. f_equal. f_equal.
  rewrite <- (map_id qs) at 2. rewrite map_map.
  apply map_ext_in. intros q Hq. apply quote_line_text. now apply Hall.
Qed.

(** The first line of a text that begins with a character other than a
    line break begins with that character. *)
Lemma split_first (c : ascii) (rest : str) :
  c <> NL ->
  exists l0 ls, split [NL] (c :: rest) = (c :: l0) :: ls.
Proof.
  intros Hc. rewrite split_cons_none.
  - destruct (split [NL] rest) as [|l ls]; simpl; eauto.
  - cbn [strip_prefix]. apply not_eq_sym, Ascii.eqb_neq in Hc.
    now rewrite Hc.
Qed.

Lemma strip_cons_nonspace (c : ascii) (l : str) :
  isspace c = false -> exists r, strip (c :: l) = c :: r.
Proof.
  intros Hc. unfold strip, rstrip, lstrip. simpl rev.
  rewrite dropwhile_snoc by assumption. rewrite rev_app_distr. simpl.
  rewrite Hc. eauto.
Qed.

(** X20. A block that begins with a character that is no whitespace, no
    digit and none of [#], [=], [-], [*] and [>], and that holds no pipe,
    is a paragraph in [save_pdf], with the whole block as its text. *)
Theorem paragraph_block (c : ascii) (rest : str) :
  isspace c = false -> isdigit c = false ->
  ~ In c [HASH; EQUALS; "-"%char; STAR; ">"%char] ->
  ~ In PIPE (c :: rest) ->
  classify_block (c :: rest) = Some (Paragraph (c :: rest)).
Proof.
  intros Hsp Hd Hc Hpipe.
  assert (Hhash : c <> HASH) by (intros ->; apply Hc; simpl; auto).
  assert (Heq : c <> EQUALS) by (intros ->; apply Hc; simpl; auto).
  assert (Hdash : c <> "-"%char) by (intros ->; apply Hc; simpl; auto).
  assert (Hstar : c <> STAR) by (intros ->; apply Hc; simpl; auto).
  assert (Hgt : c <> ">"%char) by (intros ->; apply Hc; simpl; auto 6).
  assert (Hnl : c <> NL) by (intros ->; discriminate Hsp).
  unfold classify_block.
  rewrite str_eqb_neq by (intros H; injection H as H _; now apply Hdash).
  rewrite heading_needs_hash
    by (intros t H; injection H as H _; now apply Hhash).
  rewrite sheet_needs_equals
    by (intros t H; injection H as H _; now apply Heq).
  assert (Hlines : Forall (fun l => ~ In PIPE l) (split [NL] (c :: rest))).
  { apply Forall_forall. intros l Hl Hin. apply Hpipe.
    now apply (in_split_piece PIPE [NL] l). }
  destruct (split_first c rest Hnl) as (l0 & ls & Hsplit).
  rewrite Hsplit in *.
  destruct (strip_cons_nonspace c l0 Hsp) as (r & Hstrip).
  assert (Hnb : nonblank (c :: l0) = true)
    by (unfold nonblank; now rewrite Hstrip).
  rewrite not_list_block;
    [|exact Hnb|rewrite Hstrip; now apply not_list_line].
  rewrite not_quote_block; [|exact Hnb|].
  - now rewrite not_table_block.
  - rewrite Hstrip. unfold startswith.
    cbn [lit list_ascii_of_string strip_prefix].
    apply not_eq_sym, Ascii.eqb_neq in Hgt. now rewrite Hgt.
Qed.

End Blocks.

Lemma list_block_witness :
  classify_block (lit "1. wash" ++ [NL] ++ lit "2. dry")
  = Some (ListBlock true [lit "wash"; lit "dry"]).
Proof.
  apply (list_block [(Number (lit "1"), lit "wash");
                     (Number (lit "2"), lit "dry")]);
    [discriminate|].
  repeat constructor; try discriminate; try reflexivity;
    simpl; intuition discriminate.
Defined.

Lemma quote_block_witness :
  classify_block (lit "> to be" ++ [NL] ++ lit "> or not")
  = Some (Quote (lit "to be" ++ [NL] ++ lit "or not")).
Proof.
  apply (quote_block [lit "to be"; lit "or not"]); [discriminate|].
  repeat constructor; try discriminate; try reflexivity;
    simpl; intuition discriminate.
Defined.

Lemma paragraph_block_witness :
  classify_block (lit "Dear reader," ++ [NL] ++ lit "welcome.")
  = Some (Paragraph (lit "Dear reader," ++ [NL] ++ lit "welcome.")).
Proof.
  apply (paragraph_block "D"%char (lit "ear reader," ++ [NL] ++ lit "welcome."));
    [reflexivity|reflexivity| |]; simpl; intuition discriminate.
Defined.

(** ** The blocks of [save_pdf] *)

Section PdfBlocks.

#[local] Arguments run : simpl never.

Lemma star_loop_stop (p : ascii -> bool) (k : K) (n : nat) (x : ascii)
    (s : str) (pos : nat) (g : cap) :
  p x = false ->
  star_loop (run (Chr p)) k n (x :: s) pos g = k (x :: s) pos g.
Proof.
  intros Hx. destruct n; [reflexivity|]. simpl.
  now rewrite run_chr_cons, Hx.
Qed.

Lemma star_loop_S body (k : K) (n : nat) (s : str) (pos : nat) (g : cap) :
  star_loop body k (S n) s pos g
  = orelse
      (body s pos g (fun s' pos' g' =>
         if pos <? pos' then star_loop body k n s' pos' g' else None))
      (k s pos g).
Proof. reflexivity. Qed.

(** The blank-line pattern does not match at a character that is no line
    break. *)
Lemma block_rx_char (text : str) (pos : nat) (c : ascii) (s : str) :
  c <> NL -> match_at BLOCK_RX text pos (c :: s) = None.
Proof.
  intros Hc. unfold match_at, BLOCK_RX, chr.
  rewrite run_seq, run_chr_cons.
  apply not_eq_sym, Ascii.eqb_neq in Hc. now rewrite Hc.
Qed.

(** Nor at a line break followed by a character that is no space. *)
Lemma block_rx_single (text : str) (pos : nat) (x : ascii) (s : str) :
  isspace x = false -> match_at BLOCK_RX text pos (NL :: x :: s) = None.
Proof.
  intros Hx. unfold match_at, BLOCK_RX, chr, space.
  rewrite run_seq, run_chr_cons, Ascii.eqb_refl, run_seq, run_star.
  rewrite star_loop_stop by assumption. rewrite run_chr_cons.
  assert (Hn : Ascii.eqb NL x = false).
  { apply Ascii.eqb_neq. intros <-. discriminate Hx. }
  now rewrite Hn.
Qed.

(** It matches two line breaks followed by a character that is no
    space, and no more. *)
Lemma block_rx_double (text : str) (pos : nat) (x : ascii) (s : str) :
  isspace x = false ->
  match_at BLOCK_RX text pos (NL :: NL :: x :: s)
  = Some (mkMatch pos (S (S pos)) []).
Proof.
  intros Hx. unfold match_at, BLOCK_RX, chr, space.
  assert (Hn : Ascii.eqb NL x = false).
  { apply Ascii.eqb_neq. intros <-. discriminate Hx. }
  rewrite run_seq, run_chr_cons, Ascii.eqb_refl, run_seq, run_star.
  cbn [length]. rewrite star_loop_S, run_chr_cons.
  change (isspace NL) with true. cbv iota.
  assert (Hlt : (S pos <? S (S pos)) = true) by (apply Nat.ltb_lt; lia).
  rewrite Hlt, star_loop_stop by assumption.
  rewrite run_chr_cons, Hn. cbn [orelse].
  now rewrite run_chr_cons, Ascii.eqb_refl.
Qed.

Lemma scan_line (u : str) :
  ~ In NL u ->
  forall text pos t,
    scan BLOCK_RX text pos (u ++ t) = scan BLOCK_RX text (pos + length u) t.
Proof.
  induction u as [|c u IH]; intros Hnl text pos t.
  - simpl. now rewrite Nat.add_0_r.
  - change ((c :: u) ++ t) with (c :: u ++ t).
    rewrite scan_cons_none
      by (apply block_rx_char; intros ->; apply Hnl; now left).
    rewrite IH by (intros H; apply Hnl; now right).
    f_equal. simpl. lia.
Qed.

Lemma clean_item_head (l : str) :
  clean_item l -> exists x l', l = x :: l' /\ isspace x = false.
Proof.
  intros Hl. destruct (clean_item_ends l Hl) as (Hhd & _).
  destruct Hl as (Hne & _). destruct l as [|x l']; [congruence|].
  eauto.
Qed.

Lemma block_head (ls : list str) :
  solid_block ls ->
  exists x r, join [NL] ls = x :: r /\ isspace x = false.
Proof.
  intros (Hne & Hall). destruct ls as [|l ls]; [congruence|].
  inversion Hall as [|? ? Hl _]; subst.
  destruct (clean_item_head l Hl) as (x & l' & -> & Hx).
  destruct (join_head [NL] x l' ls) as (r & Hr). eauto.
Qed.

Lemma block_last (ls : list str) :
  solid_block ls ->
  exists r z, join [NL] ls = r ++ [z] /\ isspace z = false.
Proof.
  intros (Hne & Hall). destruct (join_last [NL] ls Hne) as (pre & Hj).
  assert (Hin : In (last ls []) ls).
  { destruct (exists_last Hne) as (r & c & ->). rewrite last_last.
    apply in_or_app. right. now left. }
  rewrite Forall_forall in Hall. apply Hall in Hin.
  destruct (clean_item_ends _ Hin) as (_ & l' & z & Hl & Hz).
  exists (pre ++ l'), z. split; [|exact Hz].
  now rewrite Hj, Hl, app_assoc.
Qed.

Lemma text_head (bss : list (list str)) :
  bss <> [] -> Forall solid_block bss ->
  exists x r, text_of_blocks bss = x :: r /\ isspace x = false.
Proof.
  intros Hne Hall. destruct bss as [|b bss]; [congruence|].
  inversion Hall as [|? ? Hb _]; subst.
  destruct (block_head b Hb) as (x & r & Hj & Hx).
  unfold text_of_blocks. cbn [map]. rewrite Hj.
  destruct (join_head [NL; NL] x r (map (join [NL]) bss)) as (r' & Hr).
  eauto.
Qed.

Lemma text_last (bss : list (list str)) :
  bss <> [] -> Forall solid_block bss ->
  exists r z, text_of_blocks bss = r ++ [z] /\ isspace z = false.
Proof.
  intros Hne Hall. unfold text_of_blocks.
  assert (Hne' : map (join [NL]) bss <> [])
    by (destruct bss; [congruence|discriminate]).
  destruct (join_last [NL; NL] _ Hne') as (pre & Hj).
  destruct (exists_last Hne) as (bss' & b & ->).
  rewrite map_app in Hj |- *. cbn [map] in Hj |- *.
  rewrite last_last in Hj.
  apply Forall_app in Hall. destruct Hall as (_ & Hb).
  inversion Hb as [|? ? Hb' _]; subst.
  destruct (block_last b Hb') as (r & z & Hr & Hz).
  exists (pre ++ r), z. split; [|exact Hz].
  now rewrite Hj, Hr, app_assoc.
Qed.

(** The scan finds no blank line inside a block. *)
Lemma scan_block (ls : list str) :
  Forall clean_item ls -> ls <> [] ->
  forall text pos t,
    scan BLOCK_RX text pos (join [NL] ls ++ t)
    = scan BLOCK_RX text (pos + length (join [NL] ls)) t.
Proof.
  induction 1 as [|l ls Hl Hls IH]; intros Hne text pos t; [congruence|].
  pose proof Hl as (_ & _ & Hnl).
  destruct ls as [|l2 ls].
  - cbn [join]. now apply scan_line.
  - change (join [NL] (l :: l2 :: ls))
      with (l ++ [NL] ++ join [NL] (l2 :: ls)).
    rewrite <- !app_assoc, (scan_line l Hnl).
    destruct (block_head (l2 :: ls)) as (x & r & Hj & Hx);
      [split; [discriminate|assumption]|].
    change ([NL] ++ join [NL] (l2 :: ls) ++ t)
      with (NL :: join [NL] (l2 :: ls) ++ t).
    rewrite Hj at 1. rewrite <- app_comm_cons.
    rewrite scan_cons_none by now apply block_rx_single.
    rewrite app_comm_cons, <- Hj.
    rewrite IH by discriminate. f_equal.
    rewrite !length_app. simpl. lia.
Qed.

Lemma scan_double (text : str) (pos : nat) (s : str) :
  (exists x r, s = x :: r /\ isspace x = false) ->
  scan BLOCK_RX text pos (NL :: NL :: s)
  = mkMatch pos (S (S pos)) [] :: scan BLOCK_RX text (S (S pos)) s.
Proof.
  intros (x & r & -> & Hx).
  rewrite (scan_cons_some _ _ _ _ _ _ (block_rx_double text pos x r Hx))
    by (cbn [m_end]; lia).
  cbn [m_end]. replace (S (S pos) - pos) with 2 by lia. reflexivity.
Qed.

(** The blank-line split of a text of solid blocks gives back the
    blocks. *)
Lemma split_loop_blocks (bss : list (list str)) :
  Forall solid_block bss -> bss <> [] ->
  forall pre,
    split_loop (pre ++ text_of_blocks bss)
      (scan BLOCK_RX (pre ++ text_of_blocks bss) (length pre)
            (text_of_blocks bss))
      (length pre)
    = map (join [NL]) bss.
Proof.
  induction 1 as [|b bss Hb Hbss IH]; intros Hne pre; [congruence|].
  pose proof Hb as (Hbne & Hlines).
  destruct bss as [|b2 bss].
  - unfold text_of_blocks. cbn [map join].
    pose proof (scan_block b Hlines Hbne (pre ++ join [NL] b)
                  (length pre) []) as Hs.
    rewrite app_nil_r in Hs. rewrite Hs. simp scan. cbn [split_loop].
    rewrite slice_to_end, skipn_app, skipn_all, Nat.sub_diag.
    reflexivity.
  - assert (Htext : text_of_blocks (b :: b2 :: bss)
                    = join [NL] b ++ [NL; NL] ++ text_of_blocks (b2 :: bss))
      by reflexivity.
    rewrite Htext.
    rewrite (scan_block b Hlines Hbne).
    destruct (text_head (b2 :: bss)) as (x & r & Hx & Hsp);
      [discriminate|assumption|].
    change ([NL; NL] ++ text_of_blocks (b2 :: bss))
      with (NL :: NL :: text_of_blocks (b2 :: bss)).
    rewrite scan_double by eauto.
    cbn [m_end m_start split_loop map]. f_equal.
    + apply (slice_middle pre (join [NL] b)).
    + replace (pre ++ join [NL] b ++ NL :: NL :: text_of_blocks (b2 :: bss))
        with ((pre ++ join [NL] b ++ [NL; NL]) ++ text_of_blocks (b2 :: bss))
        by (rewrite <- !app_assoc; reflexivity).
      replace (S (S (length pre + length (join [NL] b))))
        with (length (pre ++ join [NL] b ++ [NL; NL]))
        by (rewrite !length_app; simpl; lia).
      apply IH. discriminate.
Qed.

(** X21. The blocks [save_pdf] classifies are the parts of the text
    between blank lines: for a text of one block or more, each of one line
    or more without surrounding whitespace, and one empty line between
    blocks, the blocks come out in order, each classified on its own, and
    [save_pdf] raises exactly when the classification of some block
    does. *)
Theorem pdf_blocks_of_parts (bss : list (list str)) :
  bss <> [] -> Forall solid_block bss ->
  pdf_blocks (text_of_blocks bss)
  = sequence (map (fun ls => classify_block (join [NL] ls)) bss).
Proof.
  intros Hne Hall. unfold pdf_blocks.
  destruct (text_head bss Hne Hall) as (x & r & Hx & Hsp).
  destruct (text_last bss Hne Hall) as (r' & z & Hz & Hzsp).
  assert (Hstrip : strip (text_of_blocks bss) = text_of_blocks bss).
  { rewrite Hz. apply strip_keeps; [|exact Hzsp].
    rewrite <- Hz, Hx. exact Hsp. }
  rewrite Hstrip. unfold re_split, finditer.
  pose proof (split_loop_blocks bss Hall Hne []) as Hsplit.
  cbn [app length] in Hsplit. rewrite Hsplit, map_map.
  assert (Hsame : map (fun ls => strip (join [NL] ls)) bss
                  = map (join [NL]) bss).
  { apply map_ext_in. intros ls Hls.
    rewrite Forall_forall in Hall. apply Hall in Hls.
    destruct (block_head ls Hls) as (y & t & Hy & Hysp).
    destruct (block_last ls Hls) as (t' & w & Hw & Hwsp).
    rewrite Hw. apply strip_keeps; [|exact Hwsp].
    rewrite <- Hw, Hy. exact Hysp. }
  rewrite Hsame, filter_all, map_map; [reflexivity|].
  apply Forall_forall. intros c Hc. apply in_map_iff in Hc.
  destruct Hc as (ls & <- & Hls).
  rewrite Forall_forall in Hall. apply Hall in Hls.
  destruct (block_head ls Hls) as (y & t & -> & _). reflexivity.
Qed.

End PdfBlocks.

Lemma pdf_blocks_of_parts_witness :
  let bss := [[lit "# Title"]; [lit "- a"; lit "- b"]; [lit "Bye."]] in
  bss <> [] /\ Forall solid_block bss
  /\ pdf_blocks (text_of_blocks bss)
     = Some [Heading 0 (lit "Title");
             ListBlock false [lit "a"; lit "b"];
             Paragraph (lit "Bye.")].
Proof.
  intros bss.
  assert (Hne : bss <> []) by discriminate.
  assert (H : Forall solid_block bss).
  { repeat constructor; try discriminate; try reflexivity;
      simpl; intuition discriminate. }
  split; [exact Hne|]. split; [exact H|].
  rewrite (pdf_blocks_of_parts bss Hne H). reflexivity.
Defined.

(** ** From docx to docx *)

Section DocxRoundTrip.

(** X22. Docx round trip: for a document of one paragraph or more whose
    paragraph texts hold no line break and no asterisk, the text
    [extract_text_from_docx] builds makes [save_docx] add one paragraph
    for each paragraph of the document, in order, holding its text as one
    run that is not bold (no run for an empty paragraph). *)
Theorem docx_round_trip (texts : list str) :
  texts <> [] ->
  Forall (fun t => ~ In NL t /\ ~ In STAR t) texts ->
  save_docx (extract_text_from_docx_paragraphs texts)
  = map plain_runs texts.
Proof.
  intros Hne Hall. unfold save_docx, extract_text_from_docx_paragraphs.
  rewrite (split_join NL); [|now left|exact Hne|].
  - clear Hne. induction Hall as [|t texts (Hnl & Hstar) Hrest IH];
      [reflexivity|].
    cbn [flat_map map]. rewrite IH.
    rewrite (split_absent NL [NL] t) by (auto; now left).
    cbn [map app]. now rewrite line_runs_plain.
  - apply Forall_forall. intros t Ht.
    rewrite Forall_forall in Hall. now destruct (Hall t Ht).
Qed.

End DocxRoundTrip.

Lemma docx_round_trip_witness :
  let texts := [lit "Title"; []; lit "Body text."] in
  texts <> []
  /\ Forall (fun t => ~ In NL t /\ ~ In STAR t) texts
  /\ save_docx (extract_text_from_docx_paragraphs texts)
     = [[(lit "Title", false)]; []; [(lit "Body text.", false)]].
Proof.
  intros texts.
  assert (Hne : texts <> []) by discriminate.
  assert (H : Forall (fun t => ~ In NL t /\ ~ In STAR t) texts)
    by (repeat constructor; simpl; intuition discriminate).
  split; [exact Hne|]. split; [exact H|].
  exact (docx_round_trip texts Hne H).
Defined.
